(** * Output buffer, segment ring and pseudo-PC of the assembler (output.c)

    A shallow embedding of [src/output.c]: the output buffer with its write
    index and watermarks, the sorted ring of segments, the program counter
    with its pseudo-PC contexts, and the Intel HEX writer.  The C globals
    become one explicit [state]; every C function becomes a computation in a
    small state monad whose outcomes also cover the two ways the process can
    end early ([Throw_serious_error], [Bug_found]) and a loop that never
    exits. *)

From stdpp Require Import base numbers list strings sorting.
From Stdlib Require Import ZArith Lia Ascii.

Local Open Scope Z_scope.

(** ** Machine integers *)

(** A signed [w]-bit integer is a [Z]; [wrap w] is the two's complement
    wrap-around of a result that left the range. *)
Definition wrap (w z : Z) : Z := (z + 2 ^ (w - 1)) mod 2 ^ w - 2 ^ (w - 1).

(** [int] is 32 bits wide. *)
Definition int (z : Z) : Z := wrap 32 z.
Definition INT_MAX : Z := 2 ^ 31 - 1.

(** A [char] or [unsigned char] is modelled by its bit pattern, a number in
    [0, 256).  The code only compares two [char]s with each other, tests one
    against zero, or casts it to [unsigned char], so the signedness of plain
    [char] is immaterial. *)
Definition to_char (z : Z) : Z := Z.land z 255.

(** Constants, macros and type widths that the included headers declare
    (config.h, global.h, output.h), taken as parameters. *)
Class Target := {
  intval_bits : Z;               (* width of intval_t, a long *)
  intval_bits_ge : 32 <= intval_bits;
  VER_SHORTER_SETPC_WARNING : Z;
  VER_DISABLED_OBSOLETE_STUFF : Z;
  REPORT_BINBUFSIZE : Z;
  SEGMENT_FLAG_OVERLAY : Z;
  SEGMENT_FLAG_INVISIBLE : Z;
  MEMINIT_USE_DEFAULT : Z;
  FILLVALUE_INITIAL : Z
}.

(** invalid value to signal "not in a segment" *)
Definition NO_SEGMENT_START : Z := -1.

(** ** Data *)

(** structure for linked list of segment data; the links are the positions
    in the list [ring] below *)
Record segment := { seg_start : Z; seg_length : Z }.

(** structure for all output stuff.  The anonymous inner struct [segment]
    gives the fields [segment_start], [segment_max], [segment_flags] and
    [list_head].  [ring] holds the nodes of the doubly-linked ring in [next]
    order, from [list_head.next] round to (and without) [list_head] itself;
    of the head node only [start] and [length] are ever read, as a
    sentinel. *)
Record output := {
  bufsize : Z;
  buffer : list Z;
  write_idx : Z;
  lowest_written : Z;
  highest_written : Z;
  initvalue_set : bool;
  fill_value : Z;
  segment_start : Z;
  segment_max : Z;
  segment_flags : Z;
  list_head : segment;
  ring : list segment;
  xor : Z
}.

Inductive numtype := NUMTYPE_UNDEFINED | NUMTYPE_INT | NUMTYPE_FLOAT.

(** struct number (alu.h); of the union [val] only [intval] is used here *)
Record number := {
  ntype : numtype;
  flags : Z;
  val_intval : Z;
  addr_refs : Z
}.

(** struct vcpu (output.h): the fields this file touches *)
Record vcpu := { pc : number; add_to_pc : Z }.

(** struct to describe a pseudopc context.  The pointer [outer] links the
    contexts into a chain that ends in NULL: a chain is modelled as the list
    of its contexts, innermost first, and NULL as the empty list. *)
Record pseudopc := {
  offset : Z;                (* inner minus outer pc *)
  outer_ntype : numtype      (* type of outer pc (INT/UNDEFINED) *)
}.

(** possible file formats *)
Inductive output_format_t :=
| OUTPUT_FORMAT_UNSPECIFIED
| OUTPUT_FORMAT_APPLE
| OUTPUT_FORMAT_CBM
| OUTPUT_FORMAT_PLAIN
| OUTPUT_FORMAT_HEX.

(** The two functions [Output_byte] can point to. *)
Inductive output_fn := fn_no_output | fn_real_output.

(** struct report (global.h): the fields [report_binary] touches;
    [report_fd] tells whether [report->fd] is non-NULL.  The counters are
    taken to be ints. *)
Record report_t := {
  report_fd : bool;
  bin_used : Z;
  bin_address : Z;
  bin_buf : list Z
}.

(** the configuration and pass data read here; [first_pass] is the value of
    the macro FIRST_PASS *)
Record config_t := {
  segment_warning_is_error : bool;
  wanted_version : Z;
  process_verbosity : Z
}.

Record pass_t := { first_pass : bool; undefined_count : Z }.

(** What [Throw_warning] and [Throw_error] hand to the message sink. *)
Inductive severity := Warning | Error.
Record diagnostic := Diag { diag_severity : severity; diag_text : string }.

(** All globals the file works on ([report], [pass] and [config] belong to
    global.c).  [diagnostics] is the sequence of messages sent to the sink
    so far, oldest first.  [stores] is a history variable: it records,
    oldest first, each assignment [out->buffer[i] = v] the code has
    executed, as the pair [(i, v)]; the memset of [fill_completely] is not
    such an assignment, and no code reads the history. *)
Record state := {
  out : output;
  Output_byte : output_fn;
  CPU_state : vcpu;
  pseudopc_current_context : list pseudopc;
  output_format : output_format_t;
  output_filename : option string;
  report : report_t;
  pass : pass_t;
  config : config_t;
  diagnostics : list diagnostic;
  stores : list (Z * Z)
}.

#[global] Instance severity_eq_dec : EqDecision severity.
Proof. solve_decision. Defined.
#[global] Instance diagnostic_eq_dec : EqDecision diagnostic.
Proof. solve_decision. Defined.
#[global] Instance output_format_eq_dec : EqDecision output_format_t.
Proof. solve_decision. Defined.
#[global] Instance output_fn_eq_dec : EqDecision output_fn.
Proof. solve_decision. Defined.
#[global] Instance numtype_eq_dec : EqDecision numtype.
Proof. solve_decision. Defined.

(** ** Field updates *)

Definition set_seg_start v (g : segment) : segment :=
  {| seg_start := v; seg_length := seg_length g |}.
Definition set_seg_length v (g : segment) : segment :=
  {| seg_start := seg_start g; seg_length := v |}.
Definition set_bufsize v (o : output) : output :=
  {| bufsize := v; buffer := buffer o; write_idx := write_idx o;
     lowest_written := lowest_written o; highest_written := highest_written
     o; initvalue_set := initvalue_set o; fill_value := fill_value o;
     segment_start := segment_start o; segment_max := segment_max o;
     segment_flags := segment_flags o; list_head := list_head o; ring :=
     ring o; xor := xor o |}.
Definition set_buffer v (o : output) : output :=
  {| bufsize := bufsize o; buffer := v; write_idx := write_idx o;
     lowest_written := lowest_written o; highest_written := highest_written
     o; initvalue_set := initvalue_set o; fill_value := fill_value o;
     segment_start := segment_start o; segment_max := segment_max o;
     segment_flags := segment_flags o; list_head := list_head o; ring :=
     ring o; xor := xor o |}.
Definition set_write_idx v (o : output) : output :=
  {| bufsize := bufsize o; buffer := buffer o; write_idx := v;
     lowest_written := lowest_written o; highest_written := highest_written
     o; initvalue_set := initvalue_set o; fill_value := fill_value o;
     segment_start := segment_start o; segment_max := segment_max o;
     segment_flags := segment_flags o; list_head := list_head o; ring :=
     ring o; xor := xor o |}.
Definition set_lowest_written v (o : output) : output :=
  {| bufsize := bufsize o; buffer := buffer o; write_idx := write_idx o;
     lowest_written := v; highest_written := highest_written o;
     initvalue_set := initvalue_set o; fill_value := fill_value o;
     segment_start := segment_start o; segment_max := segment_max o;
     segment_flags := segment_flags o; list_head := list_head o; ring :=
     ring o; xor := xor o |}.
Definition set_highest_written v (o : output) : output :=
  {| bufsize := bufsize o; buffer := buffer o; write_idx := write_idx o;
     lowest_written := lowest_written o; highest_written := v; initvalue_set
     := initvalue_set o; fill_value := fill_value o; segment_start :=
     segment_start o; segment_max := segment_max o; segment_flags :=
     segment_flags o; list_head := list_head o; ring := ring o; xor := xor o
     |}.
Definition set_initvalue_set v (o : output) : output :=
  {| bufsize := bufsize o; buffer := buffer o; write_idx := write_idx o;
     lowest_written := lowest_written o; highest_written := highest_written
     o; initvalue_set := v; fill_value := fill_value o; segment_start :=
     segment_start o; segment_max := segment_max o; segment_flags :=
     segment_flags o; list_head := list_head o; ring := ring o; xor := xor o
     |}.
Definition set_fill_value v (o : output) : output :=
  {| bufsize := bufsize o; buffer := buffer o; write_idx := write_idx o;
     lowest_written := lowest_written o; highest_written := highest_written
     o; initvalue_set := initvalue_set o; fill_value := v; segment_start :=
     segment_start o; segment_max := segment_max o; segment_flags :=
     segment_flags o; list_head := list_head o; ring := ring o; xor := xor o
     |}.
Definition set_segment_start v (o : output) : output :=
  {| bufsize := bufsize o; buffer := buffer o; write_idx := write_idx o;
     lowest_written := lowest_written o; highest_written := highest_written
     o; initvalue_set := initvalue_set o; fill_value := fill_value o;
     segment_start := v; segment_max := segment_max o; segment_flags :=
     segment_flags o; list_head := list_head o; ring := ring o; xor := xor o
     |}.
Definition set_segment_max v (o : output) : output :=
  {| bufsize := bufsize o; buffer := buffer o; write_idx := write_idx o;
     lowest_written := lowest_written o; highest_written := highest_written
     o; initvalue_set := initvalue_set o; fill_value := fill_value o;
     segment_start := segment_start o; segment_max := v; segment_flags :=
     segment_flags o; list_head := list_head o; ring := ring o; xor := xor o
     |}.
Definition set_segment_flags v (o : output) : output :=
  {| bufsize := bufsize o; buffer := buffer o; write_idx := write_idx o;
     lowest_written := lowest_written o; highest_written := highest_written
     o; initvalue_set := initvalue_set o; fill_value := fill_value o;
     segment_start := segment_start o; segment_max := segment_max o;
     segment_flags := v; list_head := list_head o; ring := ring o; xor :=
     xor o |}.
Definition set_list_head v (o : output) : output :=
  {| bufsize := bufsize o; buffer := buffer o; write_idx := write_idx o;
     lowest_written := lowest_written o; highest_written := highest_written
     o; initvalue_set := initvalue_set o; fill_value := fill_value o;
     segment_start := segment_start o; segment_max := segment_max o;
     segment_flags := segment_flags o; list_head := v; ring := ring o; xor
     := xor o |}.
Definition set_ring v (o : output) : output :=
  {| bufsize := bufsize o; buffer := buffer o; write_idx := write_idx o;
     lowest_written := lowest_written o; highest_written := highest_written
     o; initvalue_set := initvalue_set o; fill_value := fill_value o;
     segment_start := segment_start o; segment_max := segment_max o;
     segment_flags := segment_flags o; list_head := list_head o; ring := v;
     xor := xor o |}.
Definition set_xor v (o : output) : output :=
  {| bufsize := bufsize o; buffer := buffer o; write_idx := write_idx o;
     lowest_written := lowest_written o; highest_written := highest_written
     o; initvalue_set := initvalue_set o; fill_value := fill_value o;
     segment_start := segment_start o; segment_max := segment_max o;
     segment_flags := segment_flags o; list_head := list_head o; ring :=
     ring o; xor := v |}.
Definition set_ntype v (n : number) : number :=
  {| ntype := v; flags := flags n; val_intval := val_intval n; addr_refs :=
     addr_refs n |}.
Definition set_val_intval v (n : number) : number :=
  {| ntype := ntype n; flags := flags n; val_intval := v; addr_refs :=
     addr_refs n |}.
Definition set_addr_refs v (n : number) : number :=
  {| ntype := ntype n; flags := flags n; val_intval := val_intval n;
     addr_refs := v |}.
Definition set_pc v (c : vcpu) : vcpu :=
  {| pc := v; add_to_pc := add_to_pc c |}.
Definition set_add_to_pc v (c : vcpu) : vcpu :=
  {| pc := pc c; add_to_pc := v |}.
Definition set_bin_used v (r : report_t) : report_t :=
  {| report_fd := report_fd r; bin_used := v; bin_address := bin_address r;
     bin_buf := bin_buf r |}.
Definition set_bin_address v (r : report_t) : report_t :=
  {| report_fd := report_fd r; bin_used := bin_used r; bin_address := v;
     bin_buf := bin_buf r |}.
Definition set_bin_buf v (r : report_t) : report_t :=
  {| report_fd := report_fd r; bin_used := bin_used r; bin_address :=
     bin_address r; bin_buf := v |}.
Definition set_undefined_count v (p : pass_t) : pass_t :=
  {| first_pass := first_pass p; undefined_count := v |}.
Definition set_out v (s : state) : state :=
  {| out := v; Output_byte := Output_byte s; CPU_state := CPU_state s;
     pseudopc_current_context := pseudopc_current_context s; output_format
     := output_format s; output_filename := output_filename s; report :=
     report s; pass := pass s; config := config s; diagnostics :=
     diagnostics s; stores := stores s |}.
Definition set_Output_byte v (s : state) : state :=
  {| out := out s; Output_byte := v; CPU_state := CPU_state s;
     pseudopc_current_context := pseudopc_current_context s; output_format
     := output_format s; output_filename := output_filename s; report :=
     report s; pass := pass s; config := config s; diagnostics :=
     diagnostics s; stores := stores s |}.
Definition set_CPU_state v (s : state) : state :=
  {| out := out s; Output_byte := Output_byte s; CPU_state := v;
     pseudopc_current_context := pseudopc_current_context s; output_format
     := output_format s; output_filename := output_filename s; report :=
     report s; pass := pass s; config := config s; diagnostics :=
     diagnostics s; stores := stores s |}.
Definition set_pseudopc_current_context v (s : state) : state :=
  {| out := out s; Output_byte := Output_byte s; CPU_state := CPU_state s;
     pseudopc_current_context := v; output_format := output_format s;
     output_filename := output_filename s; report := report s; pass := pass
     s; config := config s; diagnostics := diagnostics s; stores := stores s
     |}.
Definition set_output_format v (s : state) : state :=
  {| out := out s; Output_byte := Output_byte s; CPU_state := CPU_state s;
     pseudopc_current_context := pseudopc_current_context s; output_format
     := v; output_filename := output_filename s; report := report s; pass :=
     pass s; config := config s; diagnostics := diagnostics s; stores :=
     stores s |}.
Definition set_output_filename v (s : state) : state :=
  {| out := out s; Output_byte := Output_byte s; CPU_state := CPU_state s;
     pseudopc_current_context := pseudopc_current_context s; output_format
     := output_format s; output_filename := v; report := report s; pass :=
     pass s; config := config s; diagnostics := diagnostics s; stores :=
     stores s |}.
Definition set_report v (s : state) : state :=
  {| out := out s; Output_byte := Output_byte s; CPU_state := CPU_state s;
     pseudopc_current_context := pseudopc_current_context s; output_format
     := output_format s; output_filename := output_filename s; report := v;
     pass := pass s; config := config s; diagnostics := diagnostics s;
     stores := stores s |}.
Definition set_pass v (s : state) : state :=
  {| out := out s; Output_byte := Output_byte s; CPU_state := CPU_state s;
     pseudopc_current_context := pseudopc_current_context s; output_format
     := output_format s; output_filename := output_filename s; report :=
     report s; pass := v; config := config s; diagnostics := diagnostics s;
     stores := stores s |}.
Definition set_diagnostics v (s : state) : state :=
  {| out := out s; Output_byte := Output_byte s; CPU_state := CPU_state s;
     pseudopc_current_context := pseudopc_current_context s; output_format
     := output_format s; output_filename := output_filename s; report :=
     report s; pass := pass s; config := config s; diagnostics := v; stores
     := stores s |}.
Definition set_stores v (s : state) : state :=
  {| out := out s; Output_byte := Output_byte s; CPU_state := CPU_state s;
     pseudopc_current_context := pseudopc_current_context s; output_format
     := output_format s; output_filename := output_filename s; report :=
     report s; pass := pass s; config := config s; diagnostics :=
     diagnostics s; stores := v |}.

Definition upd_out (f : output -> output) (s : state) : state :=
  set_out (f (out s)) s.
Definition upd_CPU_state (f : vcpu -> vcpu) (s : state) : state :=
  set_CPU_state (f (CPU_state s)) s.
Definition upd_pc (f : number -> number) (s : state) : state :=
  upd_CPU_state (fun c => set_pc (f (pc c)) c) s.
Definition upd_report (f : report_t -> report_t) (s : state) : state :=
  set_report (f (report s)) s.
Definition upd_pass (f : pass_t -> pass_t) (s : state) : state :=
  set_pass (f (pass s)) s.

(** A field update unfolds as soon as it is applied. *)
Arguments set_seg_start _ _ /.
Arguments set_seg_length _ _ /.
Arguments set_bufsize _ _ /.
Arguments set_buffer _ _ /.
Arguments set_write_idx _ _ /.
Arguments set_lowest_written _ _ /.
Arguments set_highest_written _ _ /.
Arguments set_initvalue_set _ _ /.
Arguments set_fill_value _ _ /.
Arguments set_segment_start _ _ /.
Arguments set_segment_max _ _ /.
Arguments set_segment_flags _ _ /.
Arguments set_list_head _ _ /.
Arguments set_ring _ _ /.
Arguments set_xor _ _ /.
Arguments set_ntype _ _ /.
Arguments set_val_intval _ _ /.
Arguments set_addr_refs _ _ /.
Arguments set_pc _ _ /.
Arguments set_add_to_pc _ _ /.
Arguments set_bin_used _ _ /.
Arguments set_bin_address _ _ /.
Arguments set_bin_buf _ _ /.
Arguments set_undefined_count _ _ /.
Arguments set_out _ _ /.
Arguments set_Output_byte _ _ /.
Arguments set_CPU_state _ _ /.
Arguments set_pseudopc_current_context _ _ /.
Arguments set_output_format _ _ /.
Arguments set_output_filename _ _ /.
Arguments set_report _ _ /.
Arguments set_pass _ _ /.
Arguments set_diagnostics _ _ /.
Arguments set_stores _ _ /.
Arguments upd_out _ _ /.
Arguments upd_pc _ _ /.
Arguments upd_CPU_state _ _ /.
Arguments upd_report _ _ /.
Arguments upd_pass _ _ /.

(** ** Computations *)

(** How a run can end before a function returns: [Throw_serious_error]
    and [Bug_found] leave the process, and a loop may never exit. *)
Inductive stop :=
| Fatal (msg : string)
| Bug (msg : string) (code : Z)
| Hang.

Inductive outcome (A : Type) :=
| Done (a : A) (s : state)
| Stop (why : stop) (s : state).
Arguments Done {A} a s.
Arguments Stop {A} why s.

Definition M (A : Type) : Type := state -> outcome A.

#[global] Instance M_ret : MRet M := fun A a s => Done a s.
#[global] Instance M_bind : MBind M := fun A B k m s =>
  match m s with
  | Done a s' => k a s'
  | Stop why s' => Stop why s'
  end.

Definition get : M state := fun s => Done s s.
Definition modify (f : state -> state) : M unit := fun s => Done tt (f s).
Definition stop_with {A : Type} (why : stop) : M A := fun s => Stop why s.
Definition when (b : bool) (m : M unit) : M unit :=
  if b then m else mret tt.

(** The state a computation leaves behind, however it ends. *)
Definition final {A : Type} (r : outcome A) : state :=
  match r with Done _ s => s | Stop _ s => s end.

(** *** The message sink (global.c) *)

(** Modelled from the spec: the functions [Throw_warning], [Throw_error],
    [Throw_serious_error] and [Bug_found] are defined outside this file.
    Warnings and errors are reported through a shared sink and the run
    continues; a serious error is fatal and aborts the run; a found bug
    aborts the process. *)
Definition Throw_warning (msg : string) : M unit :=
  modify (fun s => set_diagnostics (diagnostics s ++ [Diag Warning msg]) s).
Definition Throw_error (msg : string) : M unit :=
  modify (fun s => set_diagnostics (diagnostics s ++ [Diag Error msg]) s).
Definition Throw_serious_error {A : Type} (msg : string) : M A :=
  stop_with (Fatal msg).
Definition Bug_found {A : Type} (msg : string) (code : Z) : M A :=
  stop_with (Bug msg code).

(** Modelled from the spec: the text of the "PC undefined" diagnostic, a
    string constant of global.c. *)
Definition exception_pc_undefined : string := "PC undefined".

(** ** A target and the state at program start *)

(** One target, for running the model on concrete inputs: a host whose
    long has 64 bits, with constants in the style of the headers. *)
Definition lp64 : Target := {|
  intval_bits := 64;
  intval_bits_ge := ltac:(lia);
  VER_SHORTER_SETPC_WARNING := 9400;
  VER_DISABLED_OBSOLETE_STUFF := 9408;
  REPORT_BINBUFSIZE := 9;
  SEGMENT_FLAG_OVERLAY := 1;
  SEGMENT_FLAG_INVISIBLE := 2;
  MEMINIT_USE_DEFAULT := 256;
  FILLVALUE_INITIAL := 0
|}.

(** The globals as the loader leaves them: static storage is zeroed, the
    output format has its initializer.  ([Output_byte] is a null pointer
    then; [Output_passinit] sets it before the first call through it.) *)
Definition startup (cfg : config_t) (p : pass_t) : state := {|
  out := {| bufsize := 0; buffer := []; write_idx := 0;
            lowest_written := 0; highest_written := 0;
            initvalue_set := false; fill_value := 0;
            segment_start := 0; segment_max := 0; segment_flags := 0;
            list_head := {| seg_start := 0; seg_length := 0 |};
            ring := []; xor := 0 |};
  Output_byte := fn_no_output;
  CPU_state := {| pc := {| ntype := NUMTYPE_UNDEFINED; flags := 0;
                           val_intval := 0; addr_refs := 0 |};
                  add_to_pc := 0 |};
  pseudopc_current_context := [];
  output_format := OUTPUT_FORMAT_UNSPECIFIED;
  output_filename := None;
  report := {| report_fd := false; bin_used := 0; bin_address := 0;
               bin_buf := [] |};
  pass := p;
  config := cfg;
  diagnostics := [];
  stores := []
|}.

Definition default_config : config_t :=
  {| segment_warning_is_error := false; wanted_version := 9700;
     process_verbosity := 0 |}.

(** ** The functions of output.c *)

Section output.
Context `{Target}.

(** [intval_t] arithmetic wraps at the width of the target's [long]. *)
Definition intval (z : Z) : Z := wrap intval_bits z.

(** Reading and writing [p[i]].  An index outside the array is undefined
    behaviour in C; the model then reads 0 and stores nothing, and the
    theorems below only rely on accesses inside the array. *)
Definition load (i : Z) (p : list Z) : Z :=
  if 0 <=? i then default 0 (p !! Z.to_nat i) else 0.
Definition store (i v : Z) (p : list Z) : list Z :=
  if 0 <=? i then <[Z.to_nat i := v]> p else p.

(** report binary output *)
Definition report_binary (value : Z) : M unit :=
  s ← get;
  when (bin_used (report s) =? 0)
    (modify (upd_report (set_bin_address (write_idx (out s)))));;
  s ← get;
  when (bin_used (report s) <? REPORT_BINBUFSIZE)
    (modify (upd_report (fun r =>
       set_bin_used (int (bin_used r + 1))
         (set_bin_buf (store (bin_used r) value (bin_buf r)) r)))).

(** Walk the ring from [list_head.next] while [stay] holds of the node
    under [test_segment]; [Some g] is the node the walk stops at, [None]
    says it came round to the list head. *)
Fixpoint ring_walk (stay : segment -> bool) (l : list segment)
  : option segment :=
  match l with
  | [] => None
  | g :: l' => if stay g then ring_walk stay l' else Some g
  end.

(** set up new out->segment.max value according to the given address.
    just find the next segment start and subtract 1.  When the sentinel
    itself does not stop the walk (new_pc + 1 overflowed), the walk goes
    round the unchanged ring for ever. *)
Definition find_segment_max (new_pc : Z) : M unit :=
  modify (upd_out (fun o =>
    set_list_head (set_seg_start (intval (new_pc + 1)) (list_head o)) o));;
  s ← get;
  match ring_walk (fun g => seg_start g <=? new_pc) (ring (out s)) with
  | Some g =>
      modify (upd_out (set_segment_max (intval (seg_start g - 1))))
  | None =>
      if seg_start (list_head (out s)) <=? new_pc then stop_with Hang
      else modify (upd_out (fun o =>
             set_segment_max (intval (bufsize o - 1)) o))
  end.

Definition border_crossed (current_offset : Z) : M unit :=
  s ← get;
  (if current_offset >=? bufsize (out s)
   then Throw_serious_error "Produced too much code."
   else mret tt);;
  when (first_pass (pass s))
    ((if segment_warning_is_error (config s)
      then Throw_error "Segment reached another one, overwriting it."
      else Throw_warning "Segment reached another one, overwriting it.");;
     find_segment_max (int (current_offset + 1))).

(** send low byte to output buffer, automatically increasing program
    counter *)
Definition real_output (byte : Z) : M unit :=
  s ← get;
  when (write_idx (out s) >? segment_max (out s))
    (border_crossed (int (write_idx (out s))));;
  modify (upd_out (fun o =>
    if write_idx o <? lowest_written o
    then set_lowest_written (write_idx o) o else o));;
  modify (upd_out (fun o =>
    if write_idx o >? highest_written o
    then set_highest_written (write_idx o) o else o));;
  s ← get;
  when (report_fd (report s)) (report_binary (to_char (Z.land byte 255)));;
  modify (fun s =>
    let o := out s in
    let v := to_char (Z.lxor (Z.land byte 255) (xor o)) in
    set_stores (stores s ++ [(write_idx o, v)])
      (set_out (set_write_idx (intval (write_idx o + 1))
                  (set_buffer (store (write_idx o) v (buffer o)) o)) s));;
  modify (upd_CPU_state (fun c => set_add_to_pc (int (add_to_pc c + 1)) c)).

(** throw error (pc undefined) and use fake pc from now on.  The call
    through [Output_byte] at the end reaches [real_output], to which the
    pointer has just been set. *)
Definition no_output (byte : Z) : M unit :=
  Throw_error exception_pc_undefined;;
  modify (set_Output_byte fn_real_output);;
  real_output byte.

(** The call [Output_byte(byte)] through the function pointer. *)
Definition Output_byte_call (byte : Z) : M unit :=
  s ← get;
  match Output_byte s with
  | fn_no_output => no_output byte
  | fn_real_output => real_output byte
  end.

(** skip over some bytes in output buffer without starting a new segment *)
Definition output_skip (size : Z) : M unit :=
  if size <? 1 then mret tt else
  s ← get;
  size ← (if decide (Output_byte s = fn_no_output)
          then Output_byte_call 0;; mret (int (size - 1))
          else mret size);
  s ← get;
  when (intval (intval (write_idx (out s) + size) - 1) >? segment_max (out s))
    (border_crossed (int (intval (intval (write_idx (out s) + size) - 1))));;
  modify (upd_out (fun o =>
    if write_idx o <? lowest_written o
    then set_lowest_written (write_idx o) o else o));;
  modify (upd_out (fun o =>
    if intval (intval (write_idx o + size) - 1) >? highest_written o
    then set_highest_written (intval (intval (write_idx o + size) - 1)) o
    else o));;
  modify (upd_out (fun o => set_write_idx (intval (write_idx o + size)) o));;
  modify (upd_CPU_state (fun c => set_add_to_pc (int (add_to_pc c + size)) c)).

(** fill output buffer with given byte value *)
Definition fill_completely (value : Z) : M unit :=
  modify (upd_out (fun o =>
    set_fill_value value
      (set_buffer (replicate (Z.to_nat (bufsize o)) value) o))).

(** define default value for empty memory ("!initmem" pseudo opcode)
    returns zero if ok, nonzero if already set *)
Definition output_initmem (content : Z) : M Z :=
  s ← get;
  if initvalue_set (out s) then
    Throw_warning "Memory already initialised.";;
    mret 1
  else
    modify (upd_out (set_initvalue_set true));;
    fill_completely content;;
    modify (upd_pass (fun p =>
      if undefined_count p =? 0 then set_undefined_count 1 p else p));;
    mret 0.

(** *** Output file format *)

(** tree to hold output formats *)
Definition file_format_tree : list (string * output_format_t) :=
  [ ("apple", OUTPUT_FORMAT_APPLE);
    ("cbm", OUTPUT_FORMAT_CBM);
    ("plain", OUTPUT_FORMAT_PLAIN);
    ("hex", OUTPUT_FORMAT_HEX) ].

(** Modelled from the spec: [Tree_easy_scan] (tree.c) looks a name up in a
    tree of predefined nodes; the format selector accepts exactly the
    case-sensitive names of the tree and rejects every other name. *)
Fixpoint Tree_easy_scan {A : Type} (tree : list (string * A)) (name : string)
  : option A :=
  match tree with
  | [] => None
  | (k, body) :: tree' =>
      if String.eqb k name then Some body else Tree_easy_scan tree' name
  end.

(** try to set output format held in DynaBuf. Returns zero on success.
    The contents of GlobalDynaBuf are the argument. *)
Definition outputfile_set_format (GlobalDynaBuf : string) : M Z :=
  match Tree_easy_scan file_format_tree GlobalDynaBuf with
  | None => mret 1
  | Some node_body =>
      modify (set_output_format node_body);;
      mret 0
  end.

(** if file format was already chosen, returns zero.
    if file format isn't set, chooses CBM and returns 1. *)
Definition outputfile_prefer_cbm_format : M Z :=
  s ← get;
  if decide (output_format s ≠ OUTPUT_FORMAT_UNSPECIFIED) then mret 0
  else
    modify (set_output_format OUTPUT_FORMAT_CBM);;
    mret 1.

(** select output file ("!to" pseudo opcode)
    returns zero on success, nonzero if already set *)
Definition outputfile_set_filename (GlobalDynaBuf : string) : M Z :=
  s ← get;
  match output_filename s with
  | Some _ =>
      Throw_warning "Output file already chosen.";;
      mret 1
  | None =>
      modify (set_output_filename (Some GlobalDynaBuf));;
      mret 0
  end.

(** init output struct (done later) *)
Definition Output_init (fill_value : Z) (use_large_buf : bool) : M unit :=
  modify (upd_out (set_bufsize (if use_large_buf then 0x1000000 else 0x10000)));;
  fill_value ← (if fill_value =? MEMINIT_USE_DEFAULT
                then modify (upd_out (set_initvalue_set false));;
                     mret FILLVALUE_INITIAL
                else modify (upd_out (set_initvalue_set true));;
                     mret fill_value);
  fill_completely (to_char (Z.land fill_value 255));;
  modify (upd_out (set_ring [])).

(** *** Intel HEX *)

Definition hex_digit (d : Z) : ascii :=
  default "0"%char (String.get (Z.to_nat d) "0123456789abcdef").

(** the [n] lowest hexadecimal digits of [u], most significant first *)
Fixpoint hex_low (n : nat) (u : Z) : string :=
  match n with
  | O => ""
  | S n' => hex_low n' (u / 16) +:+ String (hex_digit (u mod 16)) ""
  end.

Definition hex_len (u : Z) : nat :=
  if u =? 0 then 1%nat else Z.to_nat (Z.log2 u / 4 + 1).

(** What [fprintf] writes for the conversion [%0Nx], N being [width]: the
    argument as an unsigned int in lower-case hexadecimal, padded with
    zeros to at least [width] digits. *)
Definition fmt_x (width : nat) (v : Z) : string :=
  let u := v mod 2 ^ 32 in
  hex_low (Nat.max width (hex_len u)) u.

Definition newline : string := String "010"%char "".

(** The loop of [outputHexChunk] over [n] more bytes from index [i] on;
    the accumulator is the checksum and the text written so far. *)
Fixpoint outputHexChunk_loop (n : nat) (o : output) (start i : Z)
    (acc : Z * string) : Z * string :=
  match n with
  | O => acc
  | S n' =>
      let c := to_char (load (int (start + i)) (buffer o)) in
      outputHexChunk_loop n' o start (int (i + 1))
        (int (acc.1 + c), acc.2 +:+ fmt_x 2 c)
  end.

(** The checksum [outputHexChunk] has computed when it prints it. *)
Definition outputHexChunk_checksum (start size : Z) (o : output) : Z :=
  let addr := start in
  let checksum :=
    int (int (size + to_char (Z.shiftr (Z.land addr 0xff00) 8))
         + to_char (Z.land addr 0xff)) in
  let checksum :=
    (outputHexChunk_loop (Z.to_nat size) o start 0 (checksum, "")).1 in
  int (int (Z.lnot checksum) + 1).

(** output a single line in Intel HEX format: the text written to [fd].
    [size] is an unsigned char. *)
Definition outputHexChunk (start size : Z) (o : output) : string :=
  let addr := start in
  let text := ":" +:+ fmt_x 2 size +:+ fmt_x 4 addr +:+ "00" in
  let checksum :=
    int (int (size + to_char (Z.shiftr (Z.land addr 0xff00) 8))
         + to_char (Z.land addr 0xff)) in
  let '(checksum, text) :=
    outputHexChunk_loop (Z.to_nat size) o start 0 (checksum, text) in
  let checksum := int (int (Z.lnot checksum) + 1) in
  text +:+ fmt_x 2 (Z.land checksum 0xff) +:+ newline.

(** max # of empty (fill) character before we start a new chunk *)
Definition maxEmpty : Z := 32.
(** maximum bytes per line *)
Definition maxChunkSize : Z := 64.

(** The [for] loop of [outputHex] with [n] iterations to go.  [calls]
    lists the arguments (start, size) of the calls of [outputHexChunk] so
    far; the result is [i], [chunkStart] and the calls at the loop's exit. *)
Fixpoint outputHex_loop (n : nat) (o : output) (i chunkStart emptyCount : Z)
    (calls : list (Z * Z)) : Z * Z * list (Z * Z) :=
  match n with
  | O => (i, chunkStart, calls)
  | S n' =>
      let c := load i (buffer o) in
      if negb (fill_value o =? 0) && (c =? fill_value o) then
        outputHex_loop n' o (int (i + 1)) chunkStart (int (emptyCount + 1))
          calls
      else
        let chunkSize := int (i - chunkStart) in
        let '(chunkSize, emptyCount) :=
          if emptyCount >? maxEmpty
          then (int (chunkSize - emptyCount), emptyCount)
          else (chunkSize, 0) in
        let '(chunkStart, calls) :=
          if negb (emptyCount =? 0) || (chunkSize >=? maxChunkSize) then
            let bytesToWrite :=
              if chunkSize >? maxChunkSize then maxChunkSize else chunkSize in
            (int (i - int (chunkSize - bytesToWrite)),
             calls ++ [(chunkStart, to_char bytesToWrite)])
          else (chunkStart, calls) in
        outputHex_loop n' o (int (i + 1)) chunkStart 0 calls
  end.

(** The calls of [outputHexChunk] that [outputHex] makes, in order.  The
    loop leaves after [amount - i] iterations; when [amount] is beyond the
    range of the int [i], the test [i < amount] never fails and there is
    no result. *)
Definition outputHex_calls (start amount : Z) (o : output)
  : option (list (Z * Z)) :=
  if amount >? INT_MAX then None else
  let '(i, chunkStart, calls) :=
    outputHex_loop (Z.to_nat (amount - int start)) o (int start) (int start)
      0 [] in
  let chunkSize := to_char (int (i - chunkStart)) in
  Some (if chunkSize =? 0 then calls else calls ++ [(chunkStart, chunkSize)]).

(** output to Intel HEX: the text written to [fd] *)
Definition outputHex (start amount : Z) (o : output) : option string :=
  calls ← outputHex_calls start amount o;
  Some (foldr (fun c text => outputHexChunk c.1 c.2 o +:+ text)
          ":00000001ff" calls).

(** *** The output file *)

(** The bytes of a text, as [fprintf] writes them to a file. *)
Definition text_bytes (text : string) : list Z :=
  (fun c => Z.of_N (N_of_ascii c)) <$> String.list_ascii_of_string text.

(** What [putc] writes: its int argument converted to an unsigned char. *)
Definition putc (c : Z) : Z := to_char (int c).

(** The values of [start] and [amount] in [Output_save_file]. *)
Definition save_range (o : output) : Z * Z :=
  if highest_written o <? lowest_written o then (0, 0)
  else
    let start := lowest_written o in
    (start, intval (intval (highest_written o - start) + 1)).

(** dump used portion of output buffer into output file: the bytes written
    to [fd], in order; [None] when [outputHex] does not return.  What is
    printed at high verbosity goes to stdout, and the macros
    PLATFORM_SETFILETYPE_* of platform.h act on the file system: both are
    left out.  [fwrite] writes [amount] bytes from [out->buffer + start];
    the model writes nothing for an [amount] that is not positive. *)
Definition Output_save_file (s : state) : option (list Z) :=
  let o := out s in
  let '(start, amount) := save_range o in
  let fwrite := (fun i => to_char (load i (buffer o))) <$> seqZ start amount in
  match output_format s with
  | OUTPUT_FORMAT_APPLE =>
      Some ([ putc (Z.land start 255); putc (Z.shiftr start 8);
              putc (Z.land amount 255); putc (Z.shiftr amount 8) ] ++ fwrite)
  | OUTPUT_FORMAT_UNSPECIFIED | OUTPUT_FORMAT_PLAIN => Some fwrite
  | OUTPUT_FORMAT_CBM =>
      Some ([ putc (Z.land start 255); putc (Z.shiftr start 8) ] ++ fwrite)
  | OUTPUT_FORMAT_HEX =>
      text_bytes <$> outputHex start (intval (start + amount)) o
  end.

(** *** Segments *)

(** Put [new_segment] in front of the first node at which the walk of
    [ring_walk] stops, or in front of the list head (at the end of the
    list) when it stops at none. *)
Fixpoint ring_insert (stay : segment -> bool) (new_segment : segment)
    (l : list segment) : list segment :=
  match l with
  | [] => [new_segment]
  | g :: l' =>
      if stay g then g :: ring_insert stay new_segment l'
      else new_segment :: g :: l'
  end.

(** link segment data into segment ring *)
Definition link_segment (start length : Z) : M unit :=
  let new_segment := {| seg_start := start; seg_length := length |} in
  modify (upd_out (set_list_head
    {| seg_start := start; seg_length := intval (length + 1) |}));;
  s ← get;
  let stay g :=
    (seg_start g <? seg_start new_segment)
    || ((seg_start g =? seg_start new_segment)
        && (seg_length g <? seg_length new_segment)) in
  match ring_walk stay (ring (out s)) with
  | None =>
      if stay (list_head (out s)) then stop_with Hang
      else modify (upd_out (fun o =>
             set_ring (ring_insert stay new_segment (ring o)) o))
  | Some _ =>
      modify (upd_out (fun o =>
        set_ring (ring_insert stay new_segment (ring o)) o))
  end.

(** How the search of [check_segment] through the ring ends. *)
Inductive scan := Overlap | Clear | CameRound.

Fixpoint check_segment_walk (new_pc : Z) (l : list segment) : scan :=
  match l with
  | [] => CameRound
  | g :: l' =>
      if seg_start g <=? new_pc then
        if intval (seg_start g + seg_length g) >? new_pc then Overlap
        else check_segment_walk new_pc l'
      else Clear
  end.

(** check whether given PC is inside segment. *)
Definition check_segment (new_pc : Z) : M unit :=
  modify (upd_out (set_list_head
    {| seg_start := intval (new_pc + 1); seg_length := 1 |}));;
  s ← get;
  let complain :=
    if segment_warning_is_error (config s)
    then Throw_error "Segment starts inside another one, overwriting it."
    else Throw_warning "Segment starts inside another one, overwriting it." in
  match check_segment_walk new_pc (ring (out s)) with
  | Overlap => complain
  | Clear => mret tt
  | CameRound =>
      match check_segment_walk new_pc [list_head (out s)] with
      | Overlap => complain
      | Clear => mret tt
      | CameRound => stop_with Hang
      end
  end.

(** clear segment list and disable output *)
Definition Output_passinit : M unit :=
  modify (upd_out (fun o => set_lowest_written (intval (bufsize o - 1)) o));;
  modify (upd_out (set_highest_written 0));;
  modify (set_Output_byte fn_no_output);;
  modify (upd_out (set_write_idx 0));;
  modify (upd_out (set_segment_start NO_SEGMENT_START));;
  modify (upd_out (fun o => set_segment_max (intval (bufsize o - 1)) o));;
  modify (upd_out (set_segment_flags 0));;
  modify (upd_out (set_xor 0));;
  modify (upd_pc (set_ntype NUMTYPE_UNDEFINED));;
  modify (upd_pc (fun n => {| ntype := ntype n; flags := 0;
                              val_intval := val_intval n;
                              addr_refs := addr_refs n |}));;
  modify (upd_pc (set_val_intval 0));;
  modify (upd_CPU_state (set_add_to_pc 0));;
  modify (set_pseudopc_current_context []).

(** show start and end of current segment
    called whenever a new segment begins, and at end of pass.
    (What it prints at high verbosity goes to stdout and is left out.) *)
Definition Output_end_segment : M unit :=
  s ← get;
  if negb (first_pass (pass s)) then mret tt
  else if segment_start (out s) =? NO_SEGMENT_START then mret tt
  else if negb (Z.land (segment_flags (out s)) SEGMENT_FLAG_INVISIBLE =? 0)
       then mret tt
  else
    let amount := intval (write_idx (out s) - segment_start (out s)) in
    if amount =? 0 then mret tt
    else link_segment (segment_start (out s)) amount.

(** change output pointer and enable output *)
Definition Output_start_segment (address_change segment_flags : Z) : M unit :=
  Output_end_segment;;
  modify (upd_out (fun o =>
    set_write_idx (Z.land (intval (write_idx o + address_change))
                          (intval (bufsize o - 1))) o));;
  modify (upd_out (fun o => set_segment_start (write_idx o) o));;
  modify (upd_out (set_segment_flags segment_flags));;
  modify (set_Output_byte fn_real_output);;
  s ← get;
  when (first_pass (pass s))
    (when (Z.land segment_flags SEGMENT_FLAG_OVERLAY =? 0)
       (check_segment (segment_start (out s)));;
     find_segment_max (segment_start (out s))).

Definition output_get_xor : M Z :=
  s ← get; mret (xor (out s)).
Definition output_set_xor (xor : Z) : M unit :=
  modify (upd_out (set_xor xor)).

(** *** Program counter and offset assembly *)

(** end offset assembly *)
Definition pseudopc_end : M unit :=
  s ← get;
  match pseudopc_current_context s with
  | [] =>
      if wanted_version (config s) >=? VER_DISABLED_OBSOLETE_STUFF
      then Bug_found "ClosingUnopenedPseudopcBlock" 0
      else mret tt
  | context :: outer =>
      modify (upd_pc (fun n =>
        set_val_intval
          (Z.land (intval (val_intval n - offset context))
                  (intval (bufsize (out s) - 1))) n));;
      modify (upd_pc (set_ntype (outer_ntype context)));;
      modify (set_pseudopc_current_context outer)
  end.

(** The loop of [pseudopc_end_all].  Every turn takes one context off the
    chain, so [n] turns, [n] the length of the chain, empty it; the
    recursion is on that bound. *)
Fixpoint pseudopc_end_all_loop (n : nat) : M unit :=
  s ← get;
  match pseudopc_current_context s, n with
  | [], _ => mret tt
  | _ :: _, O => stop_with Hang
  | _ :: _, S n' => pseudopc_end;; pseudopc_end_all_loop n'
  end.

(** this is only for old, deprecated, obsolete, stupid "realpc": *)
Definition pseudopc_end_all : M unit :=
  s ← get;
  pseudopc_end_all_loop (length (pseudopc_current_context s)).

(** set program counter to defined value *)
Definition vcpu_set_pc (new_pc segment_flags : Z) : M unit :=
  s ← get;
  (match pseudopc_current_context s with
   | [] => mret tt
   | _ :: _ =>
       if wanted_version (config s) <? VER_SHORTER_SETPC_WARNING then
         Throw_warning
           "Offset assembly still active at end of segment. Switched it off.";;
         pseudopc_end_all
       else if wanted_version (config s) <? VER_DISABLED_OBSOLETE_STUFF then
         Throw_warning "Offset assembly still active at end of segment.";;
         pseudopc_end_all
       else mret tt
   end);;
  s ← get;
  let pc_change := intval (new_pc - val_intval (pc (CPU_state s))) in
  modify (upd_pc (set_val_intval new_pc));;
  modify (upd_pc (set_ntype NUMTYPE_INT));;
  modify (upd_pc (set_addr_refs 1));;
  Output_start_segment pc_change segment_flags.

(** get program counter *)
Definition vcpu_read_pc : M number :=
  s ← get; mret (pc (CPU_state s)).

(** get size of current statement (until now) *)
Definition vcpu_get_statement_size : M Z :=
  s ← get; mret (add_to_pc (CPU_state s)).

(** adjust program counter (called at end of each statement) *)
Definition vcpu_end_statement : M unit :=
  s ← get;
  modify (upd_pc (fun n =>
    set_val_intval
      (Z.land (intval (val_intval n + add_to_pc (CPU_state s)))
              (intval (bufsize (out s) - 1))) n));;
  modify (upd_CPU_state (set_add_to_pc 0)).

(** start offset assembly *)
Definition pseudopc_start (new_pc : number) : M unit :=
  s ← get;
  let new_context :=
    {| outer_ntype := ntype (pc (CPU_state s));
       offset := intval (val_intval new_pc - val_intval (pc (CPU_state s))) |} in
  modify (set_pseudopc_current_context
            (new_context :: pseudopc_current_context s));;
  modify (upd_pc (set_val_intval (val_intval new_pc)));;
  modify (upd_pc (set_ntype NUMTYPE_INT)).

(** un-pseudopc a label value by given number of levels
    returns nonzero on error (if level too high); the second component is
    [*target] at the return *)
Fixpoint pseudopc_unpseudo (target : number) (context : list pseudopc)
    (levels : nat) : M (Z * number) :=
  match levels with
  | O => mret (0, target)
  | S levels' =>
      match context with
      | [] =>
          Throw_error "Un-pseudopc operator '&' has no !pseudopc context.";;
          mret (1, target)
      | c :: outer =>
          s ← get;
          pseudopc_unpseudo
            (set_val_intval
               (Z.land (intval (val_intval target - offset c))
                       (intval (bufsize (out s) - 1))) target)
            outer levels'
      end
  end.

(** return pointer to current "pseudopc" struct (may be NULL!) *)
Definition pseudopc_get_context : M (list pseudopc) :=
  s ← get; mret (pseudopc_current_context s).

(** *** Sequences of calls *)

(** one [Output_byte] call for each byte of the list, in order *)
Fixpoint Output_bytes (bytes : list Z) : M unit :=
  match bytes with
  | [] => mret tt
  | byte :: rest => Output_byte_call byte;; Output_bytes rest
  end.

(** one [pseudopc_start] for each new pc of the list, in order *)
Fixpoint pseudopc_starts (new_pcs : list number) : M unit :=
  match new_pcs with
  | [] => mret tt
  | new_pc :: rest => pseudopc_start new_pc;; pseudopc_starts rest
  end.

(** [n] calls of [pseudopc_end] *)
Fixpoint pseudopc_ends (n : nat) : M unit :=
  match n with
  | O => mret tt
  | S n' => pseudopc_end;; pseudopc_ends n'
  end.

(** A call of one of the functions that move the write index or the
    program counter. *)
Inductive call :=
| call_Output_byte (byte : Z)
| call_output_skip (size : Z)
| call_vcpu_end_statement
| call_vcpu_set_pc (new_pc segment_flags : Z)
| call_pseudopc_start (new_pc : number)
| call_pseudopc_end
| call_pseudopc_end_all.

Definition run_call (c : call) : M unit :=
  match c with
  | call_Output_byte byte => Output_byte_call byte
  | call_output_skip size => output_skip size
  | call_vcpu_end_statement => vcpu_end_statement
  | call_vcpu_set_pc new_pc segment_flags => vcpu_set_pc new_pc segment_flags
  | call_pseudopc_start new_pc => pseudopc_start new_pc
  | call_pseudopc_end => pseudopc_end
  | call_pseudopc_end_all => pseudopc_end_all
  end.

(** the calls of the list, in order *)
Fixpoint run_calls (calls : list call) : M unit :=
  match calls with
  | [] => mret tt
  | c :: rest => run_call c;; run_calls rest
  end.

(** ** Vocabulary of the properties *)

(** The number of "PC undefined" errors among the messages [l]. *)
Definition pc_undefined_count (l : list diagnostic) : nat :=
  length (filter (λ d, d = Diag Error exception_pc_undefined) l).

Definition preserves {A : Type} (Q : relation state) (m : M A) : Prop :=
  ∀ s, Q s (final (m s)).

Definition same_writer_and_count (s s' : state) : Prop :=
  Output_byte s' = Output_byte s
  ∧ pc_undefined_count (diagnostics s') = pc_undefined_count (diagnostics s).

(** The bound [find_segment_max] computes. *)
Definition next_max (new_pc : Z) (o : output) : Z :=
  match ring_walk (λ g, seg_start g <=? new_pc) (ring o) with
  | Some g => intval (seg_start g - 1)
  | None => intval (bufsize o - 1)
  end.

Definition sentinel (v : Z) (o : output) : output :=
  set_list_head (set_seg_start v (list_head o)) o.

(** The message of [border_crossed] in the first pass. *)
Definition reached (s : state) : diagnostic :=
  Diag (if segment_warning_is_error (config s) then Error else Warning)
       "Segment reached another one, overwriting it.".

(** What one [real_output] changes, whatever the path: the buffer and its
    bookkeeping. *)
Record written (byte : Z) (s s1 : state) : Prop := {
  w_idx : write_idx (out s1) = intval (write_idx (out s) + 1);
  w_buffer :
    buffer (out s1)
    = store (write_idx (out s))
        (to_char (Z.lxor (Z.land byte 255) (xor (out s)))) (buffer (out s));
  w_stores :
    stores s1
    = stores s ++ [(write_idx (out s),
                    to_char (Z.lxor (Z.land byte 255) (xor (out s))))];
  w_lowest :
    lowest_written (out s1)
    = Z.min (lowest_written (out s)) (write_idx (out s));
  w_highest :
    highest_written (out s1)
    = Z.max (highest_written (out s)) (write_idx (out s));
  w_bufsize : bufsize (out s1) = bufsize (out s);
  w_ring : ring (out s1) = ring (out s);
  w_xor : xor (out s1) = xor (out s);
  w_fill : fill_value (out s1) = fill_value (out s);
  w_pass : pass s1 = pass s;
  w_config : config s1 = config s;
  w_pc : pc (CPU_state s1) = pc (CPU_state s);
  w_context : pseudopc_current_context s1 = pseudopc_current_context s
}.

(** [real_output] from the watermarks on, after the test of the border. *)
Definition real_output_rest (byte : Z) : M unit :=
  modify (upd_out (fun o =>
    if write_idx o <? lowest_written o
    then set_lowest_written (write_idx o) o else o));;
  modify (upd_out (fun o =>
    if write_idx o >? highest_written o
    then set_highest_written (write_idx o) o else o));;
  s ← get;
  when (report_fd (report s)) (report_binary (to_char (Z.land byte 255)));;
  modify (fun s =>
    let o := out s in
    let v := to_char (Z.lxor (Z.land byte 255) (xor o)) in
    set_stores (stores s ++ [(write_idx o, v)])
      (set_out (set_write_idx (intval (write_idx o + 1))
                  (set_buffer (store (write_idx o) v (buffer o)) o)) s));;
  modify (upd_CPU_state (fun c => set_add_to_pc (int (add_to_pc c + 1)) c)).

(** [no_output] is the report followed by the enabled write. *)
Definition complained (s : state) : state :=
  set_Output_byte fn_real_output
    (set_diagnostics (diagnostics s ++ [Diag Error exception_pc_undefined]) s).

(** The values of [intval_t]. *)
Definition intval_range (z : Z) : Prop :=
  - 2 ^ (intval_bits - 1) <= z < 2 ^ (intval_bits - 1).

(** The order of the ring: by start, then by length. *)
Definition segment_le (g1 g2 : segment) : Prop :=
  seg_start g1 < seg_start g2
  ∨ (seg_start g1 = seg_start g2 ∧ seg_length g1 <= seg_length g2).

Definition ring_sorted (l : list segment) : Prop :=
  StronglySorted segment_le l.

(** The data bytes of the record for [size] bytes from [start] on, and
    their sum. *)
Definition chunk_data (start size : Z) (o : output) : list Z :=
  (λ i, to_char (load i (buffer o))) <$> seqZ start size.

Definition Z_sum (l : list Z) : Z := foldr Z.add 0 l.

(** The text of data bytes, two digits each. *)
Definition hex_text (l : list Z) : string :=
  foldr (λ b text, fmt_x 2 b +:+ text) "" l.

(** The buffer indices of the records that [calls] stand for. *)
Definition covered (calls : list (Z * Z)) : list Z :=
  calls ≫= λ c, seqZ c.1 c.2.

(** The data record of Intel HEX for the [size] bytes of the buffer from
    [start] on: a colon, the byte count, the address, the record type 00,
    the bytes, and the checksum byte that makes the bytes of the record add
    up to 0 modulo 256; all in two-digit lower-case hexadecimal, the
    address in four digits. *)
Definition hex_record (start size : Z) (o : output) : string :=
  let data := chunk_data start size o in
  let sum :=
    size + Z.shiftr (Z.land start 0xff00) 8 + Z.land start 0xff + Z_sum data in
  ":" +:+ fmt_x 2 size +:+ fmt_x 4 start +:+ "00" +:+ hex_text data
  +:+ fmt_x 2 ((- sum) mod 256) +:+ newline.

(** The text of an Intel HEX file: a data record for each of the chunks
    (start, size) of [chunks], then the end-of-file record. *)
Definition hex_file (chunks : list (Z * Z)) (o : output) : string :=
  foldr (λ c text, hex_record c.1 c.2 o +:+ text) ":00000001ff" chunks.

(** The test of the loop of [link_segment]. *)
Definition before (new_segment g : segment) : bool :=
  (seg_start g <? seg_start new_segment)
  || ((seg_start g =? seg_start new_segment)
      && (seg_length g <? seg_length new_segment)).

(** The address [new_pc] lies in the segment [g]. *)
Definition inside (new_pc : Z) (g : segment) : Prop :=
  seg_start g <= new_pc < seg_start g + seg_length g.

(** The message of [check_segment]. *)
Definition starts_inside (s : state) : diagnostic :=
  Diag (if segment_warning_is_error (config s) then Error else Warning)
       "Segment starts inside another one, overwriting it.".

(** The segment that [Output_end_segment] has to record. *)
Definition current_segment (o : output) : segment :=
  {| seg_start := segment_start o;
     seg_length := write_idx o - segment_start o |}.

(** The bounds the buffer bookkeeping stays in: a buffer of [2 ^ k] bytes,
    the write index in it or at its end, the start of the segment in it or
    [NO_SEGMENT_START]. *)
Definition bounded (k : Z) (o : output) : Prop :=
  0 <= k <= 30 ∧ bufsize o = 2 ^ k
  ∧ 0 <= write_idx o <= bufsize o
  ∧ NO_SEGMENT_START <= segment_start o <= bufsize o.

(** Where the segments of a ring end is a value of [intval_t]. *)
Definition ends_in_range (l : list segment) : Prop :=
  Forall (λ g, intval_range (seg_start g + seg_length g)) l.

(** The sum of the offsets of a chain of contexts: the pseudo pc less the
    real one. *)
Definition offsets (context : list pseudopc) : Z :=
  Z_sum (offset <$> context).

(** The text of the warning of [vcpu_set_pc] for the wanted version. *)
Definition still_active (cfg : config_t) : diagnostic :=
  Diag Warning
    (if wanted_version cfg <? VER_SHORTER_SETPC_WARNING
     then "Offset assembly still active at end of segment. Switched it off."
     else "Offset assembly still active at end of segment.").

(** The program counter as [vcpu_set_pc] sets it. *)
Definition defined_pc (new_pc : Z) (n : number) : number :=
  set_addr_refs 1 (set_ntype NUMTYPE_INT (set_val_intval new_pc n)).

(** How far the write index is ahead of the real program counter, modulo
    the size [2 ^ k] of the buffer.  The real program counter is the one
    of the start of the statement, plus the size of the statement so far,
    less the offsets of the contexts that are open. *)
Definition lead (k : Z) (s : state) : Z :=
  (write_idx (out s)
   - (val_intval (pc (CPU_state s)) + add_to_pc (CPU_state s)
      - offsets (pseudopc_current_context s))) mod 2 ^ k.

(** What the bookkeeping of the segments leaves alone. *)
Definition same_position (s s' : state) : Prop :=
  write_idx (out s') = write_idx (out s)
  ∧ bufsize (out s') = bufsize (out s)
  ∧ CPU_state s' = CPU_state s
  ∧ pseudopc_current_context s' = pseudopc_current_context s.

(** [output_skip] from the test of the border on, for the size that is
    left after the dummy byte. *)
Definition output_skip_rest (size : Z) : M unit :=
  s ← get;
  when (intval (intval (write_idx (out s) + size) - 1) >? segment_max (out s))
    (border_crossed (int (intval (intval (write_idx (out s) + size) - 1))));;
  modify (upd_out (fun o =>
    if write_idx o <? lowest_written o
    then set_lowest_written (write_idx o) o else o));;
  modify (upd_out (fun o =>
    if intval (intval (write_idx o + size) - 1) >? highest_written o
    then set_highest_written (intval (intval (write_idx o + size) - 1)) o
    else o));;
  modify (upd_out (fun o => set_write_idx (intval (write_idx o + size)) o));;
  modify (upd_CPU_state (fun c => set_add_to_pc (int (add_to_pc c + size)) c)).

(** The message of [pseudopc_unpseudo]. *)
Definition no_context : diagnostic :=
  Diag Error "Un-pseudopc operator '&' has no !pseudopc context.".

(** The byte that a write of [byte] stores under the xor mask [x]. *)
Definition encoded (x byte : Z) : Z := to_char (Z.lxor (Z.land byte 255) x).

(** Whether a run has returned. *)
Definition returned {A : Type} (r : outcome A) : bool :=
  match r with Done _ _ => true | Stop _ _ => false end.

(** What the writes leave alone: the format of the output file. *)
Definition same_format (s s' : state) : Prop :=
  output_format s' = output_format s.

(** What [report_binary] makes of the report, for the value [v] and the
    write index [w]. *)
Definition recorded (v w : Z) (r : report_t) : report_t :=
  let r := if bin_used r =? 0 then set_bin_address w r else r in
  if bin_used r <? REPORT_BINBUFSIZE
  then set_bin_used (int (bin_used r + 1))
         (set_bin_buf (store (bin_used r) v (bin_buf r)) r)
  else r.

(** What the test of the border leaves alone: the report and the write
    index. *)
Definition same_report (s s' : state) : Prop :=
  report s' = report s ∧ write_idx (out s') = write_idx (out s).

End output.

(** ** Concrete inputs *)

Section inputs.
#[local] Existing Instance lp64.

(** The first pass, nothing undefined yet. *)
Definition pass_one : pass_t := {| first_pass := true; undefined_count := 0 |}.

(** A configuration that asks for the behaviour of a version from before
    [VER_DISABLED_OBSOLETE_STUFF]. *)
Definition legacy_config : config_t :=
  {| segment_warning_is_error := false; wanted_version := 9300;
     process_verbosity := 0 |}.

(** The 64 KiB buffer with the default fill value, as [Output_init] sets
    it up at program start. *)
Definition booted : state :=
  final (Output_init 256 false (startup default_config pass_one)).

(** ... and after [Output_passinit]. *)
Definition pass_begun : state :=
  final (Output_passinit booted).

(** The first pass after two statements of code, 16 bytes at 0x2000 and 5
    bytes at 0x3000, when both segments are linked into the ring. *)
Definition two_segments : state :=
  final ((Output_passinit;;
          vcpu_set_pc 0x2000 0;;
          Output_bytes (replicate 16 0xea);;
          vcpu_end_statement;;
          vcpu_set_pc 0x3000 0;;
          Output_bytes (replicate 5 0xea);;
          vcpu_end_statement;;
          Output_end_segment) booted).

(** A buffer that starts with the bytes 0x01, 0x02. *)
Definition two_bytes : output :=
  set_buffer [1; 2; 0; 0] (out booted).

(** A byte 0x01, forty bytes of the value [fill], a byte 0x02, in a buffer
    whose fill value is [fill]. *)
Definition gap (fill : Z) : output :=
  set_fill_value fill
    (set_buffer ([1] ++ replicate 40 fill ++ [2])
       (out (startup default_config pass_one))).

(** The numbers 0x9000 and 0x0400 as new program counters. *)
Definition pc_9000 : number :=
  {| ntype := NUMTYPE_INT; flags := 0; val_intval := 0x9000; addr_refs := 1 |}.
Definition pc_0400 : number :=
  {| ntype := NUMTYPE_INT; flags := 0; val_intval := 0x0400; addr_refs := 1 |}.

(** The first pass with the program counter set to 0x1000. *)
Definition at_1000 : state :=
  final ((Output_passinit;; vcpu_set_pc 0x1000 0) booted).

(** The first pass after 16 bytes at 0x2000, the segment still open. *)
Definition open_segment : state :=
  final ((Output_passinit;;
          vcpu_set_pc 0x2000 0;;
          Output_bytes (replicate 16 0xea)) booted).

(** The same, the segment being invisible. *)
Definition invisible_segment : state :=
  final ((Output_passinit;;
          vcpu_set_pc 0x2000 SEGMENT_FLAG_INVISIBLE;;
          Output_bytes (replicate 16 0xea)) booted).

(** Two contexts of offset assembly, one inside the other, entered at
    0x1000. *)
Definition nested : state :=
  final (pseudopc_starts [pc_9000; pc_0400] at_1000).

(** A context entered at 0x1000 under a wanted version from before
    [VER_SHORTER_SETPC_WARNING]. *)
Definition legacy_nested : state :=
  final ((Output_passinit;;
          vcpu_set_pc 0x1000 0;;
          pseudopc_start pc_9000)
           (final (Output_init 256 false (startup legacy_config pass_one)))).

(** A segment of one byte at 0x3000, and a second one, begun at 0x2fff,
    that has come up to it. *)
Definition before_crossing : state :=
  final ((Output_passinit;;
          vcpu_set_pc 0x3000 0;;
          Output_bytes [1];;
          vcpu_end_statement;;
          vcpu_set_pc 0x2fff 0;;
          Output_bytes [2]) booted).

(** 300 bytes of the fill value 0xff. *)
Definition all_fill : output :=
  set_fill_value 0xff
    (set_buffer (replicate 300 0xff) (out (startup default_config pass_one))).

(** Two statements, the second one in a block of offset assembly. *)
Definition sample_calls : list call :=
  [ call_vcpu_set_pc 0x1000 0;
    call_Output_byte 1; call_Output_byte 2; call_vcpu_end_statement;
    call_pseudopc_start pc_9000;
    call_Output_byte 3; call_output_skip 5; call_vcpu_end_statement;
    call_pseudopc_end ].

(** [two_segments] with the CBM format chosen. *)
Definition two_segments_cbm : state :=
  set_output_format OUTPUT_FORMAT_CBM two_segments.

(** The state [at_1000] with a report file, at the start of a line of
    the report. *)
Definition reporting : state :=
  set_report {| report_fd := true; bin_used := 0; bin_address := 0;
                bin_buf := replicate 9 0 |} at_1000.

End inputs.

(** ** Properties *)

Section properties.
Context `{Target}.

(** *** Machine integers *)

Lemma wrap_id (w z : Z) :
  0 < w → - 2 ^ (w - 1) <= z < 2 ^ (w - 1) → wrap w z = z.
Proof.
  intros Hw Hz. unfold wrap.
  assert (2 ^ w = 2 * 2 ^ (w - 1)) as ->.
  { rewrite <- Z.pow_succ_r by lia. f_equal. lia. }
  rewrite Z.mod_small; lia.
Qed.

Lemma wrap_mod (w z : Z) : 0 < w → wrap w z mod 2 ^ w = z mod 2 ^ w.
Proof.
  intros Hw. unfold wrap.
  assert (0 < 2 ^ w) by (apply Z.pow_pos_nonneg; lia).
  rewrite Zminus_mod, Zmod_mod, <- Zminus_mod. f_equal. lia.
Qed.

Lemma wrap_range (w z : Z) :
  0 < w → - 2 ^ (w - 1) <= wrap w z < 2 ^ (w - 1).
Proof.
  intros Hw. unfold wrap.
  assert (2 ^ w = 2 * 2 ^ (w - 1)) as E.
  { rewrite <- Z.pow_succ_r by lia. f_equal. lia. }
  assert (0 < 2 ^ (w - 1)) by (apply Z.pow_pos_nonneg; lia).
  pose proof (Z.mod_pos_bound (z + 2 ^ (w - 1)) (2 ^ w)). lia.
Qed.

Lemma int_id (z : Z) : - 2 ^ 31 <= z < 2 ^ 31 → int z = z.
Proof. intros Hz. unfold int. apply wrap_id; [lia | exact Hz]. Qed.

Lemma intval_bits_pos : 0 < intval_bits.
Proof. pose proof intval_bits_ge. lia. Qed.

Lemma intval_id (z : Z) : - 2 ^ 31 <= z < 2 ^ 31 → intval z = z.
Proof.
  intros Hz. unfold intval. pose proof intval_bits_ge as Hb.
  apply wrap_id; [lia |].
  assert (2 ^ 31 <= 2 ^ (intval_bits - 1)) by (apply Z.pow_le_mono_r; lia).
  lia.
Qed.

(** *** What a computation leaves alone *)

Section preserves.
Context (Q : relation state) `{!PreOrder Q}.

Lemma preserves_ret {A : Type} (a : A) : preserves Q (mret a).
Proof. intros s. simpl. reflexivity. Qed.

Lemma preserves_get : preserves Q get.
Proof. intros s. simpl. reflexivity. Qed.

Lemma preserves_stop {A : Type} (why : stop) : preserves Q (@stop_with A why).
Proof. intros s. simpl. reflexivity. Qed.

Lemma preserves_modify (f : state → state) :
  (∀ s, Q s (f s)) → preserves Q (modify f).
Proof. intros Hf s. apply Hf. Qed.

Lemma preserves_bind {A B : Type} (m : M A) (k : A → M B) :
  preserves Q m → (∀ a, preserves Q (k a)) → preserves Q (m ≫= k).
Proof.
  intros Hm Hk s. unfold mbind, M_bind. specialize (Hm s).
  destruct (m s) as [a s'|why s']; simpl in *; [| exact Hm].
  etransitivity; [exact Hm | apply Hk].
Qed.

Lemma preserves_when (b : bool) (m : M unit) :
  preserves Q m → preserves Q (when b m).
Proof. intros Hm. destruct b; [exact Hm | apply preserves_ret]. Qed.

Lemma preserves_if {A : Type} (b : bool) (m1 m2 : M A) :
  preserves Q m1 → preserves Q m2 → preserves Q (if b then m1 else m2).
Proof. by destruct b. Qed.

End preserves.

#[local] Instance same_writer_and_count_preorder : PreOrder same_writer_and_count.
Proof.
  split.
  - by intros s.
  - intros s1 s2 s3 [? ?] [? ?]. split; congruence.
Qed.

Arguments pc_undefined_count : simpl never.

Lemma pc_undefined_count_app (l1 l2 : list diagnostic) :
  pc_undefined_count (l1 ++ l2)
  = (pc_undefined_count l1 + pc_undefined_count l2)%nat.
Proof. unfold pc_undefined_count. by rewrite filter_app, length_app. Qed.

Ltac preserve_step :=
  lazymatch goal with
  | |- preserves _ (mbind _ _) =>
      eapply preserves_bind; [typeclasses eauto | | intros ?]
  | |- preserves _ get => apply preserves_get; typeclasses eauto
  | |- preserves _ (mret _) => apply preserves_ret; typeclasses eauto
  | |- preserves _ (stop_with _) => apply preserves_stop; typeclasses eauto
  | |- preserves _ (when _ _) => apply preserves_when; [typeclasses eauto |]
  | |- preserves _ (if _ then _ else _) => apply preserves_if
  | |- preserves _ (modify _) => apply preserves_modify; intros ?
  | |- preserves _ (match ?x with _ => _ end) => destruct x
  end.

Create HintDb preserves.

Ltac preserve := repeat first [ solve [auto with preserves nocore] | preserve_step ].

Lemma find_segment_max_same (new_pc : Z) :
  preserves same_writer_and_count (find_segment_max new_pc).
Proof. unfold find_segment_max. preserve; by split. Qed.
#[local] Hint Resolve find_segment_max_same : preserves.

Lemma Throw_warning_same (msg : string) :
  preserves same_writer_and_count (Throw_warning msg).
Proof.
  unfold Throw_warning. preserve. split; [done |]. simpl.
  by rewrite pc_undefined_count_app, Nat.add_0_r.
Qed.
#[local] Hint Resolve Throw_warning_same : preserves.

Lemma Throw_error_same (msg : string) :
  msg ≠ exception_pc_undefined →
  preserves same_writer_and_count (Throw_error msg).
Proof.
  intros Hmsg. unfold Throw_error. preserve. split; [done |]. simpl.
  rewrite pc_undefined_count_app. unfold pc_undefined_count at 2.
  rewrite filter_cons_False by congruence. simpl. lia.
Qed.

Lemma border_crossed_same (off : Z) :
  preserves same_writer_and_count (border_crossed off).
Proof.
  unfold border_crossed, Throw_serious_error. preserve.
  by apply Throw_error_same.
Qed.
#[local] Hint Resolve border_crossed_same : preserves.

Lemma report_binary_same (v : Z) :
  preserves same_writer_and_count (report_binary v).
Proof. unfold report_binary. preserve; by split. Qed.
#[local] Hint Resolve report_binary_same : preserves.

Lemma real_output_same (byte : Z) :
  preserves same_writer_and_count (real_output byte).
Proof. unfold real_output. preserve; by split. Qed.
#[local] Hint Resolve real_output_same : preserves.

Lemma Output_byte_call_real (byte : Z) (s : state) :
  Output_byte s = fn_real_output →
  Output_byte_call byte s = real_output byte s.
Proof.
  intros Hs. unfold Output_byte_call, mbind, M_bind, get. by rewrite Hs.
Qed.

Lemma Output_byte_call_no (byte : Z) (s : state) :
  Output_byte s = fn_no_output →
  Output_byte_call byte s = no_output byte s.
Proof.
  intros Hs. unfold Output_byte_call, mbind, M_bind, get. by rewrite Hs.
Qed.

Lemma Output_bytes_cons (byte : Z) (rest : list Z) (s : state) :
  Output_bytes (byte :: rest) s
  = match Output_byte_call byte s with
    | Done _ s' => Output_bytes rest s'
    | Stop why s' => Stop why s'
    end.
Proof. reflexivity. Qed.

Lemma Output_bytes_same (bytes : list Z) (s : state) :
  Output_byte s = fn_real_output →
  same_writer_and_count s (final (Output_bytes bytes s)).
Proof.
  revert s. induction bytes as [|byte rest IH]; intros s Hs; [by split |].
  rewrite Output_bytes_cons, Output_byte_call_real by done.
  pose proof (real_output_same byte s) as Hb.
  destruct (real_output byte s) as [[] s1|why s1]; simpl in *; [| exact Hb].
  etransitivity; [exact Hb |]. apply IH. destruct Hb. congruence.
Qed.

(** *** Running computations *)

Arguments find_segment_max : simpl never.
Arguments border_crossed : simpl never.
Arguments report_binary : simpl never.
Arguments real_output : simpl never.

Lemma bind_Done {A B : Type} (m : M A) (k : A → M B) (s s' : state) (a : A) :
  m s = Done a s' → (m ≫= k) s = k a s'.
Proof. intros E. unfold mbind, M_bind. by rewrite E. Qed.

Lemma bind_Stop {A B : Type} (m : M A) (k : A → M B) (s s' : state) why :
  m s = Stop why s' → (m ≫= k) s = Stop why s'.
Proof. intros E. unfold mbind, M_bind. by rewrite E. Qed.

Ltac run :=
  unfold mbind, M_bind, get, modify, when, mret, M_ret, stop_with,
    upd_out, upd_pc, upd_CPU_state, upd_report, upd_pass;
  simpl.

(** *** Byte emission *)

Lemma report_binary_done (v : Z) (s : state) :
  ∃ r, report_binary v s = Done tt (set_report r s).
Proof.
  unfold report_binary. run.
  destruct (bin_used (report s) =? 0); simpl;
    destruct (bin_used _ <? REPORT_BINBUFSIZE); simpl;
    try (eexists; unfold upd_report, set_report; simpl; reflexivity).
  all: exists (report s); by destruct s.
Qed.

Lemma find_segment_max_done (new_pc : Z) (s : state) :
  new_pc < intval (new_pc + 1) →
  find_segment_max new_pc s
  = Done tt (upd_out (λ o, set_segment_max (next_max new_pc o)
                             (sentinel (intval (new_pc + 1)) o)) s).
Proof.
  intros Hs. unfold find_segment_max, next_max. run.
  unfold upd_out, sentinel. simpl.
  destruct (ring_walk _ _); simpl; [done |].
  destruct (intval (new_pc + 1) <=? new_pc) eqn:E; [lia | done].
Qed.

Lemma find_segment_max_hang (new_pc : Z) (s : state) :
  intval (new_pc + 1) <= new_pc →
  Forall (λ g, seg_start g <= new_pc) (ring (out s)) →
  ∃ s', find_segment_max new_pc s = Stop Hang s'.
Proof.
  intros Hs Hr. unfold find_segment_max. run.
  unfold upd_out. simpl.
  assert (ring_walk (λ g, seg_start g <=? new_pc) (ring (out s)) = None) as ->.
  { induction Hr as [|g l Hg _ IH]; [done |]. simpl.
    destruct (seg_start g <=? new_pc) eqn:E; [exact IH | lia]. }
  destruct (intval (new_pc + 1) <=? new_pc) eqn:E; [by eexists | lia].
Qed.

Lemma border_crossed_fatal (off : Z) (s : state) :
  bufsize (out s) <= off →
  border_crossed off s = Stop (Fatal "Produced too much code.") s.
Proof.
  intros Ho. unfold border_crossed, Throw_serious_error. run.
  destruct (off >=? bufsize (out s)) eqn:E; [done | lia].
Qed.

Lemma border_crossed_later (off : Z) (s : state) :
  off < bufsize (out s) → first_pass (pass s) = false →
  border_crossed off s = Done tt s.
Proof.
  intros Ho Hp. unfold border_crossed. run.
  destruct (off >=? bufsize (out s)) eqn:E; [lia |]. by rewrite Hp.
Qed.

Lemma border_crossed_first (off : Z) (s : state) :
  off < bufsize (out s) → first_pass (pass s) = true →
  - 2 ^ 31 <= off < 2 ^ 31 - 2 →
  border_crossed off s
  = Done tt (set_diagnostics (diagnostics s ++ [reached s])
       (upd_out (λ o, set_segment_max (next_max (off + 1) o)
                        (sentinel (off + 2) o)) s)).
Proof.
  intros Ho Hp Hr. unfold border_crossed. run.
  destruct (off >=? bufsize (out s)) eqn:E; [lia |]. rewrite Hp. simpl.
  rewrite (int_id (off + 1)) by lia.
  assert (intval (off + 1 + 1) = off + 2) as Ei
    by (rewrite intval_id by lia; lia).
  unfold reached, Throw_error, Throw_warning.
  destruct (segment_warning_is_error (config s)); run;
    rewrite find_segment_max_done by (rewrite Ei; lia); rewrite Ei; done.
Qed.

Lemma real_output_unfold (byte : Z) (s : state) :
  real_output byte s
  = (when (write_idx (out s) >? segment_max (out s))
       (border_crossed (int (write_idx (out s))));;
     real_output_rest byte) s.
Proof. reflexivity. Qed.

Ltac zbool :=
  repeat match goal with
  | H : (_ <? _) = true |- _ => apply Z.ltb_lt in H
  | H : (_ <? _) = false |- _ => apply Z.ltb_ge in H
  | H : (_ <=? _) = true |- _ => apply Z.leb_le in H
  | H : (_ <=? _) = false |- _ => apply Z.leb_gt in H
  | H : (_ >? _) = _ |- _ => rewrite Z.gtb_ltb in H
  | H : (_ >=? _) = _ |- _ => rewrite Z.geb_leb in H
  | H : (_ =? _) = true |- _ => apply Z.eqb_eq in H
  | H : (_ =? _) = false |- _ => apply Z.eqb_neq in H
  end.

Lemma real_output_rest_done (byte : Z) (s : state) :
  ∃ s1, real_output_rest byte s = Done tt s1 ∧ written byte s s1
        ∧ Output_byte s1 = Output_byte s
        ∧ segment_max (out s1) = segment_max (out s)
        ∧ diagnostics s1 = diagnostics s.
Proof.
  unfold real_output_rest. run.
  destruct (write_idx (out s) <? lowest_written (out s)) eqn:E1; simpl;
    destruct (write_idx (out s) >? highest_written (out s)) eqn:E2; simpl;
    (destruct (report_fd (report s));
     [edestruct report_binary_done as [r ->] |]);
    (eexists; split; [reflexivity |]);
    (split; [split |]); simpl; try done; zbool; lia.
Qed.

Lemma written_after (byte : Z) (s s0 s1 : state) (m : Z) (h : segment)
    (l : list diagnostic) :
  s0 = set_diagnostics l (upd_out (λ o, set_segment_max m (set_list_head h o)) s) →
  written byte s0 s1 → written byte s s1.
Proof. intros -> []. split; simpl in *; done. Qed.

Lemma real_output_inside (byte : Z) (s : state) :
  write_idx (out s) <= segment_max (out s) →
  ∃ s1, real_output byte s = Done tt s1 ∧ written byte s s1
        ∧ Output_byte s1 = Output_byte s
        ∧ segment_max (out s1) = segment_max (out s)
        ∧ diagnostics s1 = diagnostics s.
Proof.
  intros Hm. rewrite real_output_unfold.
  destruct (write_idx (out s) >? segment_max (out s)) eqn:E; [zbool; lia |].
  apply real_output_rest_done.
Qed.

Lemma real_output_fatal (byte : Z) (s : state) :
  segment_max (out s) < write_idx (out s) →
  bufsize (out s) <= write_idx (out s) < 2 ^ 31 →
  0 <= bufsize (out s) →
  real_output byte s = Stop (Fatal "Produced too much code.") s.
Proof.
  intros Hm Hb Hs. rewrite real_output_unfold.
  destruct (write_idx (out s) >? segment_max (out s)) eqn:E; [| zbool; lia].
  apply bind_Stop. simpl. apply border_crossed_fatal.
  rewrite int_id by lia. lia.
Qed.

(** Any write below the end of the buffer returns. *)
Lemma real_output_done (byte : Z) (s : state) :
  0 <= write_idx (out s) < bufsize (out s) → bufsize (out s) <= 2 ^ 30 →
  ∃ s1, real_output byte s = Done tt s1 ∧ written byte s s1
        ∧ Output_byte s1 = Output_byte s
        ∧ (segment_max (out s1) = segment_max (out s)
           ∨ segment_max (out s1) = next_max (write_idx (out s) + 1) (out s)).
Proof.
  intros Hi Hb.
  destruct (Z.le_gt_cases (write_idx (out s)) (segment_max (out s))) as [Hm|Hm].
  { destruct (real_output_inside byte s Hm) as (s1 & ? & ? & ? & ? & ?).
    eauto 10. }
  rewrite real_output_unfold.
  destruct (write_idx (out s) >? segment_max (out s)) eqn:E; [| zbool; lia].
  simpl. rewrite int_id by lia.
  destruct (first_pass (pass s)) eqn:Hp.
  - erewrite bind_Done by (apply border_crossed_first; [lia | done | lia]).
    edestruct real_output_rest_done as (s1 & -> & Hw & Hfn & Hmax & _).
    exists s1. split; [done |]. split; [| split].
    + eapply written_after; [| exact Hw]. reflexivity.
    + exact Hfn.
    + right. rewrite Hmax. reflexivity.
  - erewrite bind_Done by (apply border_crossed_later; [lia | done]).
    edestruct real_output_rest_done as (s1 & -> & Hw & Hfn & Hmax & _).
    eauto 10.
Qed.

Lemma no_output_eq (byte : Z) (s : state) :
  no_output byte s = real_output byte (complained s).
Proof. reflexivity. Qed.

Lemma written_complained (byte : Z) (s s1 : state) :
  written byte (complained s) s1 → written byte s s1.
Proof. intros []. split; simpl in *; done. Qed.

(** A call through [Output_byte] below the end of the buffer returns and
    leaves the writer enabled. *)
Lemma Output_byte_call_done (byte : Z) (s : state) :
  0 <= write_idx (out s) < bufsize (out s) → bufsize (out s) <= 2 ^ 30 →
  ∃ s1, Output_byte_call byte s = Done tt s1 ∧ written byte s s1
        ∧ Output_byte s1 = fn_real_output
        ∧ (segment_max (out s1) = segment_max (out s)
           ∨ segment_max (out s1) = next_max (write_idx (out s) + 1) (out s)).
Proof.
  intros Hi Hb. destruct (Output_byte s) eqn:Hfn.
  - rewrite Output_byte_call_no, no_output_eq by done.
    destruct (real_output_done byte (complained s)) as (s1 & ? & ? & ? & ?);
      [done.. |].
    exists s1. split_and!; [done | by apply written_complained | done..].
  - rewrite Output_byte_call_real by done.
    destruct (real_output_done byte s) as (s1 & ? & ? & ? & ?); [done.. |].
    exists s1. split_and!; [done | done | congruence | done].
Qed.

Lemma to_char_id (z : Z) : 0 <= z < 256 → to_char z = z.
Proof.
  intros Hz. unfold to_char. change 255 with (Z.ones 8).
  rewrite Z.land_ones by lia. apply Z.mod_small. lia.
Qed.

Lemma to_char_range (z : Z) : 0 <= to_char z < 256.
Proof.
  unfold to_char. change 255 with (Z.ones 8).
  rewrite Z.land_ones by lia. apply Z.mod_pos_bound. lia.
Qed.

Lemma to_char_lxor (a b : Z) :
  0 <= a < 256 → 0 <= b < 256 →
  to_char (Z.lxor (Z.land a 255) b) = Z.lxor a b.
Proof.
  intros Ha Hb. fold (to_char a). rewrite (to_char_id a) by done.
  rewrite <- (to_char_id a), <- (to_char_id b) at 2 by done.
  unfold to_char. apply Z.bits_inj'. intros n _.
  rewrite !Z.land_spec, !Z.lxor_spec, !Z.land_spec.
  by destruct (Z.testbit a n), (Z.testbit b n), (Z.testbit 255 n).
Qed.

Lemma load_store (i v : Z) (p : list Z) :
  0 <= i < Z.of_nat (length p) → load i (store i v p) = v.
Proof.
  intros Hi. unfold load, store.
  destruct (0 <=? i) eqn:E; [| zbool; lia].
  rewrite list_lookup_insert_eq by lia. done.
Qed.

Lemma load_store_ne (i j v : Z) (p : list Z) :
  i ≠ j → load j (store i v p) = load j p.
Proof.
  intros Hij. unfold load, store.
  destruct (0 <=? i) eqn:Ei; [| done].
  destruct (0 <=? j) eqn:Ej; [| done]. zbool.
  rewrite list_lookup_insert_ne by lia. done.
Qed.

Lemma length_store (i v : Z) (p : list Z) : length (store i v p) = length p.
Proof. unfold store. destruct (0 <=? i); [apply length_insert | done]. Qed.

(** C1. For every byte value, a call of the byte-emission operation
    [Output_byte] while writing is disabled (the pointer is [no_output])
    reports the "PC undefined" error exactly once, switches the writer to
    the enabled state and stores that same byte, through the xor mask like
    any write, at the write index; however many writes follow, no further
    "PC undefined" error is reported. *)
Theorem disabled_write_reports_once (byte : Z) (s : state) :
  Output_byte s = fn_no_output →
  0 <= byte < 256 →
  0 <= xor (out s) < 256 →
  0 <= write_idx (out s) <= segment_max (out s) →
  write_idx (out s) < Z.of_nat (length (buffer (out s))) →
  ∃ s1,
    Output_byte_call byte s = Done tt s1
    ∧ diagnostics s1 = diagnostics s ++ [Diag Error exception_pc_undefined]
    ∧ Output_byte s1 = fn_real_output
    ∧ stores s1 = stores s ++ [(write_idx (out s), Z.lxor byte (xor (out s)))]
    ∧ load (write_idx (out s)) (buffer (out s1)) = Z.lxor byte (xor (out s))
    ∧ ∀ bytes,
        pc_undefined_count (diagnostics (final (Output_bytes bytes s1)))
        = S (pc_undefined_count (diagnostics s)).
Proof.
  intros Hfn Hbyte Hxor Hidx Hlen.
  rewrite Output_byte_call_no, no_output_eq by done.
  destruct (real_output_inside byte (complained s)) as (s1 & E & Hw & Hf & _ & Hd);
    [simpl; lia |].
  apply written_complained in Hw. destruct Hw.
  rewrite to_char_lxor in * by done.
  exists s1. split_and!; try done.
  - rewrite w_buffer0. apply load_store. lia.
  - intros bytes. destruct (Output_bytes_same bytes s1) as [_ ->]; [done |].
    rewrite Hd. simpl. rewrite pc_undefined_count_app.
    change (pc_undefined_count [_]) with 1%nat. lia.
Qed.

Lemma Output_bytes_app (l1 l2 : list Z) (s : state) :
  Output_bytes (l1 ++ l2) s
  = match Output_bytes l1 s with
    | Done _ s' => Output_bytes l2 s'
    | Stop why s' => Stop why s'
    end.
Proof.
  revert s. induction l1 as [|b l1 IH]; intros s; [done |].
  rewrite <- app_comm_cons, !Output_bytes_cons.
  destruct (Output_byte_call b s); [apply IH | done].
Qed.

(** *** Segments *)

Arguments check_segment : simpl never.
Arguments link_segment : simpl never.

Lemma check_segment_done (new_pc : Z) (s : state) :
  new_pc < intval (new_pc + 1) →
  ∃ l, check_segment new_pc s
       = Done tt (set_diagnostics (diagnostics s ++ l)
            (upd_out (set_list_head {| seg_start := intval (new_pc + 1);
                                       seg_length := 1 |}) s)).
Proof.
  intros Hs. unfold check_segment, Throw_error, Throw_warning. run.
  destruct (check_segment_walk new_pc (ring (out s))).
  - destruct (segment_warning_is_error (config s)); by eexists [_].
  - exists []. by rewrite app_nil_r.
  - destruct (intval (new_pc + 1) <=? new_pc) eqn:E; [zbool; lia |].
    exists []. by rewrite app_nil_r.
Qed.

Lemma ring_walk_Some (stay : segment → bool) (l : list segment) (g : segment) :
  ring_walk stay l = Some g → g ∈ l ∧ stay g = false.
Proof.
  induction l as [|g' l IH]; [done |]. simpl.
  destruct (stay g') eqn:E.
  - intros Hg. destruct (IH Hg). split; [by right | done].
  - intros [= <-]. split; [by left | done].
Qed.

Lemma next_max_le (new_pc : Z) (o : output) :
  0 <= new_pc → 0 < bufsize o <= 2 ^ 30 →
  Forall (λ g, seg_start g <= bufsize o) (ring o) →
  next_max new_pc o <= bufsize o - 1.
Proof.
  intros Hp Hb Hr. unfold next_max.
  destruct (ring_walk _ _) as [g|] eqn:E.
  - apply ring_walk_Some in E as [Hg Hs]. zbool.
    rewrite Forall_forall in Hr. apply Hr in Hg.
    rewrite intval_id by lia. lia.
  - rewrite intval_id by lia. lia.
Qed.

(** Writes that stay within the capacity of the buffer: they return, store
    to consecutive indices from the write index on, and move the
    watermarks outwards only. *)
Lemma Output_bytes_within (bytes : list Z) (s : state) :
  0 <= write_idx (out s) →
  write_idx (out s) + Z.of_nat (length bytes) <= bufsize (out s) →
  bufsize (out s) <= 2 ^ 30 →
  ∃ s' new,
    Output_bytes bytes s = Done tt s'
    ∧ stores s' = stores s ++ new
    ∧ new.*1 = seqZ (write_idx (out s)) (Z.of_nat (length bytes))
    ∧ Forall (λ i, lowest_written (out s') <= i <= highest_written (out s'))
        new.*1
    ∧ (∀ i, ¬ (lowest_written (out s') <= i <= highest_written (out s')) →
            load i (buffer (out s')) = load i (buffer (out s)))
    ∧ lowest_written (out s') <= lowest_written (out s)
    ∧ highest_written (out s) <= highest_written (out s')
    ∧ write_idx (out s') = write_idx (out s) + Z.of_nat (length bytes)
    ∧ bufsize (out s') = bufsize (out s)
    ∧ ring (out s') = ring (out s)
    ∧ (Output_byte s = fn_real_output → Output_byte s' = fn_real_output)
    ∧ (Forall (λ g, seg_start g <= bufsize (out s)) (ring (out s)) →
       segment_max (out s) <= bufsize (out s) - 1 →
       segment_max (out s') <= bufsize (out s) - 1).
Proof.
  revert s. induction bytes as [|byte rest IH]; intros s Hi Hn Hb.
  { exists s, []. rewrite app_nil_r. simpl. split_and!; try done; lia. }
  simpl length in Hn.
  destruct (Output_byte_call_done byte s) as (s1 & E & Hw & Hfn & Hmax);
    [lia.. |].
  destruct Hw. rewrite intval_id in w_idx0 by lia.
  destruct (IH s1)
    as (s' & new & E' & Hst & Hidx & Hin & Hout & Hlo & Hhi & Hwi & Hbs & Hrg
        & Hfn' & Hmax'); [lia.. |].
  exists s', ((write_idx (out s),
               to_char (Z.lxor (Z.land byte 255) (xor (out s)))) :: new).
  rewrite Output_bytes_cons, E. split_and!.
  - done.
  - rewrite Hst, w_stores0, <- app_assoc. done.
  - rewrite fmap_cons, Hidx, w_idx0. simpl fst.
    rewrite (seqZ_cons _ (Z.of_nat (length (byte :: rest))))
      by (simpl length; lia).
    simpl length. repeat f_equal; lia.
  - rewrite fmap_cons. constructor; [simpl; lia |]. exact Hin.
  - intros i Hni. rewrite Hout by done. rewrite w_buffer0.
    apply load_store_ne. lia.
  - lia.
  - lia.
  - simpl length. lia.
  - congruence.
  - congruence.
  - auto.
  - intros Hr Hm. rewrite <- w_bufsize0. apply Hmax'.
    + by rewrite w_bufsize0, w_ring0.
    + rewrite w_bufsize0. destruct Hmax as [-> | ->]; [done |].
      apply next_max_le; [lia | lia | done].
Qed.

(** C3. For every sequence of [Output_byte] calls that stays within the
    capacity of the buffer, from the pass-initialized state as from any
    other, the calls return, and every index stored to by the sequence
    lies between [lowest_written] and [highest_written] as they stand at
    the end; the bytes of the buffer outside that interval are the ones
    from before the sequence. *)
Theorem stores_within_watermarks (bytes : list Z) (s : state) :
  0 <= write_idx (out s) →
  write_idx (out s) + Z.of_nat (length bytes) <= bufsize (out s) →
  bufsize (out s) <= 2 ^ 30 →
  ∃ s' new,
    Output_bytes bytes s = Done tt s'
    ∧ stores s' = stores s ++ new
    ∧ new.*1 = seqZ (write_idx (out s)) (Z.of_nat (length bytes))
    ∧ Forall (λ i, lowest_written (out s') <= i <= highest_written (out s'))
        new.*1
    ∧ (∀ i, ¬ (lowest_written (out s') <= i <= highest_written (out s')) →
            load i (buffer (out s')) = load i (buffer (out s))).
Proof.
  intros Hi Hn Hb.
  destruct (Output_bytes_within bytes s Hi Hn Hb)
    as (s' & new & ? & ? & ? & ? & ? & _).
  by exists s', new.
Qed.

(** What [Output_passinit] leaves. *)
Lemma Output_passinit_eq (s0 : state) :
  Output_passinit s0
  = Done tt
      {| out :=
           {| bufsize := bufsize (out s0);
              buffer := buffer (out s0);
              write_idx := 0;
              lowest_written := intval (bufsize (out s0) - 1);
              highest_written := 0;
              initvalue_set := initvalue_set (out s0);
              fill_value := fill_value (out s0);
              segment_start := NO_SEGMENT_START;
              segment_max := intval (bufsize (out s0) - 1);
              segment_flags := 0;
              list_head := list_head (out s0);
              ring := ring (out s0);
              xor := 0 |};
         Output_byte := fn_no_output;
         CPU_state :=
           {| pc := {| ntype := NUMTYPE_UNDEFINED; flags := 0;
                       val_intval := 0;
                       addr_refs := addr_refs (pc (CPU_state s0)) |};
              add_to_pc := 0 |};
         pseudopc_current_context := [];
         output_format := output_format s0;
         output_filename := output_filename s0;
         report := report s0;
         pass := pass s0;
         config := config s0;
         diagnostics := diagnostics s0;
         stores := stores s0 |}.
Proof. reflexivity. Qed.

(** What [Output_init] leaves: a filled buffer of 64 KiB or 16 MiB and an
    empty ring. *)
Lemma Output_init_buffer (fill_value : Z) (use_large_buf : bool) (s : state) :
  ∃ s',
    Output_init fill_value use_large_buf s = Done tt s'
    ∧ bufsize (out s') = (if use_large_buf then 2 ^ 24 else 2 ^ 16)
    ∧ Z.of_nat (length (buffer (out s'))) = bufsize (out s')
    ∧ ring (out s') = []
    ∧ initvalue_set (out s') = negb (fill_value =? MEMINIT_USE_DEFAULT).
Proof.
  unfold Output_init, fill_completely. run.
  destruct (fill_value =? MEMINIT_USE_DEFAULT);
    (eexists; split; [reflexivity |]); simpl;
    rewrite length_replicate, Z2Nat.id by (by destruct use_large_buf);
    split_and!; try reflexivity; by destruct use_large_buf.
Qed.

(** The pass-initialized state is one in which writing is disabled, the
    write index 0 lies below the segment's bound and inside the buffer,
    and the xor mask is 0. *)
Lemma Output_passinit_disables (s0 : state) :
  0 < bufsize (out s0) <= 2 ^ 30 →
  Z.of_nat (length (buffer (out s0))) = bufsize (out s0) →
  ∃ s,
    Output_passinit s0 = Done tt s
    ∧ Output_byte s = fn_no_output
    ∧ xor (out s) = 0
    ∧ 0 <= write_idx (out s) <= segment_max (out s)
    ∧ write_idx (out s) < Z.of_nat (length (buffer (out s))).
Proof.
  intros Hb Hl. rewrite Output_passinit_eq. eexists. split; [reflexivity |].
  simpl. rewrite intval_id by lia. split_and!; try done; lia.
Qed.

(** The state in which the writes of C2 start: the pass is initialized and
    the program counter set to 0. *)
Lemma start_at_zero (segment_flags : Z) (s0 : state) :
  0 < bufsize (out s0) <= 2 ^ 30 →
  Forall (λ g, seg_start g <= bufsize (out s0)) (ring (out s0)) →
  ∃ s, (Output_passinit;; vcpu_set_pc 0 segment_flags) s0 = Done tt s
       ∧ write_idx (out s) = 0
       ∧ Output_byte s = fn_real_output
       ∧ bufsize (out s) = bufsize (out s0)
       ∧ ring (out s) = ring (out s0)
       ∧ segment_max (out s) <= bufsize (out s0) - 1.
Proof.
  intros Hb Hr. erewrite bind_Done by apply Output_passinit_eq.
  unfold vcpu_set_pc, Output_start_segment, Output_end_segment. run.
  assert (∀ s : state, (if negb (first_pass (pass s0)) then λ s, Done tt s
           else λ s : state, Done tt s) s = Done tt s) as ->
    by (by destruct (first_pass _)).
  simpl.
  assert (Z.land (intval (0 + intval (0 - 0))) (intval (bufsize (out s0) - 1))
          = 0) as ->.
  { change (0 - 0) with 0. rewrite ?(intval_id 0) by lia.
    change (0 + 0) with 0. rewrite ?(intval_id 0) by lia.
    apply Z.land_0_l. }
  assert (0 < intval (0 + 1)) by (rewrite intval_id by lia; lia).
  destruct (first_pass (pass s0)) eqn:Hp; simpl.
  - destruct (Z.land segment_flags SEGMENT_FLAG_OVERLAY =? 0); simpl.
    + edestruct check_segment_done as [l ->]; [done |].
      rewrite find_segment_max_done by done.
      eexists. split; [done |]. simpl. split_and!; try done.
      match goal with |- next_max 0 ?o <= _ =>
        pose proof (next_max_le 0 o) as Hn; simpl in Hn; apply Hn;
        [lia | lia | done] end.
    + rewrite find_segment_max_done by done.
      eexists. split; [done |]. simpl. split_and!; try done.
      match goal with |- next_max 0 ?o <= _ =>
        pose proof (next_max_le 0 o) as Hn; simpl in Hn; apply Hn;
        [lia | lia | done] end.
  - eexists. split; [done |]. simpl. split_and!; try done.
    rewrite intval_id by lia. lia.
Qed.

(** C2. From the pass-initialized buffer with the program counter set to
    0, whatever segments the ring holds below the end of the buffer (none,
    when there is a single segment): emitting up to [bufsize] bytes
    through [Output_byte] returns every time, so the fatal error is never
    raised, and the byte after [bufsize] bytes raises the serious error
    "Produced too much code.". *)
Theorem capacity_then_fatal (segment_flags : Z) (s0 : state) :
  0 < bufsize (out s0) <= 2 ^ 30 →
  Forall (λ g, seg_start g <= bufsize (out s0)) (ring (out s0)) →
  ∃ s,
    (Output_passinit;; vcpu_set_pc 0 segment_flags) s0 = Done tt s
    ∧ (∀ bytes, Z.of_nat (length bytes) <= bufsize (out s0) →
         ∃ s', Output_bytes bytes s = Done tt s')
    ∧ (∀ bytes extra, Z.of_nat (length bytes) = bufsize (out s0) →
         ∃ s', Output_bytes bytes s = Done tt s'
               ∧ Output_bytes (bytes ++ [extra]) s
                 = Stop (Fatal "Produced too much code.") s').
Proof.
  intros Hb Hr.
  destruct (start_at_zero segment_flags s0 Hb Hr)
    as (s & E & Hi & Hfn & Hbs & Hrg & Hmax).
  exists s. split; [exact E |]. split.
  - intros bytes Hn.
    destruct (Output_bytes_within bytes s) as (s' & new & E' & _); [lia.. |].
    by exists s'.
  - intros bytes extra Hn.
    destruct (Output_bytes_within bytes s)
      as (s' & new & E' & _ & _ & _ & _ & _ & _ & Hwi & Hbs' & _ & Hfn' & Hmax');
      [lia.. |].
    exists s'. split; [exact E' |].
    rewrite Output_bytes_app, E', Output_bytes_cons.
    rewrite Output_byte_call_real by auto.
    rewrite real_output_fatal; [done | | lia | lia].
    assert (segment_max (out s') <= bufsize (out s) - 1); [| lia].
    apply Hmax'; [by rewrite Hbs, Hrg | lia].
Qed.

Lemma intval_id_range (z : Z) : intval_range z → intval z = z.
Proof.
  intros Hz. apply wrap_id; [apply intval_bits_pos | exact Hz].
Qed.

Lemma ring_walk_None (stay : segment → bool) (l : list segment) :
  ring_walk stay l = None → Forall (λ g, stay g = true) l.
Proof.
  induction l as [|g l IH]; [done |]. simpl.
  destruct (stay g) eqn:E; [| done]. intros Hl. constructor; auto.
Qed.

Lemma ring_walk_sorted (new_pc : Z) (l : list segment) (g : segment) :
  ring_sorted l →
  ring_walk (λ g, seg_start g <=? new_pc) l = Some g →
  g ∈ l ∧ new_pc < seg_start g
  ∧ ∀ g', g' ∈ l → new_pc < seg_start g' → seg_start g <= seg_start g'.
Proof.
  intros Hl. induction Hl as [|g0 l Hl IH H0]; [done |]. simpl.
  destruct (seg_start g0 <=? new_pc) eqn:E; zbool.
  - intros Hg. destruct (IH Hg) as (Hin & Hlt & Hmin).
    split_and!; [by right | done |].
    intros g' [-> | Hg']%elem_of_cons Hlt'; [lia | auto].
  - intros [= <-]. split_and!; [by left | done |].
    intros g' [-> | Hg']%elem_of_cons _; [lia |].
    rewrite Forall_forall in H0. destruct (H0 g' Hg') as [? | [? ?]]; lia.
Qed.

(** C4. For every address [A] (a value of [intval_t] with a successor) and
    every sorted segment ring, [find_segment_max A] returns and has set
    [segment.max] to [S - 1], [S] being the smallest recorded segment
    start strictly greater than [A], and to [bufsize - 1] when no recorded
    start exceeds [A]. *)
Theorem find_segment_max_next_start (A : Z) (s : state) :
  intval_range A → intval_range (A + 1) →
  intval_range (bufsize (out s) - 1) →
  Forall (λ g, intval_range (seg_start g)) (ring (out s)) →
  ring_sorted (ring (out s)) →
  ∃ s',
    find_segment_max A s = Done tt s'
    ∧ ring (out s') = ring (out s)
    ∧ bufsize (out s') = bufsize (out s)
    ∧ ((∃ g, g ∈ ring (out s) ∧ A < seg_start g
             ∧ (∀ g', g' ∈ ring (out s) → A < seg_start g' →
                      seg_start g <= seg_start g')
             ∧ segment_max (out s') = seg_start g - 1)
       ∨ ((∀ g, g ∈ ring (out s) → seg_start g <= A)
          ∧ segment_max (out s') = bufsize (out s) - 1)).
Proof.
  intros HA HA1 Hb Hr Hs.
  rewrite find_segment_max_done by (rewrite intval_id_range by done; lia).
  eexists. split; [done |]. simpl. split_and!; [done.. |].
  unfold next_max. simpl.
  destruct (ring_walk _ _) as [g|] eqn:E.
  - left. exists g.
    destruct (ring_walk_sorted A _ g Hs E) as (Hin & Hlt & Hmin).
    split_and!; [done.. |].
    rewrite Forall_forall in Hr. specialize (Hr g Hin).
    apply intval_id_range. unfold intval_range in *. lia.
  - right. split; [| by apply intval_id_range].
    apply ring_walk_None in E. rewrite Forall_forall in E.
    intros g Hg. specialize (E g Hg). simpl in E. zbool. done.
Qed.

(** The FIXME of [find_segment_max]: at the largest [intval_t] the
    sentinel wraps round and the search never ends. *)
Lemma find_segment_max_overflow (s : state) :
  Forall (λ g, intval_range (seg_start g)) (ring (out s)) →
  ∃ s', find_segment_max (2 ^ (intval_bits - 1) - 1) s = Stop Hang s'.
Proof.
  intros Hr. apply find_segment_max_hang.
  - pose proof (wrap_range intval_bits (2 ^ (intval_bits - 1) - 1 + 1)
                  intval_bits_pos) as Hw.
    unfold intval.
    assert (wrap intval_bits (2 ^ (intval_bits - 1) - 1 + 1)
            = - 2 ^ (intval_bits - 1)) as ->; [| lia].
    unfold wrap.
    replace (2 ^ (intval_bits - 1) - 1 + 1 + 2 ^ (intval_bits - 1))
      with (2 ^ intval_bits).
    + rewrite Z.mod_same; [lia |]. pose proof intval_bits_pos.
      apply Z.pow_nonzero; lia.
    + pose proof intval_bits_pos.
      replace intval_bits with (Z.succ (intval_bits - 1)) at 1 by lia.
      rewrite Z.pow_succ_r by lia. lia.
  - eapply Forall_impl; [exact Hr |]. unfold intval_range. intros g Hg.
    simpl in *. lia.
Qed.

Arguments pseudopc_start : simpl never.
Arguments pseudopc_end : simpl never.

(** *** Offset assembly *)

Lemma wrap_congr (w x y : Z) :
  0 < w → x mod 2 ^ w = y mod 2 ^ w → wrap w x = wrap w y.
Proof.
  intros Hw E. unfold wrap. f_equal.
  rewrite (Zplus_mod x), (Zplus_mod y), E. done.
Qed.

Lemma intval_sub_sub (a p : Z) : intval (a - intval (a - p)) = intval p.
Proof.
  unfold intval. pose proof intval_bits_pos as Hw.
  apply wrap_congr; [done |].
  rewrite Zminus_mod, wrap_mod, <- Zminus_mod by done. f_equal. lia.
Qed.

(** [x & (bufsize - 1)] is [x mod bufsize] for a buffer size that is a
    power of two. *)
Lemma land_mask (k x : Z) :
  0 <= k < intval_bits - 1 → Z.land x (intval (2 ^ k - 1)) = x mod 2 ^ k.
Proof.
  intros Hk. rewrite intval_id_range.
  - replace (2 ^ k - 1) with (Z.ones k) by (rewrite Z.ones_equiv; lia).
    apply Z.land_ones. lia.
  - unfold intval_range.
    assert (0 < 2 ^ k) by (apply Z.pow_pos_nonneg; lia).
    assert (2 ^ k < 2 ^ (intval_bits - 1)) by (apply Z.pow_lt_mono_r; lia).
    lia.
Qed.

Lemma intval_mod_pow2 (k x : Z) :
  0 <= k < intval_bits - 1 → intval x mod 2 ^ k = x mod 2 ^ k.
Proof.
  intros Hk. unfold intval. pose proof intval_bits_pos as Hw.
  assert (2 ^ intval_bits = 2 ^ (intval_bits - k) * 2 ^ k) as E
    by (rewrite <- Z.pow_add_r by lia; f_equal; lia).
  assert (0 < 2 ^ intval_bits) by (apply Z.pow_pos_nonneg; lia).
  pose proof (wrap_mod intval_bits x Hw) as Hm.
  pose proof (Z.div_mod (wrap intval_bits x) (2 ^ intval_bits)) as H1.
  pose proof (Z.div_mod x (2 ^ intval_bits)) as H2.
  set (q1 := wrap intval_bits x / 2 ^ intval_bits) in *.
  set (q2 := x / 2 ^ intval_bits) in *.
  assert (wrap intval_bits x
          = x + ((q1 - q2) * 2 ^ (intval_bits - k)) * 2 ^ k) as ->.
  { rewrite <- Z.mul_assoc, <- E. lia. }
  apply Z_mod_plus_full.
Qed.

Lemma pseudopc_start_eq (new_pc : number) (s : state) :
  pseudopc_start new_pc s
  = Done tt
      (upd_pc (λ n, set_ntype NUMTYPE_INT (set_val_intval (val_intval new_pc) n))
         (set_pseudopc_current_context
            ({| offset := intval (val_intval new_pc
                                  - val_intval (pc (CPU_state s)));
                outer_ntype := ntype (pc (CPU_state s)) |}
             :: pseudopc_current_context s) s)).
Proof. reflexivity. Qed.

Lemma pseudopc_end_eq (c : pseudopc) (s : state) (outer : list pseudopc) :
  pseudopc_current_context s = c :: outer →
  pseudopc_end s
  = Done tt
      (set_pseudopc_current_context outer
         (upd_pc (λ n, set_ntype (outer_ntype c)
            (set_val_intval
               (Z.land (intval (val_intval n - offset c))
                       (intval (bufsize (out s) - 1))) n)) s)).
Proof. intros E. unfold pseudopc_end. run. by rewrite E. Qed.

Lemma bind_assoc {A B C : Type} (m : M A) (k : A → M B) (k' : B → M C)
    (s : state) :
  ((m ≫= k) ≫= k') s = (m ≫= λ a, k a ≫= k') s.
Proof. unfold mbind, M_bind. by destruct (m s). Qed.

Lemma pseudopc_ends_S (n : nat) :
  pseudopc_ends (S n) = (pseudopc_end;; pseudopc_ends n).
Proof. reflexivity. Qed.

Lemma pseudopc_ends_snoc (n : nat) (s : state) :
  pseudopc_ends (S n) s = (pseudopc_ends n;; pseudopc_end) s.
Proof.
  revert s. induction n as [|n IH]; intros s.
  - rewrite pseudopc_ends_S. unfold mbind, M_bind. simpl.
    by destruct (pseudopc_end s) as [[] ?|].
  - rewrite (pseudopc_ends_S (S n)), (pseudopc_ends_S n), bind_assoc.
    destruct (pseudopc_end s) as [[] s1|why s1] eqn:E.
    + rewrite !(bind_Done _ _ _ _ _ E). apply IH.
    + by rewrite !(bind_Stop _ _ _ _ _ E).
Qed.

(** Entering [new_pcs] and leaving as many contexts again: the state is
    the one from before, but for a program counter taken modulo the
    buffer size when at least one context was entered. *)
Lemma pseudopc_nest (new_pcs : list number) (s : state) (k : Z) :
  0 <= k < intval_bits - 1 → bufsize (out s) = 2 ^ k →
  (pseudopc_starts new_pcs;; pseudopc_ends (length new_pcs)) s
  = Done tt
      (match new_pcs with
       | [] => s
       | _ :: _ =>
           upd_pc (set_val_intval (val_intval (pc (CPU_state s)) mod 2 ^ k)) s
       end).
Proof.
  intros Hk. revert s.
  induction new_pcs as [|a l IH]; intros s Hb; [reflexivity |].
  simpl length.
  assert (∀ s', (pseudopc_starts (a :: l);; pseudopc_ends (S (length l))) s'
                = (pseudopc_start a;;
                   (pseudopc_starts l;; pseudopc_ends (length l));;
                   pseudopc_end) s') as ->.
  { intros s'. simpl pseudopc_starts. rewrite bind_assoc.
    destruct (pseudopc_start a s') as [[] s1|why s1] eqn:E1;
      [| by rewrite !(bind_Stop _ _ _ _ _ E1)].
    rewrite !(bind_Done _ _ _ _ _ E1), bind_assoc.
    destruct (pseudopc_starts l s1) as [[] s2|why s2] eqn:E.
    - rewrite !(bind_Done _ _ _ _ _ E). apply pseudopc_ends_snoc.
    - by rewrite !(bind_Stop _ _ _ _ _ E). }
  erewrite bind_Done by apply pseudopc_start_eq.
  erewrite bind_Done by (apply IH; exact Hb).
  destruct s as [o fn [[nt fl v ar] add] ctx fmt fname rep pa cfg dg st].
  simpl in Hb.
  destruct l as [|b l]; (erewrite pseudopc_end_eq by reflexivity);
    f_equal; simpl; rewrite Hb, land_mask by done; do 3 f_equal.
  - rewrite intval_sub_sub. by apply intval_mod_pow2.
  - rewrite intval_mod_pow2 by done.
    rewrite Zminus_mod, Z.mod_mod, <- Zminus_mod
      by (apply Z.pow_nonzero; lia).
    rewrite <- (intval_mod_pow2 k) by done.
    rewrite <- (intval_mod_pow2 k v) by done. f_equal.
    apply intval_sub_sub.
Qed.

(** C5, as the code has it.  For every nesting depth and every sequence
    of new pc values, entering the pseudo-PC contexts one inside the other
    with [pseudopc_start] and leaving them again with as many
    [pseudopc_end], innermost first, restores the definedness (number
    type) of the program counter and the chain of contexts, and leaves all
    but the value of the program counter as it was.  The value comes back
    modulo the size of the buffer, a power of two, since [pseudopc_end]
    masks it: it is the value from before the first entry when that is an
    address of the buffer, and then the whole state is the one from
    before; a value beyond the buffer comes back wrapped. *)
Theorem pseudopc_round_trip (new_pcs : list number) (s : state) (k : Z) :
  0 <= k < intval_bits - 1 → bufsize (out s) = 2 ^ k →
  ∃ s',
    (pseudopc_starts new_pcs;; pseudopc_ends (length new_pcs)) s = Done tt s'
    ∧ val_intval (pc (CPU_state s'))
      = match new_pcs with
        | [] => val_intval (pc (CPU_state s))
        | _ :: _ => val_intval (pc (CPU_state s)) mod bufsize (out s)
        end
    ∧ ntype (pc (CPU_state s')) = ntype (pc (CPU_state s))
    ∧ pseudopc_current_context s' = pseudopc_current_context s
    ∧ s' = upd_pc (set_val_intval (val_intval (pc (CPU_state s')))) s
    ∧ (0 <= val_intval (pc (CPU_state s)) < bufsize (out s) →
       val_intval (pc (CPU_state s')) = val_intval (pc (CPU_state s))
       ∧ s' = s).
Proof.
  intros Hk Hb. rewrite (pseudopc_nest new_pcs s k Hk Hb), <- Hb.
  eexists. split; [reflexivity |].
  destruct s as [o fn [[nt fl v ar] add] ctx fmt fname rep pa cfg dg st].
  destruct new_pcs as [|a l]; simpl; split_and!; try done.
  intros Hp. by rewrite Z.mod_small by lia.
Qed.

(** C6. Calling [pseudopc_end] when no context is active is a found bug
    (the process is aborted through [Bug_found]) when the wanted version is
    at least [VER_DISABLED_OBSOLETE_STUFF]; under an older version it is
    tolerated and changes nothing: the call returns in the same state,
    with the same program counter and the same (empty) chain of
    contexts. *)
Theorem pseudopc_end_unopened (s : state) :
  pseudopc_current_context s = [] →
  (VER_DISABLED_OBSOLETE_STUFF <= wanted_version (config s) →
   pseudopc_end s = Stop (Bug "ClosingUnopenedPseudopcBlock" 0) s)
  ∧ (wanted_version (config s) < VER_DISABLED_OBSOLETE_STUFF →
     pseudopc_end s = Done tt s).
Proof.
  intros Hc. unfold pseudopc_end, Bug_found. run. rewrite Hc.
  destruct (wanted_version (config s) >=? VER_DISABLED_OBSOLETE_STUFF) eqn:E;
    zbool; split; intros; by try lia.
Qed.

(** *** Fill value and output format *)

Lemma output_initmem_again (content : Z) (s : state) :
  initvalue_set (out s) = true →
  output_initmem content s
  = Done 1 (set_diagnostics
              (diagnostics s ++ [Diag Warning "Memory already initialised."])
              s).
Proof. intros E. unfold output_initmem, Throw_warning. run. by rewrite E. Qed.

Lemma output_initmem_first (content : Z) (s : state) :
  initvalue_set (out s) = false →
  output_initmem content s
  = Done 0
      (upd_pass (λ p, if undefined_count p =? 0
                      then set_undefined_count 1 p else p)
         (upd_out (λ o, set_fill_value content
                     (set_buffer (replicate (Z.to_nat (bufsize o)) content)
                        (set_initvalue_set true o))) s)).
Proof.
  intros E. unfold output_initmem, fill_completely. run. by rewrite E.
Qed.

(** C8. For any two byte values [v1] and [v2], calling [output_initmem]
    with [v1] while the memory is not initialised yet and then with [v2]:
    the first call returns 0 and makes [v1] the fill value; the second
    call reports the warning "Memory already initialised.", returns 1 and
    changes nothing else, so that the fill value is still [v1] and the
    buffer is the one the first call filled. *)
Theorem initmem_twice (v1 v2 : Z) (s : state) :
  initvalue_set (out s) = false →
  ∃ s1 s2,
    output_initmem v1 s = Done 0 s1
    ∧ fill_value (out s1) = v1
    ∧ output_initmem v2 s1 = Done 1 s2
    ∧ s2 = set_diagnostics
             (diagnostics s1 ++ [Diag Warning "Memory already initialised."])
             s1
    ∧ fill_value (out s2) = v1
    ∧ buffer (out s2) = replicate (Z.to_nat (bufsize (out s))) v1.
Proof.
  intros Hs. eexists _, _.
  split; [by apply output_initmem_first |].
  split; [reflexivity |].
  split; [by apply output_initmem_again |].
  split_and!; reflexivity.
Qed.

(** Whatever the state before, a second [output_initmem] fails and leaves
    the fill value alone. *)
Lemma initmem_again (v1 v2 : Z) (s : state) :
  ∃ r s1,
    output_initmem v1 s = Done r s1
    ∧ output_initmem v2 s1
      = Done 1 (set_diagnostics
                  (diagnostics s1 ++ [Diag Warning "Memory already initialised."])
                  s1).
Proof.
  destruct (initvalue_set (out s)) eqn:E.
  - eexists _, _. split; [by apply output_initmem_again |].
    by apply output_initmem_again.
  - eexists _, _. split; [by apply output_initmem_first |].
    by apply output_initmem_again.
Qed.

(** The names the format selector knows. *)
Lemma format_names (name : string) (f : output_format_t) :
  Tree_easy_scan file_format_tree name = Some f
  ↔ (name = "apple" ∧ f = OUTPUT_FORMAT_APPLE)
    ∨ (name = "cbm" ∧ f = OUTPUT_FORMAT_CBM)
    ∨ (name = "plain" ∧ f = OUTPUT_FORMAT_PLAIN)
    ∨ (name = "hex" ∧ f = OUTPUT_FORMAT_HEX).
Proof.
  unfold file_format_tree. cbn [Tree_easy_scan]. split.
  - repeat match goal with
           | |- context [String.eqb ?k name] =>
               destruct (String.eqb_spec k name) as [<- | ?];
               [intros [= <-]; tauto |]
           end.
    done.
  - intros [[-> ->] | [[-> ->] | [[-> ->] | [-> ->]]]]; reflexivity.
Qed.

(** C9, as the code has it.  Once an output format has been selected, a
    further selection by a name of the tree is not turned down: it reports
    nothing, returns 0 and replaces the format in effect, so that the last
    selection wins.  The implicit choice of CBM changes the format only
    when it is still unspecified; after a selection it returns 0 and
    changes nothing. *)
Theorem format_last_selection_wins (name1 name2 : string)
    (f1 f2 : output_format_t) (s : state) :
  Tree_easy_scan file_format_tree name1 = Some f1 →
  Tree_easy_scan file_format_tree name2 = Some f2 →
  ∃ s1 s2,
    outputfile_set_format name1 s = Done 0 s1
    ∧ output_format s1 = f1
    ∧ outputfile_set_format name2 s1 = Done 0 s2
    ∧ output_format s2 = f2
    ∧ diagnostics s2 = diagnostics s
    ∧ outputfile_prefer_cbm_format s2 = Done 0 s2
    ∧ outputfile_prefer_cbm_format
        (set_output_format OUTPUT_FORMAT_UNSPECIFIED s)
      = Done 1 (set_output_format OUTPUT_FORMAT_CBM s).
Proof.
  intros E1 E2.
  exists (set_output_format f1 s),
         (set_output_format f2 (set_output_format f1 s)).
  unfold outputfile_set_format, outputfile_prefer_cbm_format.
  rewrite E1, E2. run. split_and!; try reflexivity.
  destruct (decide (f2 ≠ OUTPUT_FORMAT_UNSPECIFIED)) as [|Hn]; [done |].
  apply format_names in E2.
  destruct E2 as [[_ ->] | [[_ ->] | [[_ ->] | [_ ->]]]]; by destruct Hn.
Qed.

(** A name outside the tree is rejected and changes nothing. *)
Lemma format_unknown_name (name : string) (s : state) :
  Tree_easy_scan file_format_tree name = None →
  outputfile_set_format name s = Done 1 s.
Proof. intros E. unfold outputfile_set_format. by rewrite E. Qed.

(** *** Intel HEX *)

Lemma string_app_assoc (s1 s2 s3 : string) :
  (s1 +:+ s2) +:+ s3 = s1 +:+ (s2 +:+ s3).
Proof.
  induction s1 as [|c s1 IH]; [done |].
  change (String c ((s1 +:+ s2) +:+ s3) = String c (s1 +:+ s2 +:+ s3)).
  by f_equal.
Qed.

Lemma string_app_nil_r (s : string) : s +:+ "" = s.
Proof.
  induction s as [|c s IH]; [done |].
  change (String c (s +:+ "") = String c s). by f_equal.
Qed.

Lemma chunk_data_cons (start size : Z) (o : output) :
  0 < size →
  chunk_data start size o
  = to_char (load start (buffer o)) :: chunk_data (start + 1) (size - 1) o.
Proof.
  intros Hs. unfold chunk_data. rewrite seqZ_cons by done. done.
Qed.

Lemma Z_sum_chunk_data_bound (start : Z) (n : nat) (o : output) :
  0 <= Z_sum (chunk_data start (Z.of_nat n) o) <= 255 * Z.of_nat n.
Proof.
  revert start. induction n as [|n IH]; intros start; [done |].
  rewrite chunk_data_cons by lia.
  replace (Z.of_nat (S n) - 1) with (Z.of_nat n) by lia.
  simpl. specialize (IH (start + 1)).
  pose proof (to_char_range (load start (buffer o))). lia.
Qed.

Lemma outputHexChunk_loop_eq (n : nat) (o : output) (start i c : Z)
    (text : string) :
  0 <= start → 0 <= i → start + i + Z.of_nat n < 2 ^ 31 →
  0 <= c → c + 255 * Z.of_nat n < 2 ^ 31 →
  outputHexChunk_loop n o start i (c, text)
  = (c + Z_sum (chunk_data (start + i) (Z.of_nat n) o),
     text +:+ hex_text (chunk_data (start + i) (Z.of_nat n) o)).
Proof.
  revert i c text. induction n as [|n IH]; intros i c text Hs Hi Hn Hc Hb.
  { simpl. by rewrite Z.add_0_r, string_app_nil_r. }
  cbn [outputHexChunk_loop]. cbn [fst snd].
  rewrite (int_id (start + i)), (int_id (i + 1)) by lia.
  pose proof (to_char_range (load (start + i) (buffer o))) as Hr.
  rewrite int_id by lia. rewrite IH by lia.
  rewrite (chunk_data_cons (start + i) (Z.of_nat (S n))) by lia.
  replace (Z.of_nat (S n) - 1) with (Z.of_nat n) by lia.
  replace (start + (i + 1)) with (start + i + 1) by lia.
  simpl. f_equal; [lia |]. by rewrite string_app_assoc.
Qed.

Lemma land_ff_range (x : Z) : 0 <= Z.land x 0xff <= 255.
Proof. pose proof (to_char_range x). unfold to_char in *. lia. Qed.

Lemma high_byte_range (x : Z) : 0 <= Z.shiftr (Z.land x 0xff00) 8 <= 255.
Proof.
  rewrite Z.shiftr_land. change (Z.shiftr 0xff00 8) with 0xff.
  apply land_ff_range.
Qed.

(** What [outputHexChunk] writes and the checksum in it. *)
Lemma outputHexChunk_eq (start size : Z) (o : output) :
  0 <= start → 0 <= size < 256 → start + size < 2 ^ 31 →
  let hi := Z.shiftr (Z.land start 0xff00) 8 in
  let lo := Z.land start 0xff in
  let data := chunk_data start size o in
  outputHexChunk_checksum start size o = - (size + hi + lo + Z_sum data)
  ∧ outputHexChunk start size o
    = ":" +:+ fmt_x 2 size +:+ fmt_x 4 start +:+ "00" +:+ hex_text data
      +:+ fmt_x 2 (Z.land (outputHexChunk_checksum start size o) 0xff)
      +:+ newline.
Proof.
  intros Hs Hz Hb hi lo data.
  assert (0 <= hi <= 255) as Hhi by apply high_byte_range.
  assert (0 <= lo <= 255) as Hlo by apply land_ff_range.
  pose proof (Z_sum_chunk_data_bound start (Z.to_nat size) o) as Hsum.
  rewrite Z2Nat.id in Hsum by lia. fold data in Hsum.
  unfold outputHexChunk_checksum, outputHexChunk. fold hi lo.
  rewrite !(to_char_id hi), !(to_char_id lo) by lia.
  rewrite !(int_id (size + hi)) by lia.
  rewrite !(int_id (size + hi + lo)) by lia.
  rewrite !outputHexChunk_loop_eq by lia.
  rewrite Z2Nat.id, Z.add_0_r by lia. fold data. cbn [fst snd].
  assert (int (int (Z.lnot (size + hi + lo + Z_sum data)) + 1)
          = - (size + hi + lo + Z_sum data)) as ->.
  { unfold Z.lnot. rewrite (int_id (Z.pred _)) by lia.
    rewrite int_id by lia. lia. }
  split; [done |]. by rewrite !string_app_assoc.
Qed.

(** C7, as the code has it.  The record writer [outputHexChunk] prints
    the checksum byte CC with (LL + AAAA_high + AAAA_low + sum(data) + CC)
    mod 256 = 0, in lower-case hexadecimal like the rest of the record;
    for the record with address 0x0000, size 2 and data bytes 0x01, 0x02
    the checksum byte is 0xFB and the line is [:020000000102fb]. *)
Theorem hex_record_checksum (start size : Z) (o : output) :
  0 <= start → 0 <= size < 256 → start + size < 2 ^ 31 →
  let LL := size in
  let AAAA_high := Z.shiftr (Z.land start 0xff00) 8 in
  let AAAA_low := Z.land start 0xff in
  let data := chunk_data start size o in
  let CC := Z.land (outputHexChunk_checksum start size o) 0xff in
  (LL + AAAA_high + AAAA_low + Z_sum data + CC) mod 256 = 0
  ∧ outputHexChunk start size o
    = ":" +:+ fmt_x 2 LL +:+ fmt_x 4 start +:+ "00" +:+ hex_text data
      +:+ fmt_x 2 CC +:+ newline
  ∧ (start = 0 → size = 2 → data = [1; 2] →
     CC = 0xFB
     ∧ outputHexChunk start size o = ":020000000102fb" +:+ newline).
Proof.
  intros Hs Hz Hb LL AAAA_high AAAA_low data CC.
  destruct (outputHexChunk_eq start size o Hs Hz Hb) as [Ec Et].
  fold AAAA_high AAAA_low data in Ec, Et. fold CC in Et.
  assert ((LL + AAAA_high + AAAA_low + Z_sum data + CC) mod 256 = 0) as Hr.
  { unfold CC. rewrite Ec. change 0xff with (Z.ones 8).
    rewrite Z.land_ones by lia. change (2 ^ 8) with 256.
    rewrite Zplus_mod_idemp_r. unfold LL.
    replace (_ + _) with 0 by lia. done. }
  split; [exact Hr |]. split; [exact Et |].
  intros -> -> Hd. rewrite Et. unfold CC. rewrite Ec.
  unfold LL, AAAA_high, AAAA_low. rewrite Hd. split; reflexivity.
Qed.

(** The record writer writes the data record of the format. *)
Lemma outputHexChunk_record (start size : Z) (o : output) :
  0 <= start → 0 <= size < 256 → start + size < 2 ^ 31 →
  outputHexChunk start size o = hex_record start size o.
Proof.
  intros Hs Hz Hb.
  destruct (outputHexChunk_eq start size o Hs Hz Hb) as [Ec ->].
  rewrite Ec. unfold hex_record. cbv zeta.
  assert (∀ x, Z.land x 0xff = x mod 256) as Hm.
  { intros x. change 0xff with (Z.ones 8). by rewrite Z.land_ones by lia. }
  by rewrite (Hm (- _)).
Qed.

(** What [outputHex] writes: the records of its calls of [outputHexChunk],
    then the end-of-file record. *)
Lemma outputHex_text (start amount : Z) (o : output) (calls : list (Z * Z)) :
  outputHex_calls start amount o = Some calls →
  Forall (λ c, 0 <= c.1 ∧ 0 <= c.2 < 256 ∧ c.1 + c.2 < 2 ^ 31) calls →
  outputHex start amount o = Some (hex_file calls o).
Proof.
  intros E Hall. unfold outputHex. rewrite E. cbn [mbind option_bind].
  f_equal. unfold hex_file. clear E.
  induction Hall as [|c l (H1 & H2 & H3) _ IH]; [done |].
  cbn [foldr]. rewrite IH. by rewrite outputHexChunk_record by lia.
Qed.

(** Records that are not empty lie where the indices they cover lie. *)
Lemma covered_bounds (calls : list (Z * Z)) (lo hi : Z) :
  Forall (λ j, lo <= j < hi) (covered calls) →
  Forall (λ c, 0 < c.2) calls →
  Forall (λ c, lo <= c.1 ∧ c.1 + c.2 <= hi) calls.
Proof.
  intros Hin Hpos. rewrite Forall_forall in Hin. rewrite Forall_forall in Hpos.
  apply Forall_forall. intros c Hc. specialize (Hpos c Hc). simpl in Hpos.
  assert (∀ j, c.1 <= j < c.1 + c.2 → lo <= j < hi) as Hj.
  { intros j Hj. apply Hin. unfold covered. apply list_elem_of_bind.
    exists c. split; [apply elem_of_seqZ; lia | done]. }
  pose proof (Hj c.1 ltac:(lia)). pose proof (Hj (c.1 + c.2 - 1) ltac:(lia)).
  lia.
Qed.

Lemma covered_app (l1 l2 : list (Z * Z)) :
  covered (l1 ++ l2) = covered l1 ++ covered l2.
Proof. unfold covered. apply bind_app. Qed.

Lemma covered_cons (c : Z * Z) (l : list (Z * Z)) :
  covered (c :: l) = seqZ c.1 c.2 ++ covered l.
Proof. reflexivity. Qed.

Lemma fmap_covered (f : Z → Z) (calls : list (Z * Z)) :
  f <$> covered calls = calls ≫= λ c, f <$> seqZ c.1 c.2.
Proof.
  induction calls as [|c l IH]; [done |].
  by rewrite covered_cons, fmap_app, bind_cons, IH.
Qed.

Lemma seqZ_split (m n1 n2 : Z) :
  0 <= n1 → 0 <= n2 → seqZ m (n1 + n2) = seqZ m n1 ++ seqZ (m + n1) n2.
Proof. intros. by rewrite seqZ_app. Qed.

(** The loop of [outputHex] when the fill value is 0: no byte is counted
    as empty, and a record of 64 bytes is written each time 64 bytes have
    gathered. *)
Lemma outputHex_loop_zero_fill (n : nat) (o : output) (i chunkStart : Z)
    (calls : list (Z * Z)) :
  fill_value o = 0 →
  0 <= chunkStart → 0 <= i - chunkStart <= 64 → i + Z.of_nat n < 2 ^ 31 →
  ∃ chunkStart' calls',
    outputHex_loop n o i chunkStart 0 calls
    = (i + Z.of_nat n, chunkStart', calls ++ calls')
    ∧ chunkStart <= chunkStart'
    ∧ 0 <= i + Z.of_nat n - chunkStart' <= 64
    ∧ covered calls' = seqZ chunkStart (chunkStart' - chunkStart)
    ∧ Forall (λ c, 0 < c.2 <= 64) calls'.
Proof.
  intros Hf. revert i chunkStart calls.
  induction n as [|n IH]; intros i cs calls Hcs Hi Hn.
  { exists cs, []. rewrite app_nil_r, Z.add_0_r, Z.sub_diag.
    split_and!; try done; lia. }
  cbn [outputHex_loop]. rewrite Hf.
  change (negb (0 =? 0)) with false. cbn [andb orb].
  change (0 >? maxEmpty) with false. cbv beta iota zeta.
  rewrite (int_id (i - cs)), (int_id (i + 1)) by lia.
  unfold maxChunkSize.
  destruct (i - cs >=? 64) eqn:E; zbool;
    change (negb (0 =? 0)) with false; cbn [orb]; cbv beta iota zeta.
  - assert (i - cs = 64) as E64 by lia. rewrite E64.
    change (64 >? 64) with false. cbv beta iota zeta.
    change (64 - 64) with 0. rewrite (int_id 0), Z.sub_0_r, (int_id i) by lia.
    change (to_char 64) with 64.
    destruct (IH (i + 1) i (calls ++ [(cs, 64)]))
      as (cs' & calls' & -> & Hle & Hr & Hc & Hall); [lia.. |].
    exists cs', ((cs, 64) :: calls').
    rewrite <- app_assoc. split_and!; try lia.
    + replace (i + Z.of_nat (S n)) with (i + 1 + Z.of_nat n) by lia. done.
    + rewrite covered_cons, Hc. cbn [fst snd].
      replace (cs' - cs) with (64 + (cs' - i)) by lia.
      rewrite seqZ_split by lia. repeat f_equal. lia.
    + constructor; [simpl; lia | done].
  - destruct (IH (i + 1) cs calls)
      as (cs' & calls' & -> & Hle & Hr & Hc & Hall); [lia.. |].
    exists cs', calls'. split_and!; try done; try lia.
    replace (i + Z.of_nat (S n)) with (i + 1 + Z.of_nat n) by lia. done.
Qed.

(** C10. When the fill value of the buffer is 0, the Intel HEX writer
    skips nothing: what [outputHex] writes is the text of data records
    that follow one another without a gap and carry every byte of the
    range [start, amount) once, runs of zero bytes of any length included,
    and then the end-of-file record; each data record holds between 1 and
    64 bytes. *)
Theorem hex_zero_fill_skips_nothing (start amount : Z) (o : output) :
  fill_value o = 0 →
  0 <= start <= amount → amount <= INT_MAX →
  ∃ calls,
    outputHex_calls start amount o = Some calls
    ∧ outputHex start amount o = Some (hex_file calls o)
    ∧ covered calls = seqZ start (amount - start)
    ∧ (calls ≫= λ c, chunk_data c.1 c.2 o)
      = chunk_data start (amount - start) o
    ∧ Forall (λ c, 0 < c.2 <= 64) calls.
Proof.
  intros Hf Hs Ha. unfold INT_MAX in Ha.
  assert (∃ calls, outputHex_calls start amount o = Some calls
                   ∧ covered calls = seqZ start (amount - start)
                   ∧ Forall (λ c, 0 < c.2 <= 64) calls)
    as (calls & E & Hc & Hall).
  { unfold outputHex_calls.
    destruct (amount >? INT_MAX) eqn:E; [unfold INT_MAX in E; zbool; lia |].
    rewrite (int_id start) by lia.
    destruct (outputHex_loop_zero_fill (Z.to_nat (amount - start)) o
                start start [] Hf)
      as (cs & calls & -> & Hle & Hr & Hc & Hall); [lia.. |].
    rewrite Z2Nat.id in * by lia.
    replace (start + (amount - start)) with amount in * by lia.
    rewrite (int_id (amount - cs)), (to_char_id (amount - cs)) by lia.
    destruct (amount - cs =? 0) eqn:E0; zbool; eexists; (split; [done |]).
    - simpl. split; [| done]. rewrite Hc. f_equal. lia.
    - simpl. rewrite covered_app, Hc. split.
      + rewrite covered_cons. cbn [fst snd covered mbind list_bind].
        rewrite app_nil_r.
        replace (amount - start) with ((cs - start) + (amount - cs)) by lia.
        rewrite seqZ_split by lia. repeat f_equal. lia.
      + apply Forall_app. split; [done |]. constructor; [simpl; lia | done]. }
  exists calls. split_and!; try done.
  - apply outputHex_text; [done |].
    assert (Forall (λ c, start <= c.1 ∧ c.1 + c.2 <= amount) calls) as Hin.
    { apply covered_bounds.
      - rewrite Hc. apply Forall_forall. intros j Hj%elem_of_seqZ. lia.
      - eapply Forall_impl; [exact Hall |]. simpl. intros c Hc'. lia. }
    rewrite Forall_forall in Hin. rewrite Forall_forall in Hall.
    apply Forall_forall. intros c Hc'.
    specialize (Hin c Hc'). specialize (Hall c Hc'). simpl in *. lia.
  - unfold chunk_data. by rewrite <- Hc, fmap_covered.
Qed.

(** *** The ring stays sorted *)

Lemma before_true (new_segment g : segment) :
  before new_segment g = true → segment_le g new_segment.
Proof.
  unfold before, segment_le. intros Hb.
  apply orb_true_iff in Hb as [Hb | Hb]; [zbool; lia |].
  apply andb_true_iff in Hb as [? ?]. zbool. lia.
Qed.

Lemma before_false (new_segment g : segment) :
  before new_segment g = false → segment_le new_segment g.
Proof.
  unfold before, segment_le. intros Hb.
  apply orb_false_iff in Hb as [H1 H2]. zbool.
  apply andb_false_iff in H2 as [? | ?]; zbool; lia.
Qed.

Lemma segment_le_trans (g1 g2 g3 : segment) :
  segment_le g1 g2 → segment_le g2 g3 → segment_le g1 g3.
Proof. unfold segment_le. lia. Qed.

Lemma ring_insert_perm (new_segment : segment) (l : list segment) :
  ring_insert (before new_segment) new_segment l ≡ₚ new_segment :: l.
Proof.
  induction l as [|g l IH]; [done |]. simpl.
  destruct (before new_segment g); [| done].
  rewrite IH. apply Permutation_swap.
Qed.

Lemma ring_insert_sorted (new_segment : segment) (l : list segment) :
  ring_sorted l →
  ring_sorted (ring_insert (before new_segment) new_segment l).
Proof.
  unfold ring_sorted. induction 1 as [|g l Hl IH Hg]; simpl.
  { repeat constructor. }
  destruct (before new_segment g) eqn:E.
  - constructor; [exact IH |].
    rewrite ring_insert_perm. constructor; [by apply before_true | done].
  - apply before_false in E. constructor; [by constructor |].
    constructor; [done |].
    eapply Forall_impl; [exact Hg |]. intros g'. by apply segment_le_trans.
Qed.

(** [link_segment] returns, and the ring it leaves is the sorted ring from
    before with the new segment in its place. *)
Lemma link_segment_sorted (start length : Z) (s : state) :
  intval_range (length + 1) →
  ring_sorted (ring (out s)) →
  ∃ s',
    link_segment start length s = Done tt s'
    ∧ ring_sorted (ring (out s'))
    ∧ ring (out s') ≡ₚ {| seg_start := start; seg_length := length |}
                        :: ring (out s).
Proof.
  intros Hl Hs. unfold link_segment. run.
  rewrite (intval_id_range (length + 1)) by done.
  assert ((start <? start) || (start =? start) && (length + 1 <? length)
          = false) as ->.
  { rewrite Z.ltb_irrefl, Z.eqb_refl. simpl. apply Z.ltb_ge. lia. }
  change (λ g : segment, (seg_start g <? start)
            || (seg_start g =? start) && (seg_length g <? length))
    with (before {| seg_start := start; seg_length := length |}).
  destruct (ring_walk _ _); eexists; (split; [reflexivity |]); simpl;
    (split; [by apply ring_insert_sorted | apply ring_insert_perm]).
Qed.

(** *** Segments: overlap, order of the ring, start of a segment *)

Lemma check_segment_walk_overlap (new_pc : Z) (l : list segment) :
  ring_sorted l →
  Forall (λ g, intval_range (seg_start g + seg_length g)) l →
  check_segment_walk new_pc l = Overlap ↔ Exists (inside new_pc) l.
Proof.
  unfold ring_sorted. induction 1 as [|g l Hl IH Hg]; intros Hr.
  { simpl. split; [discriminate | by intros ?%Exists_nil]. }
  apply Forall_cons in Hr as [Hr1 Hr]. simpl.
  rewrite Exists_cons. unfold inside at 1.
  rewrite (intval_id_range _ Hr1).
  destruct (seg_start g <=? new_pc) eqn:E1; zbool.
  - destruct (seg_start g + seg_length g >? new_pc) eqn:E2; zbool.
    + split; [intros _; left; lia | done].
    + rewrite (IH Hr). split; [by right | intros [? | ?]; [lia | done]].
  - split; [discriminate |]. intros [? | Hex]; [lia |].
    apply Exists_exists in Hex as (g' & Hin & Hi).
    rewrite Forall_forall in Hg. specialize (Hg g' Hin).
    unfold segment_le, inside in *. lia.
Qed.

Lemma link_segment_done (start length : Z) (s : state) :
  intval_range (length + 1) →
  link_segment start length s
  = Done tt
      (upd_out (λ o,
         set_ring (ring_insert (before {| seg_start := start;
                                          seg_length := length |})
                     {| seg_start := start; seg_length := length |} (ring o))
           (set_list_head {| seg_start := start; seg_length := length + 1 |}
              o)) s).
Proof.
  intros Hl. unfold link_segment. run.
  rewrite (intval_id_range (length + 1)) by done.
  assert ((start <? start) || (start =? start) && (length + 1 <? length)
          = false) as ->.
  { rewrite Z.ltb_irrefl, Z.eqb_refl. simpl. apply Z.ltb_ge. lia. }
  by destruct (ring_walk _ _).
Qed.

(** What [Output_end_segment] leaves: the state with a ring and a list
    head of its own. *)
Lemma Output_end_segment_done (s : state) :
  intval_range (write_idx (out s) - segment_start (out s)) →
  intval_range (write_idx (out s) - segment_start (out s) + 1) →
  ∃ r h,
    Output_end_segment s
    = Done tt (upd_out (λ o, set_ring r (set_list_head h o)) s)
    ∧ (r = ring (out s)
       ∨ (first_pass (pass s) = true
          ∧ segment_start (out s) ≠ NO_SEGMENT_START
          ∧ Z.land (segment_flags (out s)) SEGMENT_FLAG_INVISIBLE = 0
          ∧ write_idx (out s) ≠ segment_start (out s)
          ∧ r = ring_insert (before (current_segment (out s)))
                  (current_segment (out s)) (ring (out s))))
    ∧ (first_pass (pass s) = false → r = ring (out s) ∧ h = list_head (out s))
    ∧ (first_pass (pass s) = true →
       segment_start (out s) ≠ NO_SEGMENT_START →
       Z.land (segment_flags (out s)) SEGMENT_FLAG_INVISIBLE = 0 →
       write_idx (out s) ≠ segment_start (out s) →
       r = ring_insert (before (current_segment (out s)))
             (current_segment (out s)) (ring (out s)))
    ∧ (first_pass (pass s) = false
       ∨ segment_start (out s) = NO_SEGMENT_START
       ∨ Z.land (segment_flags (out s)) SEGMENT_FLAG_INVISIBLE ≠ 0
       ∨ write_idx (out s) = segment_start (out s) →
       r = ring (out s) ∧ h = list_head (out s))
    ∧ (r ≠ ring (out s) →
       h = {| seg_start := segment_start (out s);
              seg_length := write_idx (out s) - segment_start (out s) + 1 |}).
Proof.
  intros H1 H2. unfold Output_end_segment. run.
  rewrite (intval_id_range _ H1).
  destruct (first_pass (pass s)) eqn:Hp; simpl.
  2: { exists (ring (out s)), (list_head (out s)).
       split; [by destruct s as [[] ?] |]. split_and!; try done. by left. }
  destruct (segment_start (out s) =? NO_SEGMENT_START) eqn:E1; zbool.
  { exists (ring (out s)), (list_head (out s)).
    split; [by destruct s as [[] ?] |]. split_and!; try done. by left. }
  destruct (Z.land (segment_flags (out s)) SEGMENT_FLAG_INVISIBLE =? 0) eqn:E2;
    zbool; simpl.
  2: { exists (ring (out s)), (list_head (out s)).
       split; [by destruct s as [[] ?] |]. split_and!; try done. by left. }
  destruct (write_idx (out s) - segment_start (out s) =? 0) eqn:E3; zbool.
  { exists (ring (out s)), (list_head (out s)).
    split; [by destruct s as [[] ?] |]. split_and!; try done;
      [by left | lia]. }
  rewrite link_segment_done by done.
  eexists _, _. split; [reflexivity |]. simpl.
  split_and!; try done;
    [right; split_and!; try done; lia
    | intros [? | [? | [? | ?]]]; (done || lia)].
Qed.

Arguments Output_end_segment : simpl never.

Lemma mask_mod (k x b : Z) :
  0 <= k <= 30 → b = 2 ^ k →
  Z.land (intval x) (intval (b - 1)) = x mod 2 ^ k.
Proof.
  intros Hk ->. pose proof intval_bits_ge.
  rewrite land_mask by lia. apply intval_mod_pow2. lia.
Qed.

Lemma mod_pow2_range (k x : Z) : 0 <= k <= 30 → 0 <= x mod 2 ^ k < 2 ^ 30.
Proof.
  intros Hk. assert (0 < 2 ^ k) by (apply Z.pow_pos_nonneg; lia).
  assert (2 ^ k <= 2 ^ 30) by (apply Z.pow_le_mono_r; lia).
  pose proof (Z.mod_pos_bound x (2 ^ k)). lia.
Qed.

Lemma intval_range_small (z : Z) : - 2 ^ 31 <= z < 2 ^ 31 → intval_range z.
Proof.
  intros Hz. unfold intval_range. pose proof intval_bits_ge.
  assert (2 ^ 31 <= 2 ^ (intval_bits - 1)) by (apply Z.pow_le_mono_r; lia).
  lia.
Qed.

(** What [check_segment] reports. *)
Lemma check_segment_reports (new_pc : Z) (s : state) :
  intval_range (new_pc + 1) →
  ∃ l,
    check_segment new_pc s
    = Done tt (set_diagnostics (diagnostics s ++ l)
         (upd_out (set_list_head {| seg_start := new_pc + 1;
                                    seg_length := 1 |}) s))
    ∧ (l = [] ∨ l = [starts_inside s])
    ∧ (ring_sorted (ring (out s)) →
       Forall (λ g, intval_range (seg_start g + seg_length g))
         (ring (out s)) →
       (Exists (inside new_pc) (ring (out s)) → l = [starts_inside s])
       ∧ (¬ Exists (inside new_pc) (ring (out s)) → l = [])).
Proof.
  intros Hn.
  unfold check_segment, Throw_error, Throw_warning, starts_inside. run.
  rewrite (intval_id_range _ Hn).
  destruct (check_segment_walk new_pc (ring (out s))) eqn:E.
  - exists [starts_inside s]. unfold starts_inside.
    split; [by destruct (segment_warning_is_error (config s)) |].
    split; [by right |]. intros Hs Hr. split; [done |].
    intros Hne. destruct Hne. by apply (check_segment_walk_overlap new_pc _ Hs Hr).
  - exists []. rewrite app_nil_r.
    split; [by destruct s |]. split; [by left |]. intros Hs Hr.
    split; [| done].
    intros Hex. apply (check_segment_walk_overlap new_pc _ Hs Hr) in Hex.
    congruence.
  - exists []. rewrite app_nil_r.
    destruct (new_pc + 1 <=? new_pc) eqn:E1; [zbool; lia |].
    split; [by destruct s |]. split; [by left |]. intros Hs Hr.
    split; [| done].
    intros Hex. apply (check_segment_walk_overlap new_pc _ Hs Hr) in Hex.
    congruence.
Qed.

(** What [Output_start_segment] leaves: the write index moved, modulo the
    size of the buffer, the segment begun there and the writer enabled;
    [r] is the ring as [Output_end_segment] leaves it, [l] the report of
    [check_segment]. *)
Lemma Output_start_segment_done (address_change seg_flags : Z) (s : state)
    (k : Z) :
  0 <= k <= 30 → bufsize (out s) = 2 ^ k →
  intval_range (write_idx (out s) - segment_start (out s)) →
  intval_range (write_idx (out s) - segment_start (out s) + 1) →
  let idx := (write_idx (out s) + address_change) mod 2 ^ k in
  ∃ r h m l,
    (r = ring (out s)
     ∨ (write_idx (out s) ≠ segment_start (out s)
        ∧ r = ring_insert (before (current_segment (out s)))
                (current_segment (out s)) (ring (out s))))
    ∧ (first_pass (pass s) = false → r = ring (out s))
    ∧ Output_start_segment address_change seg_flags s
      = Done tt
          {| out :=
               {| bufsize := bufsize (out s);
                  buffer := buffer (out s);
                  write_idx := idx;
                  lowest_written := lowest_written (out s);
                  highest_written := highest_written (out s);
                  initvalue_set := initvalue_set (out s);
                  fill_value := fill_value (out s);
                  segment_start := idx;
                  segment_max := m;
                  segment_flags := seg_flags;
                  list_head := h;
                  ring := r;
                  xor := xor (out s) |};
             Output_byte := fn_real_output;
             CPU_state := CPU_state s;
             pseudopc_current_context := pseudopc_current_context s;
             output_format := output_format s;
             output_filename := output_filename s;
             report := report s;
             pass := pass s;
             config := config s;
             diagnostics := diagnostics s ++ l;
             stores := stores s |}
    ∧ (first_pass (pass s) = false → m = segment_max (out s) ∧ l = [])
    ∧ (first_pass (pass s) = true →
       m = next_max idx (set_ring r (out s)))
    ∧ (Z.land seg_flags SEGMENT_FLAG_OVERLAY ≠ 0 → l = [])
    ∧ (l = [] ∨ l = [starts_inside s])
    ∧ (first_pass (pass s) = true →
       Z.land seg_flags SEGMENT_FLAG_OVERLAY = 0 →
       ring_sorted r →
       Forall (λ g, intval_range (seg_start g + seg_length g)) r →
       (Exists (inside idx) r → l = [starts_inside s])
       ∧ (¬ Exists (inside idx) r → l = [])).
Proof.
  intros Hk Hb H1 H2 idx.
  destruct (Output_end_segment_done s H1 H2) as (r & h0 & E & Hr & Hlr & _).
  assert (r = ring (out s)
          ∨ (write_idx (out s) ≠ segment_start (out s)
             ∧ r = ring_insert (before (current_segment (out s)))
                     (current_segment (out s)) (ring (out s)))) as Hr'
    by (destruct Hr as [-> | (_ & _ & _ & ? & ->)]; [by left | by right]).
  assert (first_pass (pass s) = false → r = ring (out s)) as Hlr'
    by (intros Hp; by destruct (Hlr Hp)).
  exists r. unfold Output_start_segment.
  rewrite (bind_Done _ _ _ _ _ E). run.
  rewrite (mask_mod k) by done. fold idx.
  pose proof (mod_pow2_range k (write_idx (out s) + address_change) Hk) as Hi.
  fold idx in Hi.
  assert (intval_range (idx + 1)) as Hi1 by (apply intval_range_small; lia).
  destruct (first_pass (pass s)) eqn:Hp; simpl.
  2: { exists h0, (segment_max (out s)), []. rewrite app_nil_r.
       split_and!; try done. by left. }
  destruct (Z.land seg_flags SEGMENT_FLAG_OVERLAY =? 0) eqn:Ho; zbool; simpl.
  - edestruct (check_segment_reports idx) as (l & El & Hl & Hex);
      [exact Hi1 |].
    rewrite El. simpl.
    rewrite find_segment_max_done by (rewrite intval_id_range; [lia | done]).
    simpl. rewrite (intval_id_range _ Hi1).
    eexists _, _, l. split; [done |]. split; [done |].
    split; [reflexivity |]. split_and!; done.
  - rewrite find_segment_max_done by (rewrite intval_id_range; [lia | done]).
    simpl. rewrite (intval_id_range _ Hi1).
    eexists _, _, []. rewrite app_nil_r. split; [done |]. split; [done |].
    split; [reflexivity |]. split_and!; try done. by left.
Qed.

Arguments Output_start_segment : simpl never.

Lemma bounded_ranges (k : Z) (o : output) :
  bounded k o →
  intval_range (write_idx o)
  ∧ intval_range (write_idx o - segment_start o)
  ∧ intval_range (write_idx o - segment_start o + 1).
Proof.
  unfold bounded, NO_SEGMENT_START. intros (Hk & Hb & Hw & Hs).
  assert (0 < 2 ^ k) by (apply Z.pow_pos_nonneg; lia).
  assert (2 ^ k <= 2 ^ 30) by (apply Z.pow_le_mono_r; lia).
  split_and!; apply intval_range_small; lia.
Qed.

(** X1. [check_segment] returns for every address that has a successor,
    and reports that the segment starts inside another one exactly when
    the address lies inside a segment of the ring: once, as a warning or
    as an error according to the configuration.  It changes nothing else
    but the list head. *)
Theorem check_segment_overlap (new_pc : Z) (s : state) :
  intval_range (new_pc + 1) →
  ring_sorted (ring (out s)) →
  ends_in_range (ring (out s)) →
  ∃ l,
    check_segment new_pc s
    = Done tt (set_diagnostics (diagnostics s ++ l)
         (upd_out (set_list_head {| seg_start := new_pc + 1;
                                    seg_length := 1 |}) s))
    ∧ (Exists (inside new_pc) (ring (out s)) → l = [starts_inside s])
    ∧ (¬ Exists (inside new_pc) (ring (out s)) → l = []).
Proof.
  intros Hn Hs Hr.
  destruct (check_segment_reports new_pc s Hn) as (l & E & _ & Hl).
  exists l. split; [exact E |]. by apply Hl.
Qed.

(** X2. [Output_end_segment] returns and keeps the ring in order: sorted,
    without a segment of length 0, every segment ending at a value of
    [intval_t].  In the first pass a visible segment that is not empty is
    added to the ring, from the start of the segment to the write index.
    In every other case (a later pass, no segment begun, an invisible
    segment, an empty segment) it changes nothing at all, so that nothing
    else is ever added; and when it adds the segment, the ring and the
    list head, which is the sentinel of the search, are all it changes. *)
Theorem Output_end_segment_ring (s : state) (k : Z) :
  bounded k (out s) →
  ring_sorted (ring (out s)) →
  ends_in_range (ring (out s)) →
  Forall (λ g, seg_length g ≠ 0) (ring (out s)) →
  ∃ s',
    Output_end_segment s = Done tt s'
    ∧ ring_sorted (ring (out s'))
    ∧ ends_in_range (ring (out s'))
    ∧ Forall (λ g, seg_length g ≠ 0) (ring (out s'))
    ∧ (first_pass (pass s) = false → s' = s)
    ∧ (first_pass (pass s) = true →
       segment_start (out s) ≠ NO_SEGMENT_START →
       Z.land (segment_flags (out s)) SEGMENT_FLAG_INVISIBLE = 0 →
       write_idx (out s) ≠ segment_start (out s) →
       ring (out s') ≡ₚ current_segment (out s) :: ring (out s))
    ∧ (ring (out s') = ring (out s)
       ∨ ring (out s') ≡ₚ current_segment (out s) :: ring (out s))
    ∧ (first_pass (pass s) = false
       ∨ segment_start (out s) = NO_SEGMENT_START
       ∨ Z.land (segment_flags (out s)) SEGMENT_FLAG_INVISIBLE ≠ 0
       ∨ write_idx (out s) = segment_start (out s) →
       s' = s)
    ∧ (∃ h, s' = upd_out (λ o, set_ring (ring (out s')) (set_list_head h o)) s).
Proof.
  intros Hbd Hs He Hl.
  destruct (bounded_ranges k _ Hbd) as (Hw & H1 & H2).
  destruct (Output_end_segment_done s H1 H2)
    as (r & h & E & Hr & Hlater & Hf & Hnot & _).
  eexists. split; [exact E |]. simpl.
  assert (ring_sorted r ∧ ends_in_range r ∧ Forall (λ g, seg_length g ≠ 0) r)
    as (? & ? & ?).
  { destruct Hr as [-> | (_ & _ & _ & Hne & ->)]; [done |].
    split; [by apply ring_insert_sorted |].
    unfold ends_in_range. rewrite !ring_insert_perm.
    split; (constructor; [simpl | done]); [| lia].
    by replace (segment_start (out s)
                + (write_idx (out s) - segment_start (out s)))
         with (write_idx (out s)) by lia. }
  split_and!; try done.
  - intros Hp. destruct (Hlater Hp) as [-> ->]. by destruct s as [[] ?].
  - intros. rewrite Hf by done. apply ring_insert_perm.
  - destruct Hr as [-> | (_ & _ & _ & _ & ->)]; [by left | right].
    apply ring_insert_perm.
  - intros Hc. destruct (Hnot Hc) as [-> ->]. by destruct s as [[] ?].
  - by exists h.
Qed.

(** X3. [Output_start_segment] returns with the writer enabled and the
    write index moved by [address_change], modulo the size of the buffer;
    the new segment starts there.  The buffer is as it was.  In the first
    pass the limit of the segment is set from the ring, and an overlap is
    reported exactly when the new start lies inside a segment of the ring,
    unless the segment is an overlay; in a later pass nothing is reported
    and the limit and the ring stay. *)
Theorem Output_start_segment_begins (address_change seg_flags : Z) (s : state)
    (k : Z) :
  bounded k (out s) →
  ring_sorted (ring (out s)) →
  ends_in_range (ring (out s)) →
  ∃ s',
    Output_start_segment address_change seg_flags s = Done tt s'
    ∧ Output_byte s' = fn_real_output
    ∧ write_idx (out s') = (write_idx (out s) + address_change) mod 2 ^ k
    ∧ segment_start (out s') = write_idx (out s')
    ∧ segment_flags (out s') = seg_flags
    ∧ bounded k (out s')
    ∧ buffer (out s') = buffer (out s)
    ∧ stores s' = stores s
    ∧ (first_pass (pass s) = false →
       diagnostics s' = diagnostics s
       ∧ segment_max (out s') = segment_max (out s)
       ∧ ring (out s') = ring (out s))
    ∧ (first_pass (pass s) = true →
       segment_max (out s') = next_max (write_idx (out s')) (out s')
       ∧ (Z.land seg_flags SEGMENT_FLAG_OVERLAY ≠ 0 →
          diagnostics s' = diagnostics s)
       ∧ (Z.land seg_flags SEGMENT_FLAG_OVERLAY = 0 →
          Exists (inside (write_idx (out s'))) (ring (out s')) →
          diagnostics s' = diagnostics s ++ [starts_inside s])
       ∧ (Z.land seg_flags SEGMENT_FLAG_OVERLAY = 0 →
          ¬ Exists (inside (write_idx (out s'))) (ring (out s')) →
          diagnostics s' = diagnostics s)).
Proof.
  intros Hbd Hs He.
  destruct (bounded_ranges k _ Hbd) as (Hw & H1 & H2).
  pose proof Hbd as (Hk & Hb & Hwi & Hss).
  destruct (Output_start_segment_done address_change seg_flags s k Hk Hb H1 H2)
    as (r & h & m & l & Hr & Hlr & E & Hlater & Hm & Hov & _ & Hl).
  pose proof (mod_pow2_range k (write_idx (out s) + address_change) Hk) as Hi.
  pose proof (Z.mod_pos_bound (write_idx (out s) + address_change) (2 ^ k))
    as Hi'.
  eexists. split; [exact E |]. simpl.
  assert (ring_sorted r ∧ ends_in_range r) as [Hsr Her].
  { destruct Hr as [-> | (Hne & ->)]; [done |].
    split; [by apply ring_insert_sorted |].
    unfold ends_in_range. rewrite !ring_insert_perm.
    constructor; [simpl | done].
    by replace (segment_start (out s)
                + (write_idx (out s) - segment_start (out s)))
         with (write_idx (out s)) by lia. }
  split_and!; try done.
  - unfold bounded, NO_SEGMENT_START. simpl. rewrite Hb. lia.
  - intros Hp. destruct (Hlater Hp) as [-> ->]. rewrite app_nil_r.
    split_and!; try done. by apply Hlr.
  - intros Hp. split_and!.
    + by rewrite (Hm Hp).
    + intros Ho. by rewrite (Hov Ho), app_nil_r.
    + intros Ho Hex. destruct (Hl Hp Ho Hsr Her) as [Hy _].
      by rewrite Hy.
    + intros Ho Hex. destruct (Hl Hp Ho Hsr Her) as [_ Hn].
      by rewrite Hn, app_nil_r.
Qed.

(** *** Closing the contexts and setting the program counter *)

Arguments pseudopc_end_all : simpl never.
Arguments pseudopc_ends : simpl never.

Lemma Z_sum_cons (x : Z) (l : list Z) : Z_sum (x :: l) = x + Z_sum l.
Proof. reflexivity. Qed.

Lemma sub_mod_idemp (k a b : Z) :
  (a mod 2 ^ k - b) mod 2 ^ k = (a - b) mod 2 ^ k.
Proof. apply Zminus_mod_idemp_l. Qed.

(** The loop of [pseudopc_end_all] leaves with the chain empty: as many
    [pseudopc_end] as there are contexts. *)
Lemma pseudopc_end_all_loop_done (k : Z) (c : list pseudopc) :
  0 <= k <= 30 →
  ∀ s, bufsize (out s) = 2 ^ k → pseudopc_current_context s = c →
  ∃ n',
    pseudopc_end_all_loop (length c) s
    = Done tt (set_pseudopc_current_context [] (upd_pc (λ _, n') s))
    ∧ pseudopc_ends (length c) s
      = Done tt (set_pseudopc_current_context [] (upd_pc (λ _, n') s))
    ∧ flags n' = flags (pc (CPU_state s))
    ∧ addr_refs n' = addr_refs (pc (CPU_state s))
    ∧ match c with
      | [] => n' = pc (CPU_state s)
      | _ :: _ =>
          val_intval n'
          = (val_intval (pc (CPU_state s)) - offsets c) mod 2 ^ k
          ∧ last (outer_ntype <$> c) = Some (ntype n')
      end.
Proof.
  intros Hk. induction c as [|c0 c IH]; intros s Hb Hc.
  { exists (pc (CPU_state s)).
    destruct s as [o fn [[nt fl v ar] add] ctx fmt fname rep pa cfg dg st].
    simpl in Hc. subst ctx. split_and!; reflexivity. }
  pose proof (pseudopc_end_eq c0 s c Hc) as Ee.
  set (s1 := set_pseudopc_current_context c
               (upd_pc (λ n, set_ntype (outer_ntype c0)
                  (set_val_intval
                     (Z.land (intval (val_intval n - offset c0))
                        (intval (bufsize (out s) - 1))) n)) s)) in Ee.
  destruct (IH s1) as (n' & E1 & E2 & Hf & Ha & Hv);
    [by destruct s as [[] ?] | by destruct s as [[] ?] |].
  exists n'.
  assert (set_pseudopc_current_context [] (upd_pc (λ _, n') s1)
          = set_pseudopc_current_context [] (upd_pc (λ _, n') s)) as Es
    by (by destruct s as [o fn [[nt fl v ar] add] ctx fmt fname rep pa cfg dg st]).
  rewrite Es in E1, E2.
  assert (val_intval (pc (CPU_state s1))
          = (val_intval (pc (CPU_state s)) - offset c0) mod 2 ^ k) as Ev.
  { subst s1.
    destruct s as [o fn [[nt fl v ar] add] ctx fmt fname rep pa cfg dg st].
    simpl in *. by apply mask_mod. }
  assert (ntype (pc (CPU_state s1)) = outer_ntype c0) as En
    by (by destruct s as [o fn [[nt fl v ar] add] ctx fmt fname rep pa cfg dg st]).
  split_and!.
  - simpl. unfold mbind at 1, M_bind at 1, get. rewrite Hc.
    by rewrite (bind_Done _ _ _ _ _ Ee).
  - simpl length. rewrite pseudopc_ends_S.
    by rewrite (bind_Done _ _ _ _ _ Ee).
  - rewrite Hf. by destruct s as [o fn [[nt fl v ar] add] ctx fmt fname rep pa cfg dg st].
  - rewrite Ha. by destruct s as [o fn [[nt fl v ar] add] ctx fmt fname rep pa cfg dg st].
  - unfold offsets in *. rewrite fmap_cons, Z_sum_cons.
    destruct c as [|c1 c].
    + subst n'. rewrite Ev. f_equal. simpl. lia.
    + destruct Hv as [Hv _]. rewrite Hv, Ev, sub_mod_idemp. f_equal. lia.
  - destruct c as [|c1 c].
    + subst n'. by rewrite En.
    + destruct Hv as [_ Hl]. by rewrite fmap_cons, last_cons, Hl.
Qed.

Lemma pseudopc_end_all_done (k : Z) (s : state) :
  0 <= k <= 30 → bufsize (out s) = 2 ^ k →
  ∃ n',
    pseudopc_end_all s
    = Done tt (set_pseudopc_current_context [] (upd_pc (λ _, n') s))
    ∧ pseudopc_ends (length (pseudopc_current_context s)) s
      = Done tt (set_pseudopc_current_context [] (upd_pc (λ _, n') s))
    ∧ flags n' = flags (pc (CPU_state s))
    ∧ addr_refs n' = addr_refs (pc (CPU_state s))
    ∧ match pseudopc_current_context s with
      | [] => n' = pc (CPU_state s)
      | _ :: _ =>
          val_intval n'
          = (val_intval (pc (CPU_state s))
             - offsets (pseudopc_current_context s)) mod 2 ^ k
          ∧ last (outer_ntype <$> pseudopc_current_context s)
            = Some (ntype n')
      end.
Proof.
  intros Hk Hb.
  apply (pseudopc_end_all_loop_done k (pseudopc_current_context s) Hk s Hb).
  done.
Qed.

(** X4. [pseudopc_end_all] always returns, and leaves no context open: it
    does what as many calls of [pseudopc_end] as there are contexts do,
    never finds the bug of an unopened block, and changes nothing but the
    program counter and the chain: the state it leaves is the one from
    before with the chain empty and the program counter replaced, and of
    the program counter the flags and the count of address references
    stay.  When a context was open, the program counter is the one from
    before less the offsets of all the contexts, modulo the size of the
    buffer, and its type is the one that the outermost context had
    saved. *)
Theorem pseudopc_end_all_closes (s : state) (k : Z) :
  0 <= k <= 30 → bufsize (out s) = 2 ^ k →
  ∃ s',
    pseudopc_end_all s = Done tt s'
    ∧ pseudopc_ends (length (pseudopc_current_context s)) s = Done tt s'
    ∧ pseudopc_current_context s' = []
    ∧ out s' = out s
    ∧ diagnostics s' = diagnostics s
    ∧ (pseudopc_current_context s = [] → s' = s)
    ∧ (pseudopc_current_context s ≠ [] →
       val_intval (pc (CPU_state s'))
       = (val_intval (pc (CPU_state s))
          - offsets (pseudopc_current_context s)) mod 2 ^ k
       ∧ last (outer_ntype <$> pseudopc_current_context s)
         = Some (ntype (pc (CPU_state s'))))
    ∧ s' = set_pseudopc_current_context []
             (upd_pc (λ _, pc (CPU_state s')) s)
    ∧ flags (pc (CPU_state s')) = flags (pc (CPU_state s))
    ∧ addr_refs (pc (CPU_state s')) = addr_refs (pc (CPU_state s)).
Proof.
  intros Hk Hb.
  destruct (pseudopc_end_all_done k s Hk Hb) as (n' & E1 & E2 & Hfl & Har & Hv).
  eexists. split; [exact E1 |]. split; [exact E2 |].
  split_and!; try (by destruct s as [o fn [[nt fl v ar] add] ?]).
  - intros Hc. rewrite Hc in Hv. subst n'.
    destruct s as [o fn [[nt fl v ar] add] ctx fmt fname rep pa cfg dg st].
    simpl in *. by subst ctx.
  - intros Hc. destruct (pseudopc_current_context s) eqn:E; [done |].
    by destruct s as [o fn [[nt fl v ar] add] ctx fmt fname rep pa cfg dg st].
Qed.

Lemma vcpu_set_pc_plain (new_pc seg_flags : Z) (s : state) :
  pseudopc_current_context s = []
  ∨ (VER_SHORTER_SETPC_WARNING <= wanted_version (config s)
     ∧ VER_DISABLED_OBSOLETE_STUFF <= wanted_version (config s)) →
  vcpu_set_pc new_pc seg_flags s
  = Output_start_segment (intval (new_pc - val_intval (pc (CPU_state s))))
      seg_flags (upd_pc (defined_pc new_pc) s).
Proof.
  intros Hc. unfold vcpu_set_pc. run.
  destruct (pseudopc_current_context s) eqn:E; [by rewrite <- E |].
  destruct Hc as [? | [H1 H2]]; [done |].
  destruct (wanted_version (config s) <? VER_SHORTER_SETPC_WARNING) eqn:E1;
    [zbool; lia |].
  destruct (wanted_version (config s) <? VER_DISABLED_OBSOLETE_STUFF) eqn:E2;
    [zbool; lia |].
  by rewrite <- E.
Qed.

Lemma vcpu_set_pc_legacy (new_pc seg_flags : Z) (s : state) :
  pseudopc_current_context s ≠ [] →
  wanted_version (config s) < VER_SHORTER_SETPC_WARNING
  ∨ wanted_version (config s) < VER_DISABLED_OBSOLETE_STUFF →
  vcpu_set_pc new_pc seg_flags s
  = match pseudopc_end_all
            (set_diagnostics (diagnostics s ++ [still_active (config s)]) s)
    with
    | Done _ s1 =>
        Output_start_segment
          (intval (new_pc - val_intval (pc (CPU_state s1)))) seg_flags
          (upd_pc (defined_pc new_pc) s1)
    | Stop why s1 => Stop why s1
    end.
Proof.
  intros Hc Hv. unfold vcpu_set_pc, still_active, Throw_warning. run.
  destruct (pseudopc_current_context s) eqn:E; [done |]. rewrite <- ?E.
  destruct (wanted_version (config s) <? VER_SHORTER_SETPC_WARNING) eqn:E1;
    simpl.
  { by destruct (pseudopc_end_all _). }
  destruct (wanted_version (config s) <? VER_DISABLED_OBSOLETE_STUFF) eqn:E2;
    simpl; [| zbool; lia].
  by destruct (pseudopc_end_all _).
Qed.

Lemma displaced_mod (k w p q : Z) :
  ((w + (p - q)) mod 2 ^ k - p) mod 2 ^ k = (w - q) mod 2 ^ k.
Proof. rewrite sub_mod_idemp. f_equal. lia. Qed.

(** X5. [vcpu_set_pc], when no context of offset assembly is open or the
    wanted version is a current one, returns with the program counter set
    to [new_pc], an integer that counts as an address, with the writer
    enabled and a new segment begun.  The write index has moved by as much
    as the program counter, modulo the size of the buffer, so that the
    difference of the two is the one from before.  The buffer, the chain
    of contexts and the size of the statement are as they were. *)
Theorem vcpu_set_pc_moves_both (new_pc seg_flags : Z) (s : state) (k : Z) :
  bounded k (out s) →
  pseudopc_current_context s = []
  ∨ (VER_SHORTER_SETPC_WARNING <= wanted_version (config s)
     ∧ VER_DISABLED_OBSOLETE_STUFF <= wanted_version (config s)) →
  ∃ s',
    vcpu_set_pc new_pc seg_flags s = Done tt s'
    ∧ pc (CPU_state s') = defined_pc new_pc (pc (CPU_state s))
    ∧ add_to_pc (CPU_state s') = add_to_pc (CPU_state s)
    ∧ Output_byte s' = fn_real_output
    ∧ write_idx (out s')
      = (write_idx (out s) + (new_pc - val_intval (pc (CPU_state s))))
        mod 2 ^ k
    ∧ (write_idx (out s') - val_intval (pc (CPU_state s'))) mod 2 ^ k
      = (write_idx (out s) - val_intval (pc (CPU_state s))) mod 2 ^ k
    ∧ segment_start (out s') = write_idx (out s')
    ∧ segment_flags (out s') = seg_flags
    ∧ bounded k (out s')
    ∧ pseudopc_current_context s' = pseudopc_current_context s
    ∧ buffer (out s') = buffer (out s)
    ∧ stores s' = stores s.
Proof.
  intros Hbd Hc. rewrite (vcpu_set_pc_plain _ _ _ Hc).
  destruct (bounded_ranges k _ Hbd) as (Hw & H1 & H2).
  pose proof Hbd as (Hk & Hb & Hwi & Hss).
  set (s0 := upd_pc (defined_pc new_pc) s).
  destruct (Output_start_segment_done
              (intval (new_pc - val_intval (pc (CPU_state s)))) seg_flags s0 k)
    as (r & h & m & l & _ & _ & E & _); [done.. |].
  rewrite E. clear E. eexists. split; [reflexivity |]. simpl.
  pose proof intval_bits_ge.
  assert ((write_idx (out s)
           + intval (new_pc - val_intval (pc (CPU_state s)))) mod 2 ^ k
          = (write_idx (out s) + (new_pc - val_intval (pc (CPU_state s))))
            mod 2 ^ k) as Ei.
  { rewrite Zplus_mod, intval_mod_pow2, <- Zplus_mod by lia. done. }
  rewrite Ei.
  pose proof (Z.mod_pos_bound (write_idx (out s)
                + (new_pc - val_intval (pc (CPU_state s)))) (2 ^ k)) as Hi.
  assert (0 < 2 ^ k) by (apply Z.pow_pos_nonneg; lia).
  split_and!; try done.
  - apply displaced_mod.
  - unfold bounded, NO_SEGMENT_START. simpl. rewrite Hb. lia.
Qed.

(** X6. Under a wanted version from before [VER_SHORTER_SETPC_WARNING] or
    [VER_DISABLED_OBSOLETE_STUFF], [vcpu_set_pc] with offset assembly still
    active warns once, in the words of that version, closes all contexts
    and then sets the program counter.  After the warning it reports
    nothing, or once that the segment starts inside another one, which it
    does in the first pass only and never for an overlay.  The write index
    moves by the distance of [new_pc] from the real program counter, the
    one that the closed contexts give back. *)
Theorem vcpu_set_pc_closes_contexts (new_pc seg_flags : Z) (s : state) (k : Z) :
  bounded k (out s) →
  pseudopc_current_context s ≠ [] →
  wanted_version (config s) < VER_SHORTER_SETPC_WARNING
  ∨ wanted_version (config s) < VER_DISABLED_OBSOLETE_STUFF →
  ∃ s' l,
    vcpu_set_pc new_pc seg_flags s = Done tt s'
    ∧ pseudopc_current_context s' = []
    ∧ diagnostics s' = diagnostics s ++ still_active (config s) :: l
    ∧ val_intval (pc (CPU_state s')) = new_pc
    ∧ ntype (pc (CPU_state s')) = NUMTYPE_INT
    ∧ Output_byte s' = fn_real_output
    ∧ write_idx (out s')
      = (write_idx (out s)
         + (new_pc - (val_intval (pc (CPU_state s))
                      - offsets (pseudopc_current_context s)))) mod 2 ^ k
    ∧ (l = [] ∨ l = [starts_inside s])
    ∧ (first_pass (pass s) = false → l = [])
    ∧ (Z.land seg_flags SEGMENT_FLAG_OVERLAY ≠ 0 → l = []).
Proof.
  intros Hbd Hc Hv. rewrite (vcpu_set_pc_legacy _ _ _ Hc Hv).
  destruct (bounded_ranges k _ Hbd) as (Hw & H1 & H2).
  pose proof Hbd as (Hk & Hb & Hwi & Hss).
  set (s0 := set_diagnostics (diagnostics s ++ [still_active (config s)]) s).
  destruct (pseudopc_end_all_done k s0 Hk Hb) as (n' & E & _ & _ & _ & Hn).
  rewrite E. clear E.
  set (s1 := upd_pc (defined_pc new_pc)
               (set_pseudopc_current_context [] (upd_pc (λ _, n') s0))).
  destruct (Output_start_segment_done
              (intval (new_pc - val_intval n')) seg_flags s1 k)
    as (r & h & m & l & _ & _ & E & Hlater & _ & Hov & Hl & _); [done.. |].
  change (val_intval (pc (CPU_state (set_pseudopc_current_context []
            (upd_pc (λ _, n') s0))))) with (val_intval n').
  fold s1. rewrite E. clear E. eexists _, l. split; [reflexivity |]. simpl.
  split_and!; try done; [| | intros Hp; by destruct (Hlater Hp)].
  - by rewrite <- app_assoc.
  - change (pseudopc_current_context s0) with (pseudopc_current_context s)
      in Hn.
    change (pc (CPU_state s0)) with (pc (CPU_state s)) in Hn.
    destruct (pseudopc_current_context s) eqn:Ec; [done |].
    destruct Hn as [Hn _]. pose proof intval_bits_ge.
    rewrite Zplus_mod, intval_mod_pow2, <- Zplus_mod by lia.
    rewrite Zplus_mod, Zminus_mod, Hn, Z.mod_mod, <- Zminus_mod, <- Zplus_mod
      by (apply Z.pow_nonzero; lia).
    done.
Qed.

(** *** The write index follows the program counter *)

Lemma bind_inv {A B : Type} (m : M A) (k : A → M B) (s s'' : state) (b : B) :
  (m ≫= k) s = Done b s'' →
  ∃ a s', m s = Done a s' ∧ k a s' = Done b s''.
Proof.
  unfold mbind, M_bind. destruct (m s) as [a s'|]; [| done]. eauto.
Qed.

Lemma preserves_Done {A : Type} (Q : relation state) (m : M A)
    (s s' : state) (a : A) :
  preserves Q m → m s = Done a s' → Q s s'.
Proof. intros Hm E. specialize (Hm s). by rewrite E in Hm. Qed.

#[local] Instance same_position_preorder : PreOrder same_position.
Proof.
  split.
  - by intros s.
  - intros s1 s2 s3 (? & ? & ? & ?) (? & ? & ? & ?).
    unfold same_position. split_and!; congruence.
Qed.

Lemma find_segment_max_position (new_pc : Z) :
  preserves same_position (find_segment_max new_pc).
Proof. unfold find_segment_max. preserve; by split. Qed.
#[local] Hint Resolve find_segment_max_position : preserves.

Lemma Throw_warning_position (msg : string) :
  preserves same_position (Throw_warning msg).
Proof. unfold Throw_warning. preserve. by split. Qed.
#[local] Hint Resolve Throw_warning_position : preserves.

Lemma Throw_error_position (msg : string) :
  preserves same_position (Throw_error msg).
Proof. unfold Throw_error. preserve. by split. Qed.
#[local] Hint Resolve Throw_error_position : preserves.

Lemma border_crossed_position (off : Z) :
  preserves same_position (border_crossed off).
Proof. unfold border_crossed, Throw_serious_error. preserve. Qed.
#[local] Hint Resolve border_crossed_position : preserves.

Lemma report_binary_position (v : Z) :
  preserves same_position (report_binary v).
Proof. unfold report_binary. preserve; by split. Qed.
#[local] Hint Resolve report_binary_position : preserves.

Lemma check_segment_position (new_pc : Z) :
  preserves same_position (check_segment new_pc).
Proof. unfold check_segment. cbv zeta. preserve; by split. Qed.
#[local] Hint Resolve check_segment_position : preserves.

Lemma link_segment_position (start length : Z) :
  preserves same_position (link_segment start length).
Proof.
  unfold link_segment. cbv zeta.
  preserve_step; [preserve; by split |].
  preserve_step; [preserve |].
  destruct (ring_walk _ _); preserve; by split.
Qed.
#[local] Hint Resolve link_segment_position : preserves.

Lemma Output_end_segment_position :
  preserves same_position Output_end_segment.
Proof. unfold Output_end_segment. preserve. Qed.
#[local] Hint Resolve Output_end_segment_position : preserves.

Lemma wrap_mod_pow2 (w k x : Z) :
  0 <= k <= w → 0 < w → wrap w x mod 2 ^ k = x mod 2 ^ k.
Proof.
  intros Hk Hw.
  assert (2 ^ w = 2 ^ (w - k) * 2 ^ k) as E
    by (rewrite <- Z.pow_add_r by lia; f_equal; lia).
  assert (0 < 2 ^ w) by (apply Z.pow_pos_nonneg; lia).
  pose proof (wrap_mod w x Hw) as Hm.
  pose proof (Z.div_mod (wrap w x) (2 ^ w)) as H1.
  pose proof (Z.div_mod x (2 ^ w)) as H2.
  set (q1 := wrap w x / 2 ^ w) in *.
  set (q2 := x / 2 ^ w) in *.
  assert (wrap w x = x + ((q1 - q2) * 2 ^ (w - k)) * 2 ^ k) as ->.
  { rewrite <- Z.mul_assoc, <- E. lia. }
  apply Z_mod_plus_full.
Qed.

Lemma mod_congr (m a b : Z) : (∃ q, a = b + q * m) → a mod m = b mod m.
Proof. intros [q ->]. apply Z_mod_plus_full. Qed.

Lemma mod_q (m a b : Z) : m ≠ 0 → a mod m = b mod m → ∃ q, a = b + q * m.
Proof.
  intros Hm E. exists (a / m - b / m).
  pose proof (Z.div_mod a m Hm). pose proof (Z.div_mod b m Hm). lia.
Qed.

Lemma intval_q (k x : Z) : 0 <= k <= 30 → ∃ q, intval x = x + q * 2 ^ k.
Proof.
  intros Hk. pose proof intval_bits_ge.
  apply mod_q; [apply Z.pow_nonzero; lia |].
  apply wrap_mod_pow2; lia.
Qed.

Lemma int_q (k x : Z) : 0 <= k <= 30 → ∃ q, int x = x + q * 2 ^ k.
Proof.
  intros Hk. apply mod_q; [apply Z.pow_nonzero; lia |].
  apply wrap_mod_pow2; lia.
Qed.

Lemma mask_q (k x b : Z) :
  0 <= k <= 30 → b = 2 ^ k →
  ∃ q, Z.land (intval x) (intval (b - 1)) = x + q * 2 ^ k.
Proof.
  intros Hk Hb. rewrite (mask_mod k) by done.
  apply mod_q; [apply Z.pow_nonzero; lia |]. apply Z.mod_mod.
  apply Z.pow_nonzero; lia.
Qed.

Lemma real_output_rest_position (byte : Z) (s s1 : state) :
  real_output_rest byte s = Done tt s1 →
  write_idx (out s1) = intval (write_idx (out s) + 1)
  ∧ bufsize (out s1) = bufsize (out s)
  ∧ pc (CPU_state s1) = pc (CPU_state s)
  ∧ add_to_pc (CPU_state s1) = int (add_to_pc (CPU_state s) + 1)
  ∧ pseudopc_current_context s1 = pseudopc_current_context s.
Proof.
  unfold real_output_rest. run.
  destruct (write_idx (out s) <? lowest_written (out s)); simpl;
    destruct (write_idx (out s) >? highest_written (out s)); simpl;
    (destruct (report_fd (report s));
     [edestruct report_binary_done as [r ->] |]);
    intros [= <-]; done.
Qed.

Lemma real_output_position (byte : Z) (s s1 : state) :
  real_output byte s = Done tt s1 →
  write_idx (out s1) = intval (write_idx (out s) + 1)
  ∧ bufsize (out s1) = bufsize (out s)
  ∧ pc (CPU_state s1) = pc (CPU_state s)
  ∧ add_to_pc (CPU_state s1) = int (add_to_pc (CPU_state s) + 1)
  ∧ pseudopc_current_context s1 = pseudopc_current_context s.
Proof.
  rewrite real_output_unfold. intros ([] & s0 & E0 & E1)%bind_inv.
  apply real_output_rest_position in E1 as (-> & -> & -> & -> & ->).
  eapply (preserves_Done same_position) in E0 as (-> & -> & -> & ->);
    [done |].
  preserve.
Qed.

Lemma Output_byte_call_position (byte : Z) (s s1 : state) :
  Output_byte_call byte s = Done tt s1 →
  write_idx (out s1) = intval (write_idx (out s) + 1)
  ∧ bufsize (out s1) = bufsize (out s)
  ∧ pc (CPU_state s1) = pc (CPU_state s)
  ∧ add_to_pc (CPU_state s1) = int (add_to_pc (CPU_state s) + 1)
  ∧ pseudopc_current_context s1 = pseudopc_current_context s.
Proof.
  destruct (Output_byte s) eqn:Hfn.
  - rewrite Output_byte_call_no, no_output_eq by done.
    intros E. by apply real_output_position in E.
  - rewrite Output_byte_call_real by done. apply real_output_position.
Qed.

Lemma Output_byte_call_lead (byte : Z) (s s1 : state) (k : Z) :
  0 <= k <= 30 →
  Output_byte_call byte s = Done tt s1 →
  lead k s1 = lead k s ∧ bufsize (out s1) = bufsize (out s).
Proof.
  intros Hk (Ew & Eb & Ep & Ea & Ec)%Output_byte_call_position.
  split; [| done]. unfold lead. rewrite Ew, Ep, Ea, Ec.
  destruct (intval_q k (write_idx (out s) + 1) Hk) as [q1 ->].
  destruct (int_q k (add_to_pc (CPU_state s) + 1) Hk) as [q2 ->].
  apply mod_congr. exists (q1 - q2). ring.
Qed.

Arguments output_skip_rest : simpl never.
Arguments offsets : simpl never.

Lemma offsets_cons (c : pseudopc) (l : list pseudopc) :
  offsets (c :: l) = offset c + offsets l.
Proof. reflexivity. Qed.
Arguments vcpu_set_pc : simpl never.

Lemma output_skip_unfold (size : Z) (s : state) :
  output_skip size s
  = if size <? 1 then Done tt s
    else match Output_byte s with
         | fn_no_output =>
             (Output_byte_call 0;; output_skip_rest (int (size - 1))) s
         | fn_real_output => output_skip_rest size s
         end.
Proof.
  unfold output_skip. destruct (size <? 1); [done |].
  unfold mbind at 1, M_bind at 1, get at 1.
  destruct (Output_byte s) eqn:E.
  - destruct (decide (fn_no_output = fn_no_output)); [| done].
    unfold output_skip_rest, mbind, M_bind, get, mret, M_ret.
    by destruct (Output_byte_call 0 s).
  - destruct (decide (fn_real_output = fn_no_output)); [done |].
    reflexivity.
Qed.

Lemma output_skip_rest_position (size : Z) (s s1 : state) :
  output_skip_rest size s = Done tt s1 →
  write_idx (out s1) = intval (write_idx (out s) + size)
  ∧ bufsize (out s1) = bufsize (out s)
  ∧ pc (CPU_state s1) = pc (CPU_state s)
  ∧ add_to_pc (CPU_state s1) = int (add_to_pc (CPU_state s) + size)
  ∧ pseudopc_current_context s1 = pseudopc_current_context s.
Proof.
  unfold output_skip_rest. run.
  destruct (_ >? segment_max (out s)); simpl.
  - destruct (border_crossed _ s) as [[] s0|] eqn:E0; [| done].
    eapply (preserves_Done same_position) in E0 as (Ew & Eb & Ec & Ex);
      [| preserve].
    intros [= <-]. simpl.
    destruct (write_idx (out s0) <? lowest_written (out s0)); simpl;
      (destruct (_ >? highest_written _); simpl);
      rewrite ?Ew, ?Eb, ?Ec, ?Ex; done.
  - intros [= <-]. simpl.
    destruct (write_idx (out s) <? lowest_written (out s)); simpl;
      (destruct (_ >? highest_written _); simpl); done.
Qed.

Lemma output_skip_lead (size : Z) (s s1 : state) (k : Z) :
  0 <= k <= 30 →
  output_skip size s = Done tt s1 →
  lead k s1 = lead k s ∧ bufsize (out s1) = bufsize (out s).
Proof.
  intros Hk. rewrite output_skip_unfold.
  destruct (size <? 1); [by intros [= <-] |].
  destruct (Output_byte s).
  - intros ([] & s0 & E0 & E1)%bind_inv.
    apply Output_byte_call_position in E0 as (Ew & Eb & Ep & Ea & Ec).
    apply output_skip_rest_position in E1 as (Ew1 & Eb1 & Ep1 & Ea1 & Ec1).
    split; [| congruence]. unfold lead.
    rewrite Ew1, Ep1, Ea1, Ec1, Ew, Ep, Ea, Ec.
    destruct (intval_q k (write_idx (out s) + 1) Hk) as [q1 ->].
    destruct (int_q k (add_to_pc (CPU_state s) + 1) Hk) as [q2 ->].
    destruct (intval_q k (write_idx (out s) + 1 + q1 * 2 ^ k + int (size - 1))
                Hk) as [q3 ->].
    destruct (int_q k (add_to_pc (CPU_state s) + 1 + q2 * 2 ^ k
                       + int (size - 1)) Hk) as [q4 ->].
    apply mod_congr. exists (q1 - q2 + q3 - q4). ring.
  - intros (Ew1 & Eb1 & Ep1 & Ea1 & Ec1)%output_skip_rest_position.
    split; [| done]. unfold lead. rewrite Ew1, Ep1, Ea1, Ec1.
    destruct (intval_q k (write_idx (out s) + size) Hk) as [q1 ->].
    destruct (int_q k (add_to_pc (CPU_state s) + size) Hk) as [q2 ->].
    apply mod_congr. exists (q1 - q2). ring.
Qed.

Lemma vcpu_end_statement_lead (s s1 : state) (k : Z) :
  0 <= k <= 30 → bufsize (out s) = 2 ^ k →
  vcpu_end_statement s = Done tt s1 →
  lead k s1 = lead k s ∧ bufsize (out s1) = bufsize (out s).
Proof.
  intros Hk Hb [= <-]. split; [| done]. unfold lead. simpl.
  destruct (mask_q k (val_intval (pc (CPU_state s)) + add_to_pc (CPU_state s))
              (bufsize (out s)) Hk Hb) as [q ->].
  apply mod_congr. exists (- q). ring.
Qed.

Lemma Output_start_segment_position (address_change seg_flags : Z)
    (s s' : state) :
  Output_start_segment address_change seg_flags s = Done tt s' →
  write_idx (out s')
  = Z.land (intval (write_idx (out s) + address_change))
      (intval (bufsize (out s) - 1))
  ∧ bufsize (out s') = bufsize (out s)
  ∧ CPU_state s' = CPU_state s
  ∧ pseudopc_current_context s' = pseudopc_current_context s.
Proof.
  unfold Output_start_segment. intros ([] & s1 & E1 & E)%bind_inv.
  eapply (preserves_Done same_position) in E1 as (Ew & Eb & Ec & Ex);
    [| preserve].
  rewrite <- Ew, <- Eb, <- Ec, <- Ex. clear Ew Eb Ec Ex. revert E. run.
  destruct (first_pass (pass s1)); simpl; [| by intros [= <-]].
  match goal with
  | |- context [find_segment_max ?a] => generalize a; intros idx
  end.
  destruct (Z.land seg_flags SEGMENT_FLAG_OVERLAY =? 0).
  - match goal with
    | |- context [check_segment ?a ?s0] =>
        destruct (check_segment a s0) as [[] s2|] eqn:E2; [| done]
    end.
    eapply (preserves_Done same_position) in E2 as (Ew & Eb & Ec & Ex);
      [| preserve].
    intros E3.
    eapply (preserves_Done same_position) in E3 as (Ew3 & Eb3 & Ec3 & Ex3);
      [| preserve].
    rewrite Ew3, Eb3, Ec3, Ex3, Ew, Eb, Ec, Ex. done.
  - intros E3.
    eapply (preserves_Done same_position) in E3 as (Ew3 & Eb3 & Ec3 & Ex3);
      [| preserve].
    rewrite Ew3, Eb3, Ec3, Ex3. done.
Qed.

Lemma set_pc_start_lead (new_pc seg_flags : Z) (s s' : state) (k : Z) :
  0 <= k <= 30 → bufsize (out s) = 2 ^ k →
  Output_start_segment (intval (new_pc - val_intval (pc (CPU_state s))))
    seg_flags (upd_pc (defined_pc new_pc) s) = Done tt s' →
  lead k s' = lead k s ∧ bufsize (out s') = bufsize (out s).
Proof.
  intros Hk Hb (Ew & Eb & Ec & Ex)%Output_start_segment_position.
  split; [| done]. unfold lead. rewrite Ew, Ec, Ex. simpl.
  destruct (mask_q k (write_idx (out s)
                      + intval (new_pc - val_intval (pc (CPU_state s))))
              (bufsize (out s)) Hk Hb) as [q1 ->].
  destruct (intval_q k (new_pc - val_intval (pc (CPU_state s))) Hk)
    as [q2 ->].
  apply mod_congr. exists (q1 + q2). ring.
Qed.

Lemma pseudopc_end_all_lead (s s' : state) (k : Z) :
  0 <= k <= 30 → bufsize (out s) = 2 ^ k →
  pseudopc_end_all s = Done tt s' →
  lead k s' = lead k s ∧ bufsize (out s') = bufsize (out s).
Proof.
  intros Hk Hb.
  destruct (pseudopc_end_all_done k s Hk Hb) as (n' & -> & _ & _ & _ & Hn).
  intros [= <-]. split; [| done]. unfold lead. simpl.
  destruct (pseudopc_current_context s) as [|c l].
  - subst n'. done.
  - destruct Hn as [-> _].
    destruct (mod_q (2 ^ k)
                ((val_intval (pc (CPU_state s)) - offsets (c :: l)) mod 2 ^ k)
                (val_intval (pc (CPU_state s)) - offsets (c :: l)))
      as [q ->]; [apply Z.pow_nonzero; lia | apply Z.mod_mod, Z.pow_nonzero; lia |].
    apply mod_congr. exists (- q). change (offsets []) with 0. ring.
Qed.

Lemma vcpu_set_pc_lead (new_pc seg_flags : Z) (s s' : state) (k : Z) :
  0 <= k <= 30 → bufsize (out s) = 2 ^ k →
  vcpu_set_pc new_pc seg_flags s = Done tt s' →
  lead k s' = lead k s ∧ bufsize (out s') = bufsize (out s).
Proof.
  intros Hk Hb.
  assert ((pseudopc_current_context s = []
           ∨ (VER_SHORTER_SETPC_WARNING <= wanted_version (config s)
              ∧ VER_DISABLED_OBSOLETE_STUFF <= wanted_version (config s)))
          ∨ (pseudopc_current_context s ≠ []
             ∧ (wanted_version (config s) < VER_SHORTER_SETPC_WARNING
                ∨ wanted_version (config s) < VER_DISABLED_OBSOLETE_STUFF)))
    as [Hc | [Hc Hv]].
  { destruct (pseudopc_current_context s); [by left; left |].
    destruct (Z.lt_ge_cases (wanted_version (config s))
                VER_SHORTER_SETPC_WARNING); [right; split; [done | by left] |].
    destruct (Z.lt_ge_cases (wanted_version (config s))
                VER_DISABLED_OBSOLETE_STUFF);
      [right; split; [done | by right] | left; right; lia]. }
  - rewrite (vcpu_set_pc_plain _ _ _ Hc). by apply set_pc_start_lead.
  - rewrite (vcpu_set_pc_legacy _ _ _ Hc Hv).
    set (s0 := set_diagnostics (diagnostics s ++ [still_active (config s)]) s).
    destruct (pseudopc_end_all s0) as [[] s1|] eqn:E; [| done].
    apply (pseudopc_end_all_lead s0 s1 k Hk Hb) in E as [El Eb].
    intros E.
    apply (set_pc_start_lead _ _ _ _ k Hk) in E as [El' Eb'];
      [| rewrite Eb; exact Hb].
    split; [by rewrite El', El | by rewrite Eb', Eb].
Qed.

Lemma pseudopc_start_lead (new_pc : number) (s s' : state) (k : Z) :
  0 <= k <= 30 →
  pseudopc_start new_pc s = Done tt s' →
  lead k s' = lead k s ∧ bufsize (out s') = bufsize (out s).
Proof.
  intros Hk. rewrite pseudopc_start_eq. intros [= <-].
  split; [| done]. unfold lead. simpl. rewrite offsets_cons. simpl.
  destruct (intval_q k (val_intval new_pc - val_intval (pc (CPU_state s))) Hk)
    as [q ->].
  apply mod_congr. exists q. ring.
Qed.

Lemma pseudopc_end_lead (s s' : state) (k : Z) :
  0 <= k <= 30 → bufsize (out s) = 2 ^ k →
  pseudopc_end s = Done tt s' →
  lead k s' = lead k s ∧ bufsize (out s') = bufsize (out s).
Proof.
  intros Hk Hb. destruct (pseudopc_current_context s) as [|c outer] eqn:Hc.
  - unfold pseudopc_end, Bug_found. run. rewrite Hc.
    destruct (wanted_version (config s) >=? VER_DISABLED_OBSOLETE_STUFF);
      [done |]. by intros [= <-].
  - rewrite (pseudopc_end_eq c s outer Hc). intros [= <-].
    split; [| done]. unfold lead. simpl. rewrite Hc, offsets_cons.
    destruct (mask_q k (val_intval (pc (CPU_state s)) - offset c)
                (bufsize (out s)) Hk Hb) as [q ->].
    apply mod_congr. exists (- q). ring.
Qed.

Lemma run_call_lead (c : call) (s s' : state) (k : Z) :
  0 <= k <= 30 → bufsize (out s) = 2 ^ k →
  run_call c s = Done tt s' →
  lead k s' = lead k s ∧ bufsize (out s') = bufsize (out s).
Proof.
  intros Hk Hb. destruct c; simpl.
  - by apply Output_byte_call_lead.
  - by apply output_skip_lead.
  - by apply vcpu_end_statement_lead.
  - by apply vcpu_set_pc_lead.
  - by apply pseudopc_start_lead.
  - by apply pseudopc_end_lead.
  - by apply pseudopc_end_all_lead.
Qed.

Lemma run_calls_lead (calls : list call) (s s' : state) (k : Z) :
  0 <= k <= 30 → bufsize (out s) = 2 ^ k →
  run_calls calls s = Done tt s' →
  lead k s' = lead k s ∧ bufsize (out s') = bufsize (out s).
Proof.
  intros Hk. revert s. induction calls as [|c calls IH]; intros s Hb.
  { by intros [= <-]. }
  simpl. intros ([] & s1 & E1 & E)%bind_inv.
  apply (run_call_lead _ _ _ k Hk Hb) in E1 as [El Eb].
  apply IH in E as [El' Eb']; [| congruence].
  split; congruence.
Qed.

(** X7. Whenever a sequence of calls of the functions that emit or skip
    bytes, end a statement, set the program counter or open and close the
    contexts of offset assembly returns, the write index is as far ahead
    of the real program counter as it was before, modulo the size of the
    buffer, and the size of the buffer is the same.  From a state in which
    both are 0, as at the start of a pass, the write index, as long as it
    lies inside the buffer, is the real program counter modulo the size
    of the buffer. *)
Theorem write_index_follows_pc (calls : list call) (s s' : state) (k : Z) :
  0 <= k <= 30 → bufsize (out s) = 2 ^ k →
  run_calls calls s = Done tt s' →
  lead k s' = lead k s
  ∧ bufsize (out s') = bufsize (out s)
  ∧ (write_idx (out s) = 0 → val_intval (pc (CPU_state s)) = 0 →
     add_to_pc (CPU_state s) = 0 → pseudopc_current_context s = [] →
     0 <= write_idx (out s') < 2 ^ k →
     write_idx (out s')
     = (val_intval (pc (CPU_state s')) + add_to_pc (CPU_state s')
        - offsets (pseudopc_current_context s')) mod 2 ^ k).
Proof.
  intros Hk Hb E.
  destruct (run_calls_lead calls s s' k Hk Hb E) as [El Eb].
  split_and!; [done.. |].
  intros Hw Hp Ha Hc Hi. unfold lead in El.
  rewrite Hw, Hp, Ha, Hc in El. change (offsets []) with 0 in El.
  simpl in El. rewrite Z.mod_0_l in El by (apply Z.pow_nonzero; lia).
  rewrite <- (Z.mod_small (write_idx (out s')) (2 ^ k)) by done.
  apply mod_congr.
  match type of El with
  | ?X mod _ = 0 =>
      exists (X / 2 ^ k);
      pose proof (Z.div_mod X (2 ^ k) ltac:(apply Z.pow_nonzero; lia)) as Hd;
      rewrite El in Hd
  end.
  lia.
Qed.

(** *** Statements and offset assembly *)

Lemma Output_bytes_position (bytes : list Z) :
  ∀ s s', Output_bytes bytes s = Done tt s' →
  pc (CPU_state s') = pc (CPU_state s)
  ∧ pseudopc_current_context s' = pseudopc_current_context s
  ∧ bufsize (out s') = bufsize (out s)
  ∧ (0 <= add_to_pc (CPU_state s) →
     add_to_pc (CPU_state s) + Z.of_nat (length bytes) < 2 ^ 31 →
     add_to_pc (CPU_state s')
     = add_to_pc (CPU_state s) + Z.of_nat (length bytes)).
Proof.
  induction bytes as [|b bytes IH]; intros s s'.
  { intros [= <-]. split_and!; try done. simpl. lia. }
  rewrite Output_bytes_cons.
  destruct (Output_byte_call b s) as [[] s1|] eqn:E1; [| done].
  apply Output_byte_call_position in E1 as (_ & Eb & Ep & Ea & Ec).
  intros (Ep' & Ec' & Eb' & Ea')%IH.
  split_and!; try congruence.
  intros H0 Hn. rewrite length_cons, Nat2Z.inj_succ in *.
  rewrite Ea in Ea'. rewrite int_id in Ea' by lia.
  rewrite Ea' by lia. lia.
Qed.

(** X8. A block of offset assembly around one statement: [pseudopc_start],
    the bytes of the statement, [vcpu_end_statement], [pseudopc_end].  The
    sequence returns when the bytes fit the buffer.  Afterwards the
    program counter is the one from before the block, advanced by the
    size of the statement, modulo the size of the buffer; its type and
    the chain of contexts are the ones from before, and the write index
    has advanced by the number of bytes. *)
Theorem offset_block_advances_pc (new_pc : number) (bytes : list Z)
    (s : state) (k : Z) :
  bounded k (out s) →
  write_idx (out s) + Z.of_nat (length bytes) <= bufsize (out s) →
  0 <= add_to_pc (CPU_state s) < 2 ^ 30 →
  ∃ s',
    (pseudopc_start new_pc;; Output_bytes bytes;; vcpu_end_statement;;
     pseudopc_end) s = Done tt s'
    ∧ val_intval (pc (CPU_state s'))
      = (val_intval (pc (CPU_state s)) + add_to_pc (CPU_state s)
         + Z.of_nat (length bytes)) mod 2 ^ k
    ∧ ntype (pc (CPU_state s')) = ntype (pc (CPU_state s))
    ∧ add_to_pc (CPU_state s') = 0
    ∧ pseudopc_current_context s' = pseudopc_current_context s
    ∧ write_idx (out s') = write_idx (out s) + Z.of_nat (length bytes).
Proof.
  intros (Hk & Hb & Hw & _) Hn Ha.
  assert (0 < 2 ^ k) by (apply Z.pow_pos_nonneg; lia).
  assert (2 ^ k <= 2 ^ 30) by (apply Z.pow_le_mono_r; lia).
  erewrite bind_Done by apply pseudopc_start_eq.
  match goal with
  | |- context [Done tt ?s0] => idtac
  | |- ∃ _, (_ ≫= _) ?s0 = _ ∧ _ => set (s1 := s0)
  end.
  destruct (Output_bytes_within bytes s1)
    as (s2 & new & E & _ & _ & _ & _ & _ & _ & Ew & Eb & _);
    [simpl; lia.. |].
  rewrite (bind_Done _ _ _ _ _ E).
  destruct (Output_bytes_position bytes s1 s2 E) as (Ep & Ec & _ & Ea').
  specialize (Ea' ltac:(simpl; lia) ltac:(simpl; lia)).
  unfold vcpu_end_statement. run.
  erewrite pseudopc_end_eq by (simpl; rewrite Ec; reflexivity).
  eexists. split; [reflexivity |]. simpl.
  rewrite Ep, Ea', Ew, Eb. simpl. rewrite Hb.
  split_and!; try done.
  rewrite !(mask_mod k) by done. rewrite sub_mod_idemp.
  destruct (intval_q k (val_intval new_pc - val_intval (pc (CPU_state s))) Hk)
    as [q ->].
  apply mod_congr. exists (- q). ring.
Qed.

Lemma offsets_app (l1 l2 : list pseudopc) :
  offsets (l1 ++ l2) = offsets l1 + offsets l2.
Proof.
  induction l1 as [|c l1 IH]; [done |].
  rewrite <- app_comm_cons, !offsets_cons, IH. lia.
Qed.

(** What [pseudopc_unpseudo] returns when there are contexts enough. *)
Lemma pseudopc_unpseudo_done (k : Z) (s : state) (levels : nat) :
  0 <= k <= 30 → bufsize (out s) = 2 ^ k →
  ∀ target context, (levels <= length context)%nat →
  ∃ t,
    pseudopc_unpseudo target context levels s = Done (0, t) s
    ∧ ntype t = ntype target
    ∧ flags t = flags target
    ∧ addr_refs t = addr_refs target
    ∧ (levels = O → t = target)
    ∧ (levels ≠ O →
       val_intval t
       = (val_intval target - offsets (take levels context)) mod 2 ^ k).
Proof.
  intros Hk Hb. induction levels as [|levels IH]; intros target context Hl.
  { exists target. by destruct context. }
  destruct context as [|c outer]; [simpl in Hl; lia |].
  simpl in Hl. simpl pseudopc_unpseudo. run.
  destruct (IH (set_val_intval
                  (Z.land (intval (val_intval target - offset c))
                     (intval (bufsize (out s) - 1))) target) outer)
    as (t & E & Hn & Hf & Ha & H0 & Hv); [lia |].
  exists t. split; [exact E |].
  split_and!; [by destruct target.. | done |]. intros _.
  rewrite ?firstn_cons, offsets_cons.
  assert (val_intval (set_val_intval
                        (Z.land (intval (val_intval target - offset c))
                           (intval (bufsize (out s) - 1))) target)
          = (val_intval target - offset c) mod 2 ^ k) as Ev
    by (destruct target; simpl; by apply mask_mod).
  destruct levels as [|levels].
  - rewrite (H0 eq_refl), Ev, take_0. change (offsets []) with 0.
    f_equal. lia.
  - rewrite Hv, Ev, sub_mod_idemp by done. f_equal. lia.
Qed.

(** ... and when there are not. *)
Lemma pseudopc_unpseudo_error (s : state) (levels : nat) :
  ∀ target context, (length context < levels)%nat →
  ∃ t,
    pseudopc_unpseudo target context levels s
    = Done (1, t) (set_diagnostics (diagnostics s ++ [no_context]) s).
Proof.
  induction levels as [|levels IH]; intros target context Hl; [lia |].
  destruct context as [|c outer].
  - exists target. reflexivity.
  - simpl in Hl. simpl pseudopc_unpseudo. run. apply IH. lia.
Qed.

(** X9. [pseudopc_unpseudo] over a chain with contexts enough returns 0
    and leaves the state alone: the value is the target less the offsets
    of as many contexts as there are levels, innermost first, modulo the
    size of the buffer, and the type of the target stays; for no level at
    all the target is untouched.  Over a chain with fewer contexts than
    levels it reports the error, once, and returns 1. *)
Theorem pseudopc_unpseudo_levels (target : number) (context : list pseudopc)
    (levels : nat) (s : state) (k : Z) :
  0 <= k <= 30 → bufsize (out s) = 2 ^ k →
  ((levels <= length context)%nat →
   ∃ t,
     pseudopc_unpseudo target context levels s = Done (0, t) s
     ∧ ntype t = ntype target
     ∧ (levels = O → t = target)
     ∧ (levels ≠ O →
        val_intval t
        = (val_intval target - offsets (take levels context)) mod 2 ^ k))
  ∧ ((length context < levels)%nat →
     ∃ t,
       pseudopc_unpseudo target context levels s
       = Done (1, t) (set_diagnostics (diagnostics s ++ [no_context]) s)).
Proof.
  intros Hk Hb. split; intros Hl.
  - destruct (pseudopc_unpseudo_done k s levels Hk Hb target context Hl)
      as (t & E & Hn & _ & _ & H0 & Hv).
    exists t. split_and!; done.
  - by apply pseudopc_unpseudo_error.
Qed.

Lemma pseudopc_starts_done (k : Z) (new_pcs : list number) :
  0 <= k <= 30 →
  ∀ s, ∃ s1 cs,
    pseudopc_starts new_pcs s = Done tt s1
    ∧ pseudopc_current_context s1 = cs ++ pseudopc_current_context s
    ∧ length cs = length new_pcs
    ∧ offsets cs mod 2 ^ k
      = (val_intval (pc (CPU_state s1)) - val_intval (pc (CPU_state s)))
        mod 2 ^ k
    ∧ val_intval (pc (CPU_state s1))
      = default (val_intval (pc (CPU_state s))) (val_intval <$> last new_pcs)
    ∧ out s1 = out s
    ∧ diagnostics s1 = diagnostics s.
Proof.
  intros Hk. induction new_pcs as [|a l IH]; intros s.
  { exists s, []. split_and!; try done. change (offsets []) with 0.
    f_equal. lia. }
  simpl pseudopc_starts.
  erewrite bind_Done by apply pseudopc_start_eq.
  match goal with
  | |- ∃ _ _, _ ?s0 = _ ∧ _ => set (s' := s0)
  end.
  destruct (IH s') as (s1 & cs & E & Hc & Hl & Ho & Hv & Hout & Hd).
  exists s1, (cs ++ [{| offset := intval (val_intval a
                                         - val_intval (pc (CPU_state s)));
                       outer_ntype := ntype (pc (CPU_state s)) |}]).
  split; [exact E |]. split_and!.
  - rewrite Hc. by rewrite <- app_assoc.
  - rewrite length_app, Hl. simpl. lia.
  - rewrite offsets_app, offsets_cons. change (offsets []) with 0. simpl.
    apply mod_q in Ho as [q Eq]; [| apply Z.pow_nonzero; lia]. rewrite Eq.
    destruct (intval_q k (val_intval a - val_intval (pc (CPU_state s))) Hk)
      as [q' ->].
    apply mod_congr. exists (q + q'). simpl. ring.
  - rewrite Hv. rewrite last_cons. by destruct (last l).
  - by rewrite Hout.
  - by rewrite Hd.
Qed.

(** X10. After entering contexts with [pseudopc_start], un-pseudopc by as
    many levels, over the chain that [pseudopc_get_context] returns,
    succeeds without a change of the state.  It maps a value to the
    address that lies as far from the program counter from before the
    first entry as the value lies from the current program counter, modulo
    the size of the buffer: the current program counter itself is mapped
    to the one from before modulo the size of the buffer, and so to the
    one from before itself when that is an address of the buffer. *)
Theorem pseudopc_unpseudo_undoes_starts (new_pcs : list number)
    (target : number) (s : state) (k : Z) :
  0 <= k <= 30 → bufsize (out s) = 2 ^ k →
  new_pcs ≠ [] →
  ∃ s1 context t,
    pseudopc_starts new_pcs s = Done tt s1
    ∧ pseudopc_get_context s1 = Done context s1
    ∧ length context
      = (length new_pcs + length (pseudopc_current_context s))%nat
    ∧ pseudopc_unpseudo target context (length new_pcs) s1 = Done (0, t) s1
    ∧ val_intval t
      = (val_intval target
         - (val_intval (pc (CPU_state s1)) - val_intval (pc (CPU_state s))))
        mod 2 ^ k
    ∧ (target = pc (CPU_state s1) →
       val_intval t = val_intval (pc (CPU_state s)) mod 2 ^ k)
    ∧ (target = pc (CPU_state s1) →
       0 <= val_intval (pc (CPU_state s)) < bufsize (out s) →
       val_intval t = val_intval (pc (CPU_state s))).
Proof.
  intros Hk Hb Hne.
  destruct (pseudopc_starts_done k new_pcs Hk s)
    as (s1 & cs & E & Hc & Hl & Ho & _ & Hout & _).
  destruct (pseudopc_unpseudo_done k s1 (length new_pcs) Hk
              ltac:(by rewrite Hout) target (pseudopc_current_context s1))
    as (t & Eu & _ & _ & _ & _ & Hv).
  { rewrite Hc, length_app. lia. }
  exists s1, (pseudopc_current_context s1), t.
  split; [exact E |]. split; [reflexivity |].
  split; [by rewrite Hc, length_app, Hl |]. split; [exact Eu |].
  rewrite Hc, <- Hl, take_app_length in Hv.
  assert (val_intval t
          = (val_intval target
             - (val_intval (pc (CPU_state s1))
                - val_intval (pc (CPU_state s)))) mod 2 ^ k) as Et.
  { rewrite Hv by (rewrite Hl; by destruct new_pcs).
    apply mod_q in Ho as [q Eq]; [| apply Z.pow_nonzero; lia].
    rewrite Eq. apply mod_congr. exists (- q). ring. }
  split; [exact Et |].
  assert (target = pc (CPU_state s1) →
          val_intval t = val_intval (pc (CPU_state s)) mod 2 ^ k) as Em
    by (intros ->; rewrite Et; f_equal; lia).
  split; [exact Em |]. intros Ht Hin. rewrite (Em Ht).
  apply Z.mod_small. lia.
Qed.

(** *** Skipping *)

Lemma output_skip_rest_done (size : Z) (s : state) :
  0 <= write_idx (out s) → 0 <= size →
  write_idx (out s) + size <= bufsize (out s) → bufsize (out s) <= 2 ^ 30 →
  write_idx (out s) + size - 1 < bufsize (out s) →
  ∃ s',
    output_skip_rest size s = Done tt s'
    ∧ buffer (out s') = buffer (out s)
    ∧ stores s' = stores s
    ∧ write_idx (out s') = write_idx (out s) + size
    ∧ lowest_written (out s')
      = Z.min (lowest_written (out s)) (write_idx (out s))
    ∧ highest_written (out s')
      = Z.max (highest_written (out s)) (write_idx (out s) + size - 1)
    ∧ add_to_pc (CPU_state s') = int (add_to_pc (CPU_state s) + size)
    ∧ Output_byte s' = Output_byte s
    ∧ (write_idx (out s) + size - 1 <= segment_max (out s) →
       diagnostics s' = diagnostics s
       ∧ segment_max (out s') = segment_max (out s))
    ∧ (first_pass (pass s) = false → diagnostics s' = diagnostics s)
    ∧ (segment_max (out s) < write_idx (out s) + size - 1 →
       first_pass (pass s) = true →
       diagnostics s' = diagnostics s ++ [reached s]
       ∧ segment_max (out s')
         = next_max (write_idx (out s) + size) (out s)).
Proof.
  intros Hw Hs Hn Hb Hlt. unfold output_skip_rest. run.
  assert (intval (write_idx (out s) + size) = write_idx (out s) + size) as Ei
    by (apply intval_id; lia).
  assert (intval (write_idx (out s) + size - 1) = write_idx (out s) + size - 1)
    as Ej by (apply intval_id; lia).
  rewrite ?Ei, ?Ej. rewrite (int_id (write_idx (out s) + size - 1)) by lia.
  destruct (write_idx (out s) + size - 1 >? segment_max (out s)) eqn:Ec;
    zbool; simpl.
  - destruct (first_pass (pass s)) eqn:Hp.
    + rewrite border_crossed_first by (done || lia). simpl.
      rewrite ?Ei, ?Ej.
      replace (write_idx (out s) + size - 1 + 1)
        with (write_idx (out s) + size) by lia.
      destruct (write_idx (out s) <? lowest_written (out s)) eqn:E1; simpl;
        rewrite ?Ei, ?Ej;
        destruct (write_idx (out s) + size - 1 >? highest_written (out s))
          eqn:E2; simpl;
        (eexists; split; [reflexivity |]); simpl;
        split_and!; try done; zbool; lia.
    + rewrite border_crossed_later by (done || lia). simpl.
      rewrite ?Ei, ?Ej.
      destruct (write_idx (out s) <? lowest_written (out s)) eqn:E1; simpl;
        rewrite ?Ei, ?Ej;
        destruct (write_idx (out s) + size - 1 >? highest_written (out s))
          eqn:E2; simpl;
        (eexists; split; [reflexivity |]); simpl;
        split_and!; try done; zbool; lia.
  - destruct (write_idx (out s) <? lowest_written (out s)) eqn:E1; simpl;
      rewrite ?Ei, ?Ej;
      destruct (write_idx (out s) + size - 1 >? highest_written (out s))
        eqn:E2; simpl;
      (eexists; split; [reflexivity |]); simpl;
      split_and!; try done; zbool; lia.
Qed.



(** X12. While the writer is disabled, [output_skip] of at least one byte
    reports "PC undefined" once, enables the writer and stores one dummy
    byte, 0 under the xor mask, at the write index; with it the skip
    covers [size] bytes in all. *)
Theorem output_skip_disabled (size : Z) (s : state) :
  Output_byte s = fn_no_output →
  1 <= size →
  0 <= write_idx (out s) →
  write_idx (out s) + size - 1 <= segment_max (out s) →
  write_idx (out s) + size <= bufsize (out s) →
  bufsize (out s) <= 2 ^ 30 →
  ∃ s',
    output_skip size s = Done tt s'
    ∧ diagnostics s' = diagnostics s ++ [Diag Error exception_pc_undefined]
    ∧ Output_byte s' = fn_real_output
    ∧ stores s' = stores s ++ [(write_idx (out s), to_char (xor (out s)))]
    ∧ buffer (out s')
      = store (write_idx (out s)) (to_char (xor (out s))) (buffer (out s))
    ∧ write_idx (out s') = write_idx (out s) + size
    ∧ lowest_written (out s')
      = Z.min (lowest_written (out s)) (write_idx (out s))
    ∧ highest_written (out s')
      = Z.max (highest_written (out s)) (write_idx (out s) + size - 1).
Proof.
  intros Hfn Hs Hw Hm Hn Hb. rewrite output_skip_unfold, Hfn.
  destruct (size <? 1) eqn:E; [zbool; lia |].
  destruct (real_output_inside 0 (complained s))
    as (s0 & E0 & [w_idx w_buffer w_stores w_lowest w_highest w_bufsize w_ring w_xor
          w_fill w_pass w_config w_pc w_context]
        & Hfn0 & Hm0 & Hd0); [simpl; lia |].
  rewrite <- no_output_eq, <- Output_byte_call_no in E0 by done.
  simpl in *.
  rewrite (bind_Done _ _ _ _ _ E0).
  rewrite intval_id in w_idx by lia.
  rewrite (int_id (size - 1)) by lia.
  destruct (output_skip_rest_done (size - 1) s0)
    as (s' & E' & Hbuf & Hst & Hi & Hlo & Hhi & _ & Hfn' & Hin & _);
    [lia.. |].
  destruct Hin as [Hd' _]; [lia |].
  exists s'. split; [exact E' |].
  change (Z.land 0 255) with 0 in *. rewrite Z.lxor_0_l in *.
  split_and!.
  - by rewrite Hd', Hd0.
  - by rewrite Hfn', Hfn0.
  - by rewrite Hst, w_stores.
  - by rewrite Hbuf, w_buffer.
  - rewrite Hi, w_idx. lia.
  - rewrite Hlo, w_lowest, w_idx. lia.
  - rewrite Hhi, w_highest, w_idx. lia.
Qed.

(** X13. A write at an index beyond the limit of the segment, inside the
    buffer, returns and stores its byte like any other.  In the first pass
    it reports once that the segment reached another one, as a warning or
    as an error according to the configuration, and sets the limit
    afresh, as [find_segment_max] computes it for the index after the
    write; in a later pass it reports nothing and leaves the limit. *)
Theorem segment_crossing_reports (byte : Z) (s : state) :
  segment_max (out s) < write_idx (out s) →
  0 <= write_idx (out s) < bufsize (out s) →
  bufsize (out s) <= 2 ^ 30 →
  ∃ s1,
    real_output byte s = Done tt s1
    ∧ written byte s s1
    ∧ (first_pass (pass s) = true →
       diagnostics s1 = diagnostics s ++ [reached s]
       ∧ segment_max (out s1) = next_max (write_idx (out s) + 1) (out s))
    ∧ (first_pass (pass s) = false →
       diagnostics s1 = diagnostics s
       ∧ segment_max (out s1) = segment_max (out s)).
Proof.
  intros Hm Hi Hb. rewrite real_output_unfold.
  destruct (write_idx (out s) >? segment_max (out s)) eqn:E; [| zbool; lia].
  simpl. rewrite int_id by lia.
  destruct (first_pass (pass s)) eqn:Hp.
  - erewrite bind_Done by (apply border_crossed_first; [lia | done | lia]).
    edestruct real_output_rest_done as (s1 & -> & Hw & Hfn & Hmax & Hd).
    exists s1. split; [done |]. split_and!; [| | done].
    + eapply written_after; [| exact Hw]. reflexivity.
    + intros _. by rewrite Hd, Hmax.
  - erewrite bind_Done by (apply border_crossed_later; [lia | done]).
    edestruct real_output_rest_done as (s1 & -> & Hw & Hfn & Hmax & Hd).
    exists s1. split_and!; done.
Qed.

(** *** Fill value and file name *)

(** X14. [Output_init] returns with a buffer of 64 KiB, or of 16 MiB for
    the large one, that holds the fill value throughout, and with an empty
    ring.  A fill value given at program start, one other than
    [MEMINIT_USE_DEFAULT], is used with its low byte and counts as set: a
    later [output_initmem] fails with its warning and changes nothing
    else.  Without one the buffer holds [FILLVALUE_INITIAL], and
    [output_initmem] succeeds and fills the buffer with its value. *)
Theorem command_line_fill_value_wins (fill content : Z) (use_large_buf : bool)
    (s : state) :
  ∃ s1,
    Output_init fill use_large_buf s = Done tt s1
    ∧ bufsize (out s1) = (if use_large_buf then 2 ^ 24 else 2 ^ 16)
    ∧ buffer (out s1)
      = replicate (Z.to_nat (bufsize (out s1))) (fill_value (out s1))
    ∧ 0 <= fill_value (out s1) < 256
    ∧ ring (out s1) = []
    ∧ (fill ≠ MEMINIT_USE_DEFAULT →
       fill_value (out s1) = Z.land fill 255
       ∧ output_initmem content s1
         = Done 1 (set_diagnostics
                     (diagnostics s1
                      ++ [Diag Warning "Memory already initialised."]) s1))
    ∧ (fill = MEMINIT_USE_DEFAULT →
       fill_value (out s1) = Z.land FILLVALUE_INITIAL 255
       ∧ ∃ s2,
           output_initmem content s1 = Done 0 s2
           ∧ fill_value (out s2) = content
           ∧ buffer (out s2)
             = replicate (Z.to_nat (bufsize (out s1))) content).
Proof.
  assert (∀ x, to_char (Z.land x 255) = Z.land x 255) as Hc.
  { intros x. apply to_char_id. pose proof (land_ff_range x). lia. }
  unfold Output_init, fill_completely. run.
  destruct (fill =? MEMINIT_USE_DEFAULT) eqn:E; zbool;
    (eexists; split; [reflexivity |]); simpl; rewrite Hc;
    (split; [by destruct use_large_buf |]);
    (split; [reflexivity |]);
    (split; [pose proof (land_ff_range fill);
             pose proof (land_ff_range FILLVALUE_INITIAL); lia |]);
    (split; [reflexivity |]).
  - split; [done |]. intros _. split; [done |].
    rewrite output_initmem_first by done. eexists. split; [reflexivity |].
    done.
  - split; [| done]. intros _. split; [done |].
    by rewrite output_initmem_again.
Qed.

(** X15. The first [outputfile_set_filename] sets the name of the output
    file and returns 0; a second one returns 1 with the warning "Output
    file already chosen." and keeps the first name. *)
Theorem filename_first_wins (name1 name2 : string) (s : state) :
  output_filename s = None →
  ∃ s1 s2,
    outputfile_set_filename name1 s = Done 0 s1
    ∧ output_filename s1 = Some name1
    ∧ diagnostics s1 = diagnostics s
    ∧ outputfile_set_filename name2 s1 = Done 1 s2
    ∧ output_filename s2 = Some name1
    ∧ diagnostics s2
      = diagnostics s ++ [Diag Warning "Output file already chosen."].
Proof.
  intros Hn. unfold outputfile_set_filename, Throw_warning. run. rewrite Hn.
  eexists _, _. split; [reflexivity |]. simpl. split_and!; reflexivity.
Qed.

(** X16. [find_segment_max] returns for every address but the largest
    value of [intval_t], with the limit that the walk of the ring gives
    and the ring unchanged; at the largest value the sentinel wraps round
    and the search never ends (the FIXME of the source). *)
Theorem find_segment_max_returns (new_pc : Z) (s : state) :
  intval_range new_pc →
  Forall (λ g, intval_range (seg_start g)) (ring (out s)) →
  (new_pc < 2 ^ (intval_bits - 1) - 1 →
   ∃ s', find_segment_max new_pc s = Done tt s'
         ∧ segment_max (out s') = next_max new_pc (out s)
         ∧ ring (out s') = ring (out s))
  ∧ (new_pc = 2 ^ (intval_bits - 1) - 1 →
     ∃ s', find_segment_max new_pc s = Stop Hang s').
Proof.
  intros Hn Hr. split.
  - intros Hlt. rewrite find_segment_max_done.
    + eexists. split; [reflexivity |]. done.
    + rewrite intval_id_range; [lia |]. unfold intval_range in *. lia.
  - intros ->. by apply find_segment_max_overflow.
Qed.

(** *** Intel HEX with a fill value *)

Lemma outputHex_loop_fill (n : nat) (o : output) :
  fill_value o ≠ 0 →
  ∀ i chunkStart emptyCount calls,
  0 <= i → i + Z.of_nat n < 2 ^ 31 →
  (∀ j, i <= j < i + Z.of_nat n → load j (buffer o) = fill_value o) →
  ∃ e, outputHex_loop n o i chunkStart emptyCount calls
       = (i + Z.of_nat n, chunkStart, calls) ∧ e = emptyCount.
Proof.
  intros Hf. induction n as [|n IH]; intros i chunkStart emptyCount calls Hi Hn Hl.
  { exists emptyCount. simpl. split; [| done]. do 2 f_equal. lia. }
  exists emptyCount. split; [| done]. simpl outputHex_loop.
  rewrite (Hl i) by lia. rewrite Z.eqb_refl.
  destruct (fill_value o =? 0) eqn:E; [zbool; done |]. simpl.
  rewrite (int_id (i + 1)) by lia.
  destruct (IH (i + 1) chunkStart (int (emptyCount + 1)) calls)
    as (e & -> & _); [lia | lia | intros j Hj; apply Hl; lia |].
  do 2 f_equal. lia.
Qed.

(** The calls of [outputHexChunk] for a range of the fill value only. *)
Lemma outputHex_calls_fill (start amount : Z) (o : output) :
  fill_value o ≠ 0 →
  0 <= start <= amount → amount <= INT_MAX →
  (∀ j, start <= j < amount → load j (buffer o) = fill_value o) →
  outputHex_calls start amount o
  = Some (if (amount - start) mod 256 =? 0 then []
          else [(start, (amount - start) mod 256)]).
Proof.
  intros Hf Hs Ha Hl. unfold outputHex_calls. unfold INT_MAX in *.
  destruct (amount >? 2 ^ 31 - 1) eqn:E; [zbool; lia |].
  rewrite (int_id start) by lia.
  destruct (outputHex_loop_fill (Z.to_nat (amount - start)) o Hf start start 0 [])
    as (e & -> & _); [lia | lia | intros j Hj; apply Hl; lia |].
  rewrite Z2Nat.id by lia.
  replace (start + (amount - start) - start) with (amount - start) by lia.
  rewrite int_id by lia. unfold to_char. change 255 with (Z.ones 8).
  rewrite Z.land_ones by lia. done.
Qed.

(** X17. Under a fill value that is not 0, the Intel HEX writer gives at
    most one data record for a range that holds the fill value only: what
    [outputHex] writes is that record and the end-of-file record.  The
    record starts at [start], its length is the length of the range modulo
    256, the count being an unsigned char, and its bytes are the fill
    value.  For a range of a multiple of 256 bytes [outputHex] writes the
    end-of-file record alone. *)
Theorem hex_fill_run_truncated (start amount : Z) (o : output) :
  fill_value o ≠ 0 →
  0 <= start <= amount → amount <= INT_MAX →
  (∀ j, start <= j < amount → load j (buffer o) = fill_value o) →
  outputHex_calls start amount o
  = Some (if (amount - start) mod 256 =? 0 then []
          else [(start, (amount - start) mod 256)])
  ∧ outputHex start amount o
    = Some (if (amount - start) mod 256 =? 0 then ":00000001ff"
            else hex_record start ((amount - start) mod 256) o
                 +:+ ":00000001ff")
  ∧ Forall (λ b, b = to_char (fill_value o))
      (chunk_data start ((amount - start) mod 256) o).
Proof.
  intros Hf Hs Ha Hl.
  pose proof (outputHex_calls_fill start amount o Hf Hs Ha Hl) as E.
  pose proof (Z.mod_pos_bound (amount - start) 256 ltac:(lia)) as Hm.
  pose proof (Z.mod_le (amount - start) 256 ltac:(lia) ltac:(lia)) as Hle.
  unfold INT_MAX in Ha. split; [exact E |]. split.
  - rewrite (outputHex_text start amount o _ E).
    + by destruct ((amount - start) mod 256 =? 0).
    + destruct ((amount - start) mod 256 =? 0); repeat constructor;
        simpl; lia.
  - unfold chunk_data. apply Forall_fmap, Forall_forall.
    intros j Hj%elem_of_seqZ. simpl. rewrite Hl by lia. done.
Qed.

(** *** The output file *)

Lemma to_char_mod (z : Z) : to_char z = z mod 256.
Proof.
  unfold to_char. change 255 with (Z.ones 8). by rewrite Z.land_ones by lia.
Qed.

Lemma putc_mod (c : Z) : putc c = c mod 256.
Proof.
  unfold putc. rewrite to_char_mod. change 256 with (2 ^ 8).
  apply wrap_mod_pow2; lia.
Qed.

Lemma putc_low (x : Z) : putc (Z.land x 255) = x mod 256.
Proof.
  rewrite putc_mod. fold (to_char x). rewrite to_char_mod.
  by rewrite Z.mod_mod.
Qed.

Lemma putc_high (x : Z) : putc (Z.shiftr x 8) = x / 256 mod 256.
Proof. rewrite putc_mod, Z.shiftr_div_pow2 by lia. done. Qed.

Lemma save_range_written (o : output) :
  0 <= lowest_written o <= highest_written o → highest_written o < 2 ^ 30 →
  save_range o
  = (lowest_written o, highest_written o - lowest_written o + 1).
Proof.
  intros Hl Hh. unfold save_range.
  destruct (highest_written o <? lowest_written o) eqn:E; [zbool; lia |].
  rewrite (intval_id (highest_written o - lowest_written o)) by lia.
  by rewrite intval_id by lia.
Qed.

(** What [Output_save_file] writes when something has been written. *)
Lemma Output_save_file_written (s : state) :
  0 <= lowest_written (out s) <= highest_written (out s) →
  highest_written (out s) < 2 ^ 30 →
  let start := lowest_written (out s) in
  let amount := highest_written (out s) - start + 1 in
  let data := chunk_data start amount (out s) in
  Output_save_file s
  = match output_format s with
    | OUTPUT_FORMAT_APPLE =>
        Some (start mod 256 :: start / 256 mod 256
              :: amount mod 256 :: amount / 256 mod 256 :: data)
    | OUTPUT_FORMAT_UNSPECIFIED | OUTPUT_FORMAT_PLAIN => Some data
    | OUTPUT_FORMAT_CBM => Some (start mod 256 :: start / 256 mod 256 :: data)
    | OUTPUT_FORMAT_HEX =>
        text_bytes <$> outputHex start (start + amount) (out s)
    end.
Proof.
  intros Hl Hh start amount data.
  unfold Output_save_file. rewrite save_range_written by done.
  fold start amount. rewrite !putc_low, !putc_high.
  change ((λ i, to_char (load i (buffer (out s)))) <$> seqZ start amount)
    with data.
  destruct (output_format s); try done.
  unfold amount, start. rewrite (intval_id (_ + _)) by lia. done.
Qed.

(** X18. When something has been written, [Output_save_file] saves the
    bytes from the lowest to the highest index written: on their own for
    the plain format and when no format is chosen; after the two bytes of
    the load address, low byte first, for the CBM format; after the load
    address and the length, two bytes each, for the Apple format (of
    either only the low 16 bits); and as the Intel HEX records of that
    range for the hex format. *)
Theorem save_file_layout (s : state) :
  0 <= lowest_written (out s) <= highest_written (out s) →
  highest_written (out s) < 2 ^ 30 →
  let start := lowest_written (out s) in
  let amount := highest_written (out s) - start + 1 in
  let data := chunk_data start amount (out s) in
  Z.of_nat (length data) = amount
  ∧ (output_format s = OUTPUT_FORMAT_PLAIN
     ∨ output_format s = OUTPUT_FORMAT_UNSPECIFIED →
     Output_save_file s = Some data)
  ∧ (output_format s = OUTPUT_FORMAT_CBM →
     Output_save_file s
     = Some (start mod 256 :: start / 256 mod 256 :: data))
  ∧ (output_format s = OUTPUT_FORMAT_APPLE →
     Output_save_file s
     = Some (start mod 256 :: start / 256 mod 256
             :: amount mod 256 :: amount / 256 mod 256 :: data))
  ∧ (output_format s = OUTPUT_FORMAT_HEX →
     Output_save_file s
     = text_bytes <$> outputHex start (start + amount) (out s)).
Proof.
  intros Hl Hh start amount data.
  rewrite (Output_save_file_written s Hl Hh). fold start amount data.
  split_and!.
  - unfold data, chunk_data. rewrite length_fmap, length_seqZ.
    unfold amount, start. lia.
  - by intros [-> | ->].
  - by intros ->.
  - by intros ->.
  - by intros ->.
Qed.

Lemma outputHex_nothing (o : output) : outputHex 0 0 o = Some ":00000001ff".
Proof. reflexivity. Qed.

(** X19. After [Output_passinit], when nothing has been written,
    [Output_save_file] saves no data: the file is empty for the plain
    format and when no format is chosen, holds the load address 0 for the
    CBM format, the load address 0 and the length 0 for the Apple format,
    and the end-of-file record alone for the hex format. *)
Theorem save_file_nothing_written (s0 : state) :
  2 <= bufsize (out s0) <= 2 ^ 30 →
  ∃ s,
    Output_passinit s0 = Done tt s
    ∧ Output_save_file s
      = Some match output_format s0 with
             | OUTPUT_FORMAT_APPLE => [0; 0; 0; 0]
             | OUTPUT_FORMAT_CBM => [0; 0]
             | OUTPUT_FORMAT_HEX => text_bytes ":00000001ff"
             | _ => []
             end.
Proof.
  intros Hb. rewrite Output_passinit_eq. eexists. split; [reflexivity |].
  unfold Output_save_file, save_range. simpl.
  rewrite (intval_id (bufsize (out s0) - 1)) by lia.
  destruct (0 <? bufsize (out s0) - 1) eqn:E; [| zbool; lia].
  rewrite (intval_id (0 + 0)) by lia.
  by destruct (output_format s0).
Qed.

#[local] Instance same_format_preorder : PreOrder same_format.
Proof.
  split; [by intros s |]. intros s1 s2 s3. unfold same_format. congruence.
Qed.

Lemma real_output_format (byte : Z) :
  preserves same_format (real_output byte).
Proof.
  assert (∀ new_pc, preserves same_format (find_segment_max new_pc)) as Hf
    by (intros; unfold find_segment_max; preserve; done).
  assert (∀ off, preserves same_format (border_crossed off)) as Hb.
  { intros. unfold border_crossed, Throw_serious_error, Throw_error,
      Throw_warning. preserve; done. }
  assert (∀ v, preserves same_format (report_binary v)) as Hr
    by (intros; unfold report_binary; preserve; done).
  unfold real_output. preserve; done.
Qed.

Lemma Output_byte_call_format (byte : Z) (s s' : state) :
  Output_byte_call byte s = Done tt s' → output_format s' = output_format s.
Proof.
  destruct (Output_byte s) eqn:Hfn.
  - rewrite Output_byte_call_no, no_output_eq by done. intros E.
    by apply (preserves_Done same_format _ _ _ _ (real_output_format byte))
      in E.
  - rewrite Output_byte_call_real by done. intros E.
    by apply (preserves_Done same_format _ _ _ _ (real_output_format byte))
      in E.
Qed.

(** The bytes of a sequence of writes, as they stand in the buffer. *)
Lemma Output_bytes_chunk (bytes : list Z) :
  ∀ s,
  0 <= write_idx (out s) →
  write_idx (out s) + Z.of_nat (length bytes) <= bufsize (out s) →
  bufsize (out s) <= 2 ^ 30 →
  Z.of_nat (length (buffer (out s))) = bufsize (out s) →
  ∃ s',
    Output_bytes bytes s = Done tt s'
    ∧ chunk_data (write_idx (out s)) (Z.of_nat (length bytes)) (out s')
      = encoded (xor (out s)) <$> bytes
    ∧ (∀ i, i < write_idx (out s) →
            load i (buffer (out s')) = load i (buffer (out s)))
    ∧ (bytes ≠ [] →
       lowest_written (out s')
       = Z.min (lowest_written (out s)) (write_idx (out s))
       ∧ highest_written (out s')
         = Z.max (highest_written (out s))
             (write_idx (out s) + Z.of_nat (length bytes) - 1))
    ∧ write_idx (out s') = write_idx (out s) + Z.of_nat (length bytes)
    ∧ output_format s' = output_format s.
Proof.
  induction bytes as [|b bytes IH]; intros s Hw Hn Hb Hlen.
  { exists s. split_and!; try done. simpl. lia. }
  rewrite length_cons, Nat2Z.inj_succ in *.
  rewrite Output_bytes_cons.
  destruct (Output_byte_call_done b s)
    as (s1 & E1 & [w_idx w_buffer w_stores w_lowest w_highest w_bufsize w_ring w_xor
          w_fill w_pass w_config w_pc w_context]
        & Hfn & _); [lia.. |].
  rewrite E1. apply Output_byte_call_format in E1.
  rewrite intval_id in w_idx by lia.
  destruct (IH s1) as (s' & E & Hc & Hbelow & Hmarks & Hi & Hfmt).
  { lia. }
  { rewrite w_idx, w_bufsize. lia. }
  { by rewrite w_bufsize. }
  { by rewrite w_buffer, length_store, w_bufsize. }
  exists s'. split; [exact E |]. split_and!.
  - rewrite chunk_data_cons by lia. rewrite fmap_cons. f_equal.
    + rewrite Hbelow by lia. rewrite w_buffer, load_store by lia.
      unfold encoded. apply to_char_id, to_char_range.
    + replace (Z.succ (Z.of_nat (length bytes)) - 1)
        with (Z.of_nat (length bytes)) by lia.
      rewrite <- w_idx, Hc. by rewrite w_xor.
  - intros i Hi'. rewrite Hbelow by lia.
    rewrite w_buffer. apply load_store_ne. lia.
  - intros _. destruct bytes as [|b' bytes].
    + injection E as <-. rewrite w_lowest, w_highest. simpl. split; f_equal; lia.
    + destruct Hmarks as [-> ->]; [done |].
      rewrite w_lowest, w_highest, w_idx.
      rewrite length_cons, Nat2Z.inj_succ. lia.
  - rewrite Hi, w_idx. lia.
  - by rewrite Hfmt.
Qed.

(** X20. From the start of a pass, after the program counter is set to an
    address [a] and bytes are written that fit the buffer, the watermarks
    are [a] and the index of the last byte, and the file saved holds the
    low bytes of the values written, in order: on their own for the plain
    format and when no format is chosen, after the load address [a] for
    the CBM format. *)
Theorem save_file_round_trip (a seg_flags : Z) (bytes : list Z) (s0 : state)
    (k : Z) :
  0 <= k <= 30 → bufsize (out s0) = 2 ^ k →
  Z.of_nat (length (buffer (out s0))) = bufsize (out s0) →
  0 <= a → a + Z.of_nat (length bytes) <= bufsize (out s0) →
  bytes ≠ [] →
  ∃ s,
    (Output_passinit;; vcpu_set_pc a seg_flags;; Output_bytes bytes) s0
    = Done tt s
    ∧ lowest_written (out s) = a
    ∧ highest_written (out s) = a + Z.of_nat (length bytes) - 1
    ∧ (output_format s0 = OUTPUT_FORMAT_PLAIN
       ∨ output_format s0 = OUTPUT_FORMAT_UNSPECIFIED →
       Output_save_file s = Some ((λ b, Z.land b 255) <$> bytes))
    ∧ (output_format s0 = OUTPUT_FORMAT_CBM →
       Output_save_file s
       = Some (a mod 256 :: a / 256 mod 256
               :: ((λ b, Z.land b 255) <$> bytes))).
Proof.
  intros Hk Hb Hlen Ha Hn Hne.
  assert (0 < 2 ^ k) by (apply Z.pow_pos_nonneg; lia).
  assert (2 ^ k <= 2 ^ 30) by (apply Z.pow_le_mono_r; lia).
  assert (0 < Z.of_nat (length bytes)) by (destruct bytes; [done | simpl; lia]).
  rewrite (bind_Done _ _ _ _ _ (Output_passinit_eq s0)).
  match goal with
  | |- ∃ _, (_ ≫= _) ?s = _ ∧ _ => set (s1 := s)
  end.
  assert (vcpu_set_pc a seg_flags s1
          = Output_start_segment (intval (a - 0)) seg_flags
              (upd_pc (defined_pc a) s1)) as Ev
    by (apply vcpu_set_pc_plain; by left).
  destruct (Output_start_segment_done (intval (a - 0)) seg_flags
              (upd_pc (defined_pc a) s1) k)
    as (r & h & m & l & _ & _ & E & _);
    [done | done | by apply intval_range_small
     | by apply intval_range_small |].
  rewrite E in Ev. clear E.
  assert ((write_idx (out (upd_pc (defined_pc a) s1)) + intval (a - 0)) mod 2 ^ k
          = a) as Ei.
  { change (write_idx (out (upd_pc (defined_pc a) s1))) with 0.
    rewrite intval_id by lia. rewrite Z.mod_small by lia. lia. }
  rewrite Ei in Ev. rewrite (bind_Done _ _ _ _ _ Ev). clear Ev Ei.
  match goal with
  | |- ∃ _, _ ?s = _ ∧ _ => set (s2 := s)
  end.
  destruct (Output_bytes_chunk bytes s2)
    as (s & E & Hc & _ & Hmarks & _ & Hfmt); [simpl; lia.. | done |].
  destruct (Hmarks Hne) as [Hlo Hhi]. simpl in Hlo, Hhi, Hc, Hfmt.
  rewrite (intval_id (bufsize (out s0) - 1)) in Hlo by lia.
  assert (lowest_written (out s) = a) as Hlo' by lia.
  assert (highest_written (out s) = a + Z.of_nat (length bytes) - 1) as Hhi'
    by lia.
  exists s. split; [exact E |]. split; [exact Hlo' |]. split; [exact Hhi' |].
  assert (encoded 0 <$> bytes = (λ b, Z.land b 255) <$> bytes) as Henc.
  { apply list_fmap_ext. intros _ b _. unfold encoded.
    rewrite Z.lxor_0_r. apply to_char_id.
    pose proof (land_ff_range b). lia. }
  rewrite Output_save_file_written by lia. rewrite Hlo', Hhi', Hfmt.
  replace (a + Z.of_nat (length bytes) - 1 - a + 1)
    with (Z.of_nat (length bytes)) by lia.
  rewrite Hc, Henc.
  split; [by intros [-> | ->] | by intros ->].
Qed.

(** *** Intel HEX: the data under a fill value *)

(** The loop of [outputHex] under a fill value that is not 0.  Before
    index [i] there are [e] bytes of the fill value, and before them at
    most 64 bytes that are still to be written, from [chunkStart] on. *)
Lemma outputHex_loop_data (n : nat) (o : output) :
  fill_value o ≠ 0 →
  ∀ i cs e calls,
  0 <= cs → 0 <= e → cs + e <= i → i - cs - e <= 64 →
  i + Z.of_nat n < 2 ^ 31 →
  (∀ j, i - e <= j < i → load j (buffer o) = fill_value o) →
  ∃ cs' e' calls',
    outputHex_loop n o i cs e calls = (i + Z.of_nat n, cs', calls ++ calls')
    ∧ cs <= cs'
    ∧ 0 <= e' ∧ cs' + e' <= i + Z.of_nat n
    ∧ i + Z.of_nat n - cs' - e' <= 64
    ∧ (∀ j, i + Z.of_nat n - e' <= j < i + Z.of_nat n →
            load j (buffer o) = fill_value o)
    ∧ (n = O → e' = e)
    ∧ ((0 < n)%nat →
       load (i + Z.of_nat n - 1) (buffer o) ≠ fill_value o → e' = 0)
    ∧ (∀ j, cs <= j < cs' → load j (buffer o) ≠ fill_value o →
            j ∈ covered calls')
    ∧ Forall (λ j, cs <= j < cs') (covered calls')
    ∧ Forall (λ c, 0 <= c.2 <= 64) calls'
    ∧ Forall (λ c, cs <= c.1 ∧ c.1 + c.2 <= cs') calls'.
Proof.
  intros Hf. induction n as [|n IH]; intros i cs e calls Hcs He Hce Hp Hn Hrun.
  { exists cs, e, []. rewrite app_nil_r, Z.add_0_r.
    split_and!; try done; try lia; constructor. }
  cbn [outputHex_loop].
  assert (negb (fill_value o =? 0) = true) as ->
    by (apply negb_true_iff, Z.eqb_neq; done).
  cbn [andb]. rewrite (int_id (i + 1)) by lia.
  replace (i + Z.of_nat (S n)) with (i + 1 + Z.of_nat n) by lia.
  destruct (load i (buffer o) =? fill_value o) eqn:Ec; zbool.
  - (* a byte of the fill value *)
    rewrite (int_id (e + 1)) by lia.
    destruct (IH (i + 1) cs (e + 1) calls)
      as (cs' & e' & calls' & -> & Hle & He' & Hce' & Hp' & Hrun' & H0 & Hlast
          & Hcov & Hin & Hall & Hb); [lia.. | |].
    { intros j Hj. destruct (decide (j = i)) as [-> | ?]; [done |].
      apply Hrun. lia. }
    exists cs', e', calls'. split_and!; try done.
    intros _ Hne. destruct n as [|n].
    + rewrite Z.add_0_r in Hne. by replace (i + 1 - 1) with i in Hne by lia.
    + apply Hlast; [lia | done].
  - (* a byte of data *)
    rewrite (int_id (i - cs)) by lia. unfold maxEmpty, maxChunkSize.
    destruct (e >? 32) eqn:Ee; zbool; cbv beta iota zeta.
    + (* after a long run of the fill value *)
      rewrite (int_id (i - cs - e)) by lia.
      assert (negb (e =? 0) = true) as ->
        by (apply negb_true_iff, Z.eqb_neq; lia).
      cbn [orb]. cbv beta iota zeta.
      destruct (i - cs - e >? 64) eqn:E64; [zbool; lia |].
      rewrite Z.sub_diag, (int_id 0), Z.sub_0_r, (int_id i) by lia.
      rewrite (to_char_id (i - cs - e)) by lia.
      destruct (IH (i + 1) i 0 (calls ++ [(cs, i - cs - e)]))
        as (cs' & e' & calls' & -> & Hle & He' & Hce' & Hp' & Hrun' & H0 & Hlast
            & Hcov & Hin & Hall & Hb); [lia.. | intros j Hj; lia |].
      assert (load (i + 1 + Z.of_nat n - 1) (buffer o) ≠ fill_value o → e' = 0)
        as Hlast'
        by (intros Hne; destruct n; [by apply H0 | apply Hlast; [lia | done]]).
      exists cs', e', ((cs, i - cs - e) :: calls').
      rewrite <- app_assoc. split_and!; try done; try lia.
      * intros j Hj Hd. rewrite covered_cons. cbn [fst snd].
        apply elem_of_app.
        destruct (Z.lt_ge_cases j i) as [Hji | Hji].
        -- left. apply elem_of_seqZ.
           destruct (Z.lt_ge_cases j (i - e)) as [? | ?]; [lia |].
           destruct Hd. apply Hrun. lia.
        -- right. apply Hcov; [lia | done].
      * rewrite covered_cons. cbn [fst snd]. apply Forall_app. split.
        -- apply Forall_forall. intros j Hj%elem_of_seqZ. lia.
        -- eapply Forall_impl; [exact Hin |]. simpl. intros j Hj. lia.
      * constructor; [simpl; lia | done].
      * constructor; [simpl; lia |].
        eapply Forall_impl; [exact Hb |]. simpl. intros c Hc. lia.
    + (* the run, if any, counts as data *)
      change (negb (0 =? 0)) with false. cbn [orb].
      destruct (i - cs >=? 64) eqn:E64; zbool; cbv beta iota zeta.
      * assert (int (i - int (i - cs - (if i - cs >? 64 then 64 else i - cs)))
                = cs + 64
                ∧ to_char (if i - cs >? 64 then 64 else i - cs) = 64)
          as [-> ->].
        { destruct (i - cs >? 64) eqn:E'; zbool.
          - rewrite (int_id (i - cs - 64)), int_id by lia.
            split; [lia | done].
          - assert (i - cs = 64) as -> by lia.
            rewrite Z.sub_diag, (int_id 0), Z.sub_0_r, int_id by lia.
            split; [lia | done]. }
        destruct (IH (i + 1) (cs + 64) 0 (calls ++ [(cs, 64)]))
          as (cs' & e' & calls' & -> & Hle & He' & Hce' & Hp' & Hrun' & H0 & Hlast
              & Hcov & Hin & Hall & Hb); [lia.. | intros j Hj; lia |].
        assert (load (i + 1 + Z.of_nat n - 1) (buffer o) ≠ fill_value o → e' = 0)
          as Hlast'
          by (intros Hne; destruct n; [by apply H0 | apply Hlast; [lia | done]]).
        exists cs', e', ((cs, 64) :: calls').
        rewrite <- app_assoc. split_and!; try done; try lia.
        -- intros j Hj Hd. rewrite covered_cons. cbn [fst snd].
           apply elem_of_app.
           destruct (Z.lt_ge_cases j (cs + 64)) as [Hji | Hji].
           ++ left. apply elem_of_seqZ. lia.
           ++ right. apply Hcov; [lia | done].
        -- rewrite covered_cons. cbn [fst snd]. apply Forall_app. split.
           ++ apply Forall_forall. intros j Hj%elem_of_seqZ. lia.
           ++ eapply Forall_impl; [exact Hin |]. simpl. intros j Hj. lia.
        -- constructor; [simpl; lia | done].
        -- constructor; [simpl; lia |].
           eapply Forall_impl; [exact Hb |]. simpl. intros c Hc. lia.
      * destruct (IH (i + 1) cs 0 calls)
          as (cs' & e' & calls' & -> & Hle & He' & Hce' & Hp' & Hrun' & H0 & Hlast
              & Hcov & Hin & Hall & Hb); [lia.. | intros j Hj; lia |].
        assert (load (i + 1 + Z.of_nat n - 1) (buffer o) ≠ fill_value o → e' = 0)
          as Hlast'
          by (intros Hne; destruct n; [by apply H0 | apply Hlast; [lia | done]]).
        exists cs', e', calls'. split_and!; done.
Qed.

(** The calls of [outputHexChunk] under a fill value that is not 0, when
    the last byte of the range differs from the fill value. *)
Lemma outputHex_calls_data (start amount : Z) (o : output) :
  fill_value o ≠ 0 →
  0 <= start < amount → amount <= INT_MAX →
  load (amount - 1) (buffer o) ≠ fill_value o →
  ∃ calls,
    outputHex_calls start amount o = Some calls
    ∧ (∀ j, start <= j < amount → load j (buffer o) ≠ fill_value o →
            j ∈ covered calls)
    ∧ Forall (λ j, start <= j < amount) (covered calls)
    ∧ Forall (λ c, 0 <= c.2 <= 64) calls
    ∧ Forall (λ c, start <= c.1 ∧ c.1 + c.2 <= amount) calls.
Proof.
  intros Hf Hs Ha Hlast. unfold outputHex_calls. unfold INT_MAX in *.
  destruct (amount >? 2 ^ 31 - 1) eqn:E; [zbool; lia |].
  rewrite (int_id start) by lia.
  destruct (outputHex_loop_data (Z.to_nat (amount - start)) o Hf
              start start 0 [])
    as (cs & e & calls & -> & Hle & He & Hce & Hp & _ & _ & He0 & Hcov & Hin
        & Hall & Hb); [lia.. | intros j Hj; lia |].
  rewrite Z2Nat.id in * by lia.
  replace (start + (amount - start)) with amount in * by lia.
  rewrite He0 in * by (done || lia). clear He0.
  rewrite (int_id (amount - cs)), (to_char_id (amount - cs)) by lia.
  destruct (amount - cs =? 0) eqn:E0; zbool; eexists; (split; [done |]);
    simpl.
  - split_and!; [| | done |].
    + intros j Hj Hd. apply Hcov; [lia | done].
    + eapply Forall_impl; [exact Hin |]. simpl. intros j Hj. lia.
    + eapply Forall_impl; [exact Hb |]. simpl. intros c Hc. lia.
  - rewrite covered_app, covered_cons. cbn [fst snd covered mbind list_bind].
    rewrite app_nil_r. split_and!.
    + intros j Hj Hd. apply elem_of_app.
      destruct (Z.lt_ge_cases j cs) as [? | ?].
      * left. apply Hcov; [lia | done].
      * right. apply elem_of_seqZ. lia.
    + apply Forall_app. split.
      * eapply Forall_impl; [exact Hin |]. simpl. intros j Hj. lia.
      * apply Forall_forall. intros j Hj%elem_of_seqZ. lia.
    + apply Forall_app. split; [done |].
      constructor; [simpl; lia | constructor].
    + apply Forall_app. split.
      * eapply Forall_impl; [exact Hb |]. simpl. intros c Hc. lia.
      * constructor; [simpl; lia | constructor].
Qed.

(** X21. Under a fill value that is not 0, when the last byte of the
    range differs from the fill value, what [outputHex] writes is the text
    of data records and then the end-of-file record; the data records
    carry every byte of the range that differs from the fill value, they
    carry no byte from outside the range, and each holds at most 64 bytes
    (a record may hold none). *)
Theorem hex_fill_keeps_data (start amount : Z) (o : output) :
  fill_value o ≠ 0 →
  0 <= start < amount → amount <= INT_MAX →
  load (amount - 1) (buffer o) ≠ fill_value o →
  ∃ calls,
    outputHex_calls start amount o = Some calls
    ∧ outputHex start amount o = Some (hex_file calls o)
    ∧ (∀ j, start <= j < amount → load j (buffer o) ≠ fill_value o →
            j ∈ covered calls)
    ∧ Forall (λ j, start <= j < amount) (covered calls)
    ∧ Forall (λ c, 0 <= c.2 <= 64) calls.
Proof.
  intros Hf Hs Ha Hlast.
  destruct (outputHex_calls_data start amount o Hf Hs Ha Hlast)
    as (calls & E & Hcov & Hin & Hall & Hb).
  exists calls. split_and!; try done.
  apply outputHex_text; [done |]. unfold INT_MAX in Ha.
  rewrite Forall_forall in Hall. rewrite Forall_forall in Hb.
  apply Forall_forall. intros c Hc.
  specialize (Hall c Hc). specialize (Hb c Hc). simpl in *. lia.
Qed.

(** *** The size of the statement, the xor mask *)

Lemma vcpu_end_statement_eq (s : state) :
  vcpu_end_statement s
  = Done tt
      (upd_CPU_state (set_add_to_pc 0)
         (upd_pc (λ n, set_val_intval
                    (Z.land (intval (val_intval n + add_to_pc (CPU_state s)))
                       (intval (bufsize (out s) - 1))) n) s)).
Proof. reflexivity. Qed.

(** X22. Within a statement the program counter stays the one of the
    start of the statement, while [vcpu_get_statement_size] counts the
    bytes written; [vcpu_end_statement] adds them to the program counter,
    modulo the size of the buffer, and sets the size back to 0.  The
    program counter then lies inside the buffer. *)
Theorem statement_size_counts (bytes : list Z) (s : state) (k : Z) :
  bounded k (out s) →
  write_idx (out s) + Z.of_nat (length bytes) <= bufsize (out s) →
  ∃ s1 s2 s3,
    vcpu_end_statement s = Done tt s1
    ∧ Output_bytes bytes s1 = Done tt s2
    ∧ vcpu_get_statement_size s2 = Done (Z.of_nat (length bytes)) s2
    ∧ vcpu_read_pc s2 = Done (pc (CPU_state s1)) s2
    ∧ vcpu_end_statement s2 = Done tt s3
    ∧ vcpu_get_statement_size s3 = Done 0 s3
    ∧ val_intval (pc (CPU_state s3))
      = (val_intval (pc (CPU_state s1)) + Z.of_nat (length bytes)) mod 2 ^ k
    ∧ 0 <= val_intval (pc (CPU_state s3)) < bufsize (out s).
Proof.
  intros (Hk & Hb & Hw & _) Hn.
  assert (0 < 2 ^ k) by (apply Z.pow_pos_nonneg; lia).
  assert (2 ^ k <= 2 ^ 30) by (apply Z.pow_le_mono_r; lia).
  rewrite vcpu_end_statement_eq.
  set (s1 := upd_CPU_state _ _).
  destruct (Output_bytes_within bytes s1)
    as (s2 & new & E & _ & _ & _ & _ & _ & _ & Ew & Eb & _);
    [simpl; lia.. |].
  destruct (Output_bytes_position bytes s1 s2 E) as (Ep & Ec & _ & Ea).
  specialize (Ea ltac:(simpl; lia) ltac:(simpl; lia)). simpl in Ea.
  exists s1, s2. rewrite (vcpu_end_statement_eq s2). eexists.
  split; [reflexivity |]. split; [exact E |].
  unfold vcpu_get_statement_size, vcpu_read_pc. run.
  rewrite Ea, Ep, Eb. simpl. rewrite Hb.
  split_and!; try done.
  - by rewrite (mask_mod k).
  - rewrite (mask_mod k) by done. apply Z.mod_pos_bound. lia.
  - rewrite (mask_mod k) by done. apply Z.mod_pos_bound. lia.
Qed.

(** X23. After [output_set_xor], [output_get_xor] returns the mask, and a
    write stores the byte xor the mask, so that xor with the mask gives
    the byte back.  The mask stays for the writes that follow. *)
Theorem xor_mask_applies (x byte : Z) (s : state) :
  0 <= x < 256 → 0 <= byte < 256 →
  0 <= write_idx (out s) <= segment_max (out s) →
  write_idx (out s) < Z.of_nat (length (buffer (out s))) →
  ∃ s1 s2,
    output_set_xor x s = Done tt s1
    ∧ output_get_xor s1 = Done x s1
    ∧ real_output byte s1 = Done tt s2
    ∧ load (write_idx (out s)) (buffer (out s2)) = Z.lxor byte x
    ∧ Z.lxor (load (write_idx (out s)) (buffer (out s2))) x = byte
    ∧ stores s2 = stores s ++ [(write_idx (out s), Z.lxor byte x)]
    ∧ output_get_xor s2 = Done x s2.
Proof.
  intros Hx Hb Hw Hlen.
  unfold output_set_xor, output_get_xor. run.
  set (s1 := set_out (set_xor x (out s)) s).
  destruct (real_output_inside byte s1)
    as (s2 & E & [w_idx w_buffer w_stores w_lowest w_highest w_bufsize w_ring w_xor
          w_fill w_pass w_config w_pc w_context]
        & _); [simpl; lia |].
  simpl in *. rewrite to_char_lxor in * by done.
  exists s1, s2. split_and!; try done.
  - rewrite w_buffer, load_store by lia. done.
  - rewrite w_buffer, load_store by lia.
    by rewrite Z.lxor_assoc, Z.lxor_nilpotent, Z.lxor_0_r.
  - by rewrite w_xor.
Qed.

(** *** The bytes of the report *)

#[local] Instance same_report_preorder : PreOrder same_report.
Proof.
  split; [by intros s |].
  intros s1 s2 s3 [? ?] [? ?]. split; congruence.
Qed.

Lemma border_crossed_report (off : Z) :
  preserves same_report (border_crossed off).
Proof.
  assert (∀ new_pc, preserves same_report (find_segment_max new_pc)) as Hf
    by (intros; unfold find_segment_max; preserve; done).
  unfold border_crossed, Throw_serious_error, Throw_error, Throw_warning.
  preserve; done.
Qed.

Lemma report_binary_eq (v : Z) (s : state) :
  report_binary v s
  = Done tt (set_report (recorded v (write_idx (out s)) (report s)) s).
Proof.
  unfold report_binary, recorded. run.
  destruct (bin_used (report s) =? 0); simpl;
    destruct (bin_used _ <? REPORT_BINBUFSIZE); simpl; try done;
    by destruct s.
Qed.

Lemma real_output_report (byte : Z) (s s1 : state) :
  real_output byte s = Done tt s1 →
  report s1
  = (if report_fd (report s)
     then recorded (to_char (Z.land byte 255)) (write_idx (out s)) (report s)
     else report s)
  ∧ report_fd (report s1) = report_fd (report s).
Proof.
  rewrite real_output_unfold. intros ([] & s0 & E0 & E1)%bind_inv.
  eapply (preserves_Done same_report) in E0 as [Er Ew];
    [| apply preserves_when; [typeclasses eauto | apply border_crossed_report]].
  rewrite <- Er, <- Ew. clear Er Ew. revert E1.
  unfold real_output_rest. run.
  assert (∀ v w r, report_fd (recorded v w r) = report_fd r) as Hfd.
  { intros v w r. unfold recorded.
    destruct (bin_used r =? 0); simpl;
      destruct (bin_used _ <? REPORT_BINBUFSIZE); done. }
  destruct (write_idx (out s0) <? lowest_written (out s0)); simpl;
    destruct (write_idx (out s0) >? highest_written (out s0)); simpl;
    (destruct (report_fd (report s0)) eqn:Efd;
     [rewrite report_binary_eq |]);
    intros [= <-]; simpl; rewrite ?Hfd; done.
Qed.

Lemma Output_byte_call_report (byte : Z) (s s1 : state) :
  Output_byte_call byte s = Done tt s1 →
  report s1
  = (if report_fd (report s)
     then recorded (to_char (Z.land byte 255)) (write_idx (out s)) (report s)
     else report s)
  ∧ report_fd (report s1) = report_fd (report s).
Proof.
  destruct (Output_byte s) eqn:Hfn.
  - rewrite Output_byte_call_no, no_output_eq by done. intros E.
    by apply real_output_report in E.
  - rewrite Output_byte_call_real by done. apply real_output_report.
Qed.

(** The report after a sequence of writes, from [u] bytes recorded on. *)
Lemma Output_bytes_report (bytes : list Z) :
  0 < REPORT_BINBUFSIZE < 2 ^ 31 →
  ∀ s,
  report_fd (report s) = true →
  0 <= bin_used (report s) <= REPORT_BINBUFSIZE →
  REPORT_BINBUFSIZE <= Z.of_nat (length (bin_buf (report s))) →
  0 <= write_idx (out s) →
  write_idx (out s) + Z.of_nat (length bytes) <= bufsize (out s) →
  bufsize (out s) <= 2 ^ 30 →
  ∃ s',
    Output_bytes bytes s = Done tt s'
    ∧ bin_used (report s')
      = Z.min (bin_used (report s) + Z.of_nat (length bytes))
          REPORT_BINBUFSIZE
    ∧ length (bin_buf (report s')) = length (bin_buf (report s))
    ∧ (0 < bin_used (report s) →
       bin_address (report s') = bin_address (report s))
    ∧ (bin_used (report s) = 0 → bytes ≠ [] →
       bin_address (report s') = write_idx (out s))
    ∧ (∀ j, 0 <= j < bin_used (report s) →
            load j (bin_buf (report s')) = load j (bin_buf (report s)))
    ∧ (∀ j b, bin_used (report s) <= j < REPORT_BINBUFSIZE →
              bytes !! Z.to_nat (j - bin_used (report s)) = Some b →
              load j (bin_buf (report s')) = to_char (Z.land b 255)).
Proof.
  intros Hsize. induction bytes as [|b bytes IH];
    intros s Hfd Hu Hlen Hw Hn Hb.
  { exists s. split_and!; try done. simpl. lia. }
  rewrite length_cons, Nat2Z.inj_succ in *.
  rewrite Output_bytes_cons.
  destruct (Output_byte_call_done b s)
    as (s1 & E1 & [w_idx w_buffer w_stores w_lowest w_highest w_bufsize w_ring
          w_xor w_fill w_pass w_config w_pc w_context] & _); [lia.. |].
  rewrite E1. apply Output_byte_call_report in E1 as [Er Efd].
  rewrite Hfd in Er, Efd. rewrite intval_id in w_idx by lia.
  set (u := bin_used (report s)) in *.
  assert (bin_used (report s1) = Z.min (u + 1) REPORT_BINBUFSIZE
          ∧ length (bin_buf (report s1)) = length (bin_buf (report s))
          ∧ (0 < u → bin_address (report s1) = bin_address (report s))
          ∧ (u = 0 → bin_address (report s1) = write_idx (out s))
          ∧ (∀ j, 0 <= j < u →
                  load j (bin_buf (report s1)) = load j (bin_buf (report s)))
          ∧ (u < REPORT_BINBUFSIZE →
             load u (bin_buf (report s1)) = to_char (Z.land b 255)))
    as (Hu1 & Hlen1 & Ha1 & Ha0 & Hkeep1 & Hnew1).
  { rewrite Er. unfold recorded. fold u.
    destruct (u =? 0) eqn:E0; zbool; simpl; fold u;
      (destruct (u <? REPORT_BINBUFSIZE) eqn:E; zbool; simpl; fold u);
      rewrite ?(int_id (u + 1)) by lia; rewrite ?length_store;
      split_and!; try done; try lia;
      try (intros j Hj; apply load_store_ne; lia);
      try (intros _; apply load_store; lia). }
  destruct (IH s1) as (s' & E & Hu' & Hlen' & Ha' & Ha0' & Hkeep' & Hnew');
    [done | lia | by rewrite Hlen1 | lia | rewrite w_idx, w_bufsize; lia
     | by rewrite w_bufsize |].
  exists s'. split; [exact E |]. split_and!.
  - rewrite Hu', Hu1. lia.
  - by rewrite Hlen', Hlen1.
  - intros Hpos. rewrite Ha' by lia. by apply Ha1.
  - intros H0 _. rewrite Ha' by lia. by apply Ha0.
  - intros j Hj. rewrite Hkeep' by lia. apply Hkeep1. lia.
  - intros j b' Hj Hb'.
    destruct (decide (j = u)) as [-> | Hne].
    + rewrite Z.sub_diag in Hb'. simpl in Hb'. injection Hb' as <-.
      rewrite Hkeep' by lia. apply Hnew1. lia.
    + replace (Z.to_nat (j - u)) with (S (Z.to_nat (j - (u + 1)))) in Hb'
        by lia.
      simpl in Hb'. apply Hnew'; [lia |].
      rewrite Hu1. by replace (Z.min (u + 1) REPORT_BINBUFSIZE) with (u + 1)
        by lia.
Qed.

(** X24. With a report file, a sequence of writes that starts a line of the
    report records the write index of the first byte as the address of
    the line and the low bytes of the values written, in order, up to
    [REPORT_BINBUFSIZE] of them; the bytes beyond that are not recorded,
    and nothing is stored outside the buffer of the line. *)
Theorem report_keeps_first_bytes (bytes : list Z) (s : state) :
  0 < REPORT_BINBUFSIZE < 2 ^ 31 →
  report_fd (report s) = true →
  bin_used (report s) = 0 →
  REPORT_BINBUFSIZE <= Z.of_nat (length (bin_buf (report s))) →
  0 <= write_idx (out s) →
  write_idx (out s) + Z.of_nat (length bytes) <= bufsize (out s) →
  bufsize (out s) <= 2 ^ 30 →
  ∃ s',
    Output_bytes bytes s = Done tt s'
    ∧ bin_used (report s')
      = Z.min (Z.of_nat (length bytes)) REPORT_BINBUFSIZE
    ∧ length (bin_buf (report s')) = length (bin_buf (report s))
    ∧ (bytes ≠ [] → bin_address (report s') = write_idx (out s))
    ∧ (∀ j b, 0 <= j < REPORT_BINBUFSIZE →
              bytes !! Z.to_nat j = Some b →
              load j (bin_buf (report s')) = to_char (Z.land b 255)).
Proof.
  intros Hsize Hfd Hu Hlen Hw Hn Hb.
  destruct (Output_bytes_report bytes Hsize s)
    as (s' & E & Hu' & Hlen' & _ & Ha & _ & Hnew); [done | lia | done.. |].
  rewrite Hu in *. exists s'. split; [exact E |]. split_and!; try done.
  - by apply Ha.
  - intros j b Hj Hb'. apply Hnew; [lia |]. by rewrite Z.sub_0_r.
Qed.

(** *** Evaluation at concrete inputs *)

Lemma returned_final (r : outcome unit) :
  returned r = true → r = Done tt (final r).
Proof. by destruct r as [[] ?|]. Qed.

Lemma load_replicate (j v : Z) (n : nat) :
  0 <= j < Z.of_nat n → load j (replicate n v) = v.
Proof.
  intros Hj. unfold load. destruct (0 <=? j) eqn:E; [| zbool; lia].
  rewrite lookup_replicate_2 by lia. done.
Qed.

End properties.

(** ** The theorems at concrete inputs *)

Section concrete.
#[local] Existing Instance lp64.

(** Closes a hypothesis at a concrete input by evaluation. *)
Ltac evaluated :=
  vm_compute; repeat (apply conj || constructor);
  first [reflexivity | discriminate | exact I].

(** C1 at the pass-initialized 64 KiB buffer and the byte 0x41. *)
Lemma disabled_write_reports_once_witness :
  (Output_byte pass_begun = fn_no_output
   ∧ 0 <= xor (out pass_begun) < 256
   ∧ 0 <= write_idx (out pass_begun) <= segment_max (out pass_begun)
   ∧ write_idx (out pass_begun) < Z.of_nat (length (buffer (out pass_begun))))
  ∧ ∃ s1,
      Output_byte_call 0x41 pass_begun = Done tt s1
      ∧ diagnostics s1
        = diagnostics pass_begun ++ [Diag Error exception_pc_undefined]
      ∧ Output_byte s1 = fn_real_output
      ∧ load 0 (buffer (out s1)) = 0x41.
Proof.
  split; [evaluated |].
  destruct (disabled_write_reports_once 0x41 pass_begun)
    as (s1 & E & Hd & Hfn & _ & Hl & _); [evaluated.. |].
  exists s1. repeat apply conj; [exact E | exact Hd | exact Hfn | exact Hl].
Defined.

(** C2 at the 64 KiB buffer of the program start. *)
Lemma capacity_then_fatal_witness :
  (0 < bufsize (out booted) <= 2 ^ 30
   ∧ Forall (λ g, seg_start g <= bufsize (out booted)) (ring (out booted)))
  ∧ ∃ s,
      (Output_passinit;; vcpu_set_pc 0 0) booted = Done tt s
      ∧ ∃ s', Output_bytes (replicate (Z.to_nat 0x10000) 0xea) s = Done tt s'
              ∧ Output_bytes (replicate (Z.to_nat 0x10000) 0xea ++ [0xea]) s
                = Stop (Fatal "Produced too much code.") s'.
Proof.
  split; [evaluated |].
  destruct (capacity_then_fatal 0 booted) as (s & E & _ & Hf); [evaluated.. |].
  exists s. split; [exact E |].
  apply Hf. rewrite length_replicate, Z2Nat.id by discriminate. reflexivity.
Defined.

(** C3 at the pass-initialized buffer and three bytes. *)
Lemma stores_within_watermarks_witness :
  (0 <= write_idx (out pass_begun)
   ∧ write_idx (out pass_begun) + 3 <= bufsize (out pass_begun)
   ∧ bufsize (out pass_begun) <= 2 ^ 30)
  ∧ ∃ s' new,
      Output_bytes [1; 2; 3] pass_begun = Done tt s'
      ∧ stores s' = stores pass_begun ++ new
      ∧ Forall (λ i, lowest_written (out s') <= i <= highest_written (out s'))
          new.*1.
Proof.
  split; [evaluated |].
  destruct (stores_within_watermarks [1; 2; 3] pass_begun)
    as (s' & new & E & Hs & _ & Hin & _); [evaluated.. |].
  exists s', new. repeat apply conj; [exact E | exact Hs | exact Hin].
Defined.

(** C4 in the ring of [two_segments], at an address inside the first
    segment: the bound is the start of the second segment less one. *)
Lemma find_segment_max_next_start_witness :
  (intval_range 0x2005 ∧ intval_range (0x2005 + 1)
   ∧ intval_range (bufsize (out two_segments) - 1)
   ∧ Forall (λ g, intval_range (seg_start g)) (ring (out two_segments))
   ∧ ring_sorted (ring (out two_segments)))
  ∧ ring (out two_segments)
    = [ {| seg_start := 0x2000; seg_length := 16 |};
        {| seg_start := 0x3000; seg_length := 5 |} ]
  ∧ ∃ s',
      find_segment_max 0x2005 two_segments = Done tt s'
      ∧ segment_max (out s') = 0x2fff.
Proof.
  assert (ring (out two_segments)
          = [ {| seg_start := 0x2000; seg_length := 16 |};
              {| seg_start := 0x3000; seg_length := 5 |} ]) as Hring
    by (vm_compute; reflexivity).
  assert (intval_range 0x2005) as H1 by evaluated.
  assert (intval_range (0x2005 + 1)) as H2 by evaluated.
  assert (intval_range (bufsize (out two_segments) - 1)) as H3 by evaluated.
  assert (Forall (λ g, intval_range (seg_start g)) (ring (out two_segments)))
    as H4 by (rewrite Hring; repeat constructor; evaluated).
  assert (ring_sorted (ring (out two_segments))) as H5.
  { rewrite Hring. repeat constructor. }
  split; [exact (conj H1 (conj H2 (conj H3 (conj H4 H5)))) |].
  split; [exact Hring |].
  destruct (find_segment_max_next_start 0x2005 two_segments H1 H2 H3 H4 H5)
    as (s' & E & _ & _ & [(g & Hg & Hlt & Hmin & Hm) | [Hall _]]).
  - exists s'. split; [exact E |]. rewrite Hm. rewrite Hring in Hg.
    apply elem_of_cons in Hg as [-> | Hg]; [simpl in Hlt; lia |].
    apply list_elem_of_singleton in Hg as ->. reflexivity.
  - exfalso.
    assert (seg_start {| seg_start := 0x3000; seg_length := 5 |} <= 0x2005)
      as Hin by (apply Hall; rewrite Hring; right; left).
    simpl in Hin. lia.
Defined.

(** C5 at depth three, the middle pc beyond the end of the buffer, the
    innermost negative; the pc from before is an address of the buffer. *)
Lemma pseudopc_round_trip_witness :
  (0 <= 16 < intval_bits - 1
   ∧ bufsize (out pass_begun) = 2 ^ 16
   ∧ 0 <= val_intval (pc (CPU_state pass_begun)) < bufsize (out pass_begun))
  ∧ (pseudopc_starts
       [ {| ntype := NUMTYPE_INT; flags := 0; val_intval := 0x9000;
            addr_refs := 1 |};
         {| ntype := NUMTYPE_INT; flags := 0; val_intval := 0x12345;
            addr_refs := 1 |};
         {| ntype := NUMTYPE_INT; flags := 0; val_intval := -1;
            addr_refs := 0 |} ];;
     pseudopc_ends 3) pass_begun
    = Done tt pass_begun.
Proof.
  assert (0 <= val_intval (pc (CPU_state pass_begun))
          < bufsize (out pass_begun)) as H3 by evaluated.
  split; [evaluated |].
  edestruct (pseudopc_round_trip
               [ {| ntype := NUMTYPE_INT; flags := 0; val_intval := 0x9000;
                    addr_refs := 1 |};
                 {| ntype := NUMTYPE_INT; flags := 0; val_intval := 0x12345;
                    addr_refs := 1 |};
                 {| ntype := NUMTYPE_INT; flags := 0; val_intval := -1;
                    addr_refs := 0 |} ] pass_begun 16)
    as (s' & E & _ & _ & _ & _ & Hs); [evaluated.. |].
  destruct (Hs H3) as [_ ->]. exact E.
Defined.

(** C5 as it is worded fails inside a context whose pc lies beyond the
    end of the buffer: there a further context, entered and left, gives
    the pc back modulo the buffer size, and the pc 0x12345 from before the
    entry has become 0x2345 in the 64 KiB buffer.  The type of the pc and
    the chain of contexts are the ones from before. *)
Example pseudopc_end_wraps :
  let inside :=
    final (pseudopc_start
             {| ntype := NUMTYPE_INT; flags := 0; val_intval := 0x12345;
                addr_refs := 1 |} pass_begun) in
  let back :=
    final ((pseudopc_start
              {| ntype := NUMTYPE_INT; flags := 0; val_intval := 0x1000;
                 addr_refs := 1 |};;
            pseudopc_end) inside) in
  (returned (pseudopc_start
               {| ntype := NUMTYPE_INT; flags := 0; val_intval := 0x1000;
                  addr_refs := 1 |} inside) = true
   ∧ returned ((pseudopc_start
                  {| ntype := NUMTYPE_INT; flags := 0; val_intval := 0x1000;
                     addr_refs := 1 |};;
                pseudopc_end) inside) = true)
  ∧ val_intval (pc (CPU_state inside)) = 0x12345
  ∧ val_intval (pc (CPU_state back)) = 0x2345
  ∧ val_intval (pc (CPU_state back)) ≠ val_intval (pc (CPU_state inside))
  ∧ ntype (pc (CPU_state back)) = ntype (pc (CPU_state inside))
  ∧ pseudopc_current_context back = pseudopc_current_context inside.
Proof.
  vm_compute. repeat (apply conj); try reflexivity. discriminate.
Qed.

(** C6 under the current version and under a version from before
    [VER_DISABLED_OBSOLETE_STUFF]. *)
Lemma pseudopc_end_unopened_witness :
  (pseudopc_current_context (startup default_config pass_one) = []
   ∧ pseudopc_current_context (startup legacy_config pass_one) = [])
  ∧ pseudopc_end (startup default_config pass_one)
    = Stop (Bug "ClosingUnopenedPseudopcBlock" 0)
        (startup default_config pass_one)
  ∧ pseudopc_end (startup legacy_config pass_one)
    = Done tt (startup legacy_config pass_one).
Proof.
  split; [split; reflexivity |]. split.
  - apply (pseudopc_end_unopened (startup default_config pass_one));
      evaluated.
  - apply (pseudopc_end_unopened (startup legacy_config pass_one));
      evaluated.
Defined.

(** C7 at the record with address 0x0000 and the two data bytes 0x01,
    0x02. *)
Lemma hex_record_checksum_witness :
  (0 <= 0 ∧ 0 <= 2 < 256 ∧ 0 + 2 < 2 ^ 31)
  ∧ Z.land (outputHexChunk_checksum 0 2 two_bytes) 0xff = 0xFB
  ∧ outputHexChunk 0 2 two_bytes = ":020000000102fb" +:+ newline.
Proof.
  split; [evaluated |].
  apply (hex_record_checksum 0 2 two_bytes); evaluated.
Defined.

(** The line of C7 is not the one with upper-case digits. *)
Lemma hex_record_not_upper_case :
  outputHexChunk 0 2 two_bytes ≠ ":020000000102FB" +:+ newline
  ∧ outputHexChunk 0 2 two_bytes ≠ ":020000000102FB".
Proof. split; vm_compute; discriminate. Qed.

(** C8 at the buffer of the program start. *)
Lemma initmem_twice_witness :
  initvalue_set (out booted) = false
  ∧ ∃ s1 s2,
      output_initmem 0xea booted = Done 0 s1
      ∧ output_initmem 0x55 s1 = Done 1 s2
      ∧ fill_value (out s2) = 0xea
      ∧ diagnostics s2
        = diagnostics s1 ++ [Diag Warning "Memory already initialised."].
Proof.
  split; [evaluated |].
  destruct (initmem_twice 0xea 0x55 booted)
    as (s1 & s2 & E1 & _ & E2 & Hs2 & Hf & _); [evaluated |].
  exists s1, s2. repeat apply conj; [exact E1 | exact E2 | exact Hf |].
  rewrite Hs2. reflexivity.
Defined.

(** C9: at program start "plain" is selected, then "cbm" is, and CBM it
    is, without a word. *)
Lemma format_reselected :
  let s0 := startup default_config pass_one in
  let s1 := set_output_format OUTPUT_FORMAT_PLAIN s0 in
  let s2 := set_output_format OUTPUT_FORMAT_CBM s1 in
  outputfile_set_format "plain" s0 = Done 0 s1
  ∧ output_format s1 = OUTPUT_FORMAT_PLAIN
  ∧ outputfile_set_format "cbm" s1 = Done 0 s2
  ∧ output_format s2 = OUTPUT_FORMAT_CBM
  ∧ output_format s2 ≠ output_format s1
  ∧ diagnostics s2 = diagnostics s1.
Proof. repeat apply conj; try reflexivity. discriminate. Qed.

Lemma format_last_selection_wins_witness :
  (Tree_easy_scan file_format_tree "plain" = Some OUTPUT_FORMAT_PLAIN
   ∧ Tree_easy_scan file_format_tree "cbm" = Some OUTPUT_FORMAT_CBM)
  ∧ ∃ s1 s2,
      outputfile_set_format "plain" (startup default_config pass_one)
      = Done 0 s1
      ∧ outputfile_set_format "cbm" s1 = Done 0 s2
      ∧ output_format s2 = OUTPUT_FORMAT_CBM
      ∧ diagnostics s2 = diagnostics (startup default_config pass_one).
Proof.
  split; [evaluated |].
  destruct (format_last_selection_wins "plain" "cbm" OUTPUT_FORMAT_PLAIN
              OUTPUT_FORMAT_CBM (startup default_config pass_one))
    as (s1 & s2 & E1 & _ & E2 & Hf & Hd & _); [evaluated.. |].
  exists s1, s2. repeat apply conj; [exact E1 | exact E2 | exact Hf | exact Hd].
Defined.

(** C10 at the first hundred bytes, all zero, of the buffer of the program
    start, whose fill value is 0: two records, of 64 and of 36 bytes; and
    at a byte 0x01, forty bytes 0x00 and a byte 0x02 under the fill value
    0: one record with all the forty-two bytes. *)
Lemma hex_zero_fill_skips_nothing_witness :
  ((fill_value (out booted) = 0 ∧ 0 <= 0 <= 100 ∧ 100 <= INT_MAX)
   ∧ (fill_value (gap 0) = 0 ∧ 0 <= 0 <= 42 ∧ 42 <= INT_MAX))
  ∧ outputHex_calls 0 100 (out booted) = Some [(0, 64); (64, 36)]
  ∧ (∃ calls,
       outputHex_calls 0 100 (out booted) = Some calls
       ∧ outputHex 0 100 (out booted) = Some (hex_file calls (out booted))
       ∧ covered calls = seqZ 0 (100 - 0))
  ∧ outputHex 0 42 (gap 0)
    = Some (":2a00000001"
            +:+ "0000000000000000000000000000000000000000"
            +:+ "0000000000000000000000000000000000000000"
            +:+ "02d3" +:+ newline
            +:+ ":00000001ff").
Proof.
  split; [split; evaluated |]. split; [vm_compute; reflexivity |]. split.
  - destruct (hex_zero_fill_skips_nothing 0 100 (out booted))
      as (calls & E & Ht & Hc & _); [evaluated.. |].
    exists calls. split; [exact E |]. split; [exact Ht | exact Hc].
  - destruct (hex_zero_fill_skips_nothing 0 42 (gap 0))
      as (calls & E & Ht & _); [evaluated.. |].
    assert (outputHex_calls 0 42 (gap 0) = Some [(0, 42)]) as E'
      by (vm_compute; reflexivity).
    rewrite E' in E. injection E as <-. rewrite Ht.
    vm_compute. reflexivity.
Defined.

(** The run of forty bytes is left out when the fill value is 0xff, and
    written when it is 0. *)
Example hex_gap :
  outputHex_calls 0 42 (gap 0xff) = Some [(0, 1); (41, 1)]
  ∧ outputHex_calls 0 42 (gap 0) = Some [(0, 42)].
Proof. split; vm_compute; reflexivity. Qed.

(** X1 in the ring of [two_segments], at an address inside the first
    segment. *)
Lemma check_segment_overlap_witness :
  (intval_range (0x2005 + 1)
   ∧ ring_sorted (ring (out two_segments))
   ∧ ends_in_range (ring (out two_segments)))
  ∧ check_segment 0x2005 two_segments
    = Done tt (set_diagnostics
                 (diagnostics two_segments ++ [starts_inside two_segments])
                 (upd_out (set_list_head {| seg_start := 0x2005 + 1;
                                            seg_length := 1 |})
                    two_segments)).
Proof.
  assert (ring (out two_segments)
          = [ {| seg_start := 0x2000; seg_length := 16 |};
              {| seg_start := 0x3000; seg_length := 5 |} ]) as Hring
    by (vm_compute; reflexivity).
  assert (intval_range (0x2005 + 1)) as H1 by evaluated.
  assert (ring_sorted (ring (out two_segments))) as H2
    by (rewrite Hring; repeat constructor).
  assert (ends_in_range (ring (out two_segments))) as H3
    by (rewrite Hring; repeat constructor; evaluated).
  split; [exact (conj H1 (conj H2 H3)) |].
  destruct (check_segment_overlap 0x2005 two_segments H1 H2 H3)
    as (l & E & Hin & _).
  rewrite E, Hin; [reflexivity |].
  rewrite Hring. left. unfold inside. simpl. lia.
Defined.

(** X2 at the end of the segment of 16 bytes at 0x2000, which is added
    to the ring, and at the end of the same segment when it is invisible,
    which changes nothing. *)
Lemma Output_end_segment_ring_witness :
  ((bounded 16 (out open_segment)
    ∧ ring_sorted (ring (out open_segment))
    ∧ ends_in_range (ring (out open_segment))
    ∧ Forall (λ g, seg_length g ≠ 0) (ring (out open_segment)))
   ∧ (bounded 16 (out invisible_segment)
      ∧ ring_sorted (ring (out invisible_segment))
      ∧ ends_in_range (ring (out invisible_segment))
      ∧ Forall (λ g, seg_length g ≠ 0) (ring (out invisible_segment))))
  ∧ current_segment (out open_segment)
    = {| seg_start := 0x2000; seg_length := 16 |}
  ∧ (∃ s',
       Output_end_segment open_segment = Done tt s'
       ∧ ring_sorted (ring (out s'))
       ∧ ring (out s')
         ≡ₚ current_segment (out open_segment) :: ring (out open_segment))
  ∧ Output_end_segment invisible_segment = Done tt invisible_segment.
Proof.
  assert (ring (out invisible_segment) = []) as Hring'
    by (vm_compute; reflexivity).
  assert (bounded 16 (out invisible_segment)) as H1' by evaluated.
  assert (ring_sorted (ring (out invisible_segment))) as H2'
    by (rewrite Hring'; constructor).
  assert (ends_in_range (ring (out invisible_segment))) as H3'
    by (rewrite Hring'; constructor).
  assert (Forall (λ g, seg_length g ≠ 0) (ring (out invisible_segment)))
    as H4' by (rewrite Hring'; constructor).
  assert (ring (out open_segment) = []) as Hring by (vm_compute; reflexivity).
  assert (bounded 16 (out open_segment)) as H1 by evaluated.
  assert (ring_sorted (ring (out open_segment))) as H2
    by (rewrite Hring; constructor).
  assert (ends_in_range (ring (out open_segment))) as H3
    by (rewrite Hring; constructor).
  assert (Forall (λ g, seg_length g ≠ 0) (ring (out open_segment))) as H4
    by (rewrite Hring; constructor).
  split;
    [exact (conj (conj H1 (conj H2 (conj H3 H4)))
              (conj H1' (conj H2' (conj H3' H4')))) |].
  split; [vm_compute; reflexivity |]. split.
  - destruct (Output_end_segment_ring open_segment 16 H1 H2 H3 H4)
      as (s' & E & Hs & _ & _ & _ & Hadd & _).
    exists s'. split; [exact E |]. split; [exact Hs |].
    apply Hadd; evaluated.
  - destruct (Output_end_segment_ring invisible_segment 16 H1' H2' H3' H4')
      as (s' & E & _ & _ & _ & _ & _ & _ & Hsame & _).
    rewrite <- (Hsame ltac:(right; right; left; evaluated)) at 2. exact E.
Defined.

(** X3 at a new segment that starts inside the one just ended. *)
Lemma Output_start_segment_begins_witness :
  (bounded 16 (out open_segment)
   ∧ ring_sorted (ring (out open_segment))
   ∧ ends_in_range (ring (out open_segment)))
  ∧ ∃ s',
      Output_start_segment (-11) 0 open_segment = Done tt s'
      ∧ Output_byte s' = fn_real_output
      ∧ write_idx (out s') = 0x2005
      ∧ diagnostics s'
        = diagnostics open_segment ++ [starts_inside open_segment].
Proof.
  assert (ring (out open_segment) = []) as Hring by (vm_compute; reflexivity).
  assert (bounded 16 (out open_segment)) as H1 by evaluated.
  assert (ring_sorted (ring (out open_segment))) as H2
    by (rewrite Hring; constructor).
  assert (ends_in_range (ring (out open_segment))) as H3
    by (rewrite Hring; constructor).
  split; [exact (conj H1 (conj H2 H3)) |].
  destruct (Output_start_segment_begins (-11) 0 open_segment 16 H1 H2 H3)
    as (s' & E & Hfn & Hw & _ & _ & _ & _ & _ & _ & Hfirst).
  assert (s' = final (Output_start_segment (-11) 0 open_segment)) as Hs'
    by (by rewrite E).
  assert (ring (out s') = [ {| seg_start := 0x2000; seg_length := 16 |} ])
    as Hr by (rewrite Hs'; vm_compute; reflexivity).
  assert (write_idx (out s') = 0x2005) as Hw'
    by (rewrite Hw; vm_compute; reflexivity).
  exists s'. split; [exact E |]. split; [exact Hfn |]. split; [exact Hw' |].
  destruct Hfirst as (_ & _ & Hin & _); [evaluated |].
  apply Hin; [reflexivity |].
  rewrite Hr, Hw'. left. unfold inside. simpl. lia.
Defined.

(** X4 at two contexts entered at 0x1000: the state is again the one
    from before the two contexts. *)
Lemma pseudopc_end_all_closes_witness :
  (0 <= 16 <= 30 ∧ bufsize (out nested) = 2 ^ 16)
  ∧ length (pseudopc_current_context nested) = 2%nat
  ∧ ∃ s',
      pseudopc_end_all nested = Done tt s'
      ∧ pseudopc_current_context s' = []
      ∧ val_intval (pc (CPU_state s')) = 0x1000
      ∧ s' = set_pseudopc_current_context []
               (upd_pc (λ _, pc (CPU_state s')) nested)
      ∧ flags (pc (CPU_state s')) = flags (pc (CPU_state nested))
      ∧ addr_refs (pc (CPU_state s')) = addr_refs (pc (CPU_state nested)).
Proof.
  split; [evaluated |]. split; [vm_compute; reflexivity |].
  destruct (pseudopc_end_all_closes nested 16)
    as (s' & E & _ & Hc & _ & _ & _ & Hv & Hs & Hfl & Har); [evaluated.. |].
  exists s'. split; [exact E |]. split; [exact Hc |].
  destruct Hv as [Hv _]; [evaluated |].
  split; [rewrite Hv; vm_compute; reflexivity |].
  split; [exact Hs |]. split; [exact Hfl | exact Har].
Defined.

(** X5 at the start of the pass, for a program counter beyond the end of
    the buffer: the write index wraps round. *)
Lemma vcpu_set_pc_moves_both_witness :
  (bounded 16 (out pass_begun)
   ∧ pseudopc_current_context pass_begun = [])
  ∧ ∃ s',
      vcpu_set_pc 0x12345 0 pass_begun = Done tt s'
      ∧ val_intval (pc (CPU_state s')) = 0x12345
      ∧ Output_byte s' = fn_real_output
      ∧ write_idx (out s') = 0x2345.
Proof.
  assert (bounded 16 (out pass_begun)) as H1 by evaluated.
  assert (pseudopc_current_context pass_begun = []) as H2
    by (vm_compute; reflexivity).
  split; [exact (conj H1 H2) |].
  destruct (vcpu_set_pc_moves_both 0x12345 0 pass_begun 16 H1 (or_introl H2))
    as (s' & E & Hp & _ & Hfn & Hw & _).
  exists s'. split; [exact E |]. split; [by rewrite Hp |].
  split; [exact Hfn |]. rewrite Hw. vm_compute. reflexivity.
Defined.

(** X6 at a context left open under the version 0.93. *)
Lemma vcpu_set_pc_closes_contexts_witness :
  (bounded 16 (out legacy_nested)
   ∧ pseudopc_current_context legacy_nested ≠ []
   ∧ wanted_version (config legacy_nested) < VER_SHORTER_SETPC_WARNING)
  ∧ ∃ s' l,
      vcpu_set_pc 0x2000 0 legacy_nested = Done tt s'
      ∧ pseudopc_current_context s' = []
      ∧ diagnostics s'
        = diagnostics legacy_nested
          ++ Diag Warning
               "Offset assembly still active at end of segment. Switched it off."
             :: l
      ∧ (l = [] ∨ l = [starts_inside legacy_nested])
      ∧ write_idx (out s') = 0x2000.
Proof.
  assert (bounded 16 (out legacy_nested)) as H1 by evaluated.
  assert (pseudopc_current_context legacy_nested ≠ []) as H2 by evaluated.
  assert (wanted_version (config legacy_nested) < VER_SHORTER_SETPC_WARNING)
    as H3 by evaluated.
  split; [exact (conj H1 (conj H2 H3)) |].
  destruct (vcpu_set_pc_closes_contexts 0x2000 0 legacy_nested 16 H1 H2
              (or_introl H3))
    as (s' & l & E & Hc & Hd & _ & _ & _ & Hw & Hl & _).
  exists s', l. split; [exact E |]. split; [exact Hc |].
  split; [rewrite Hd; reflexivity |]. split; [exact Hl |].
  rewrite Hw. vm_compute. reflexivity.
Defined.

(** X7 at the calls of [sample_calls] from the start of the pass. *)
Lemma write_index_follows_pc_witness :
  (0 <= 16 <= 30
   ∧ bufsize (out pass_begun) = 2 ^ 16
   ∧ run_calls sample_calls pass_begun
     = Done tt (final (run_calls sample_calls pass_begun)))
  ∧ lead 16 (final (run_calls sample_calls pass_begun)) = lead 16 pass_begun
  ∧ lead 16 pass_begun = 0
  ∧ write_idx (out (final (run_calls sample_calls pass_begun))) = 0x1008.
Proof.
  assert (0 <= 16 <= 30) as H1 by lia.
  assert (bufsize (out pass_begun) = 2 ^ 16) as H2 by (vm_compute; reflexivity).
  assert (run_calls sample_calls pass_begun
          = Done tt (final (run_calls sample_calls pass_begun))) as H3
    by (apply returned_final; vm_compute; reflexivity).
  split; [exact (conj H1 (conj H2 H3)) |].
  destruct (write_index_follows_pc sample_calls pass_begun _ 16 H1 H2 H3)
    as (Hl & _ & _).
  split; [exact Hl |]. split; vm_compute; reflexivity.
Defined.

(** X8 at the block of the scenario: the program counter 0x1000, a block
    at 0x9000 with two bytes in it, and 0x1002 after it. *)
Lemma offset_block_advances_pc_witness :
  (bounded 16 (out at_1000)
   ∧ write_idx (out at_1000) + 2 <= bufsize (out at_1000)
   ∧ 0 <= add_to_pc (CPU_state at_1000) < 2 ^ 30)
  ∧ val_intval (pc (CPU_state at_1000)) = 0x1000
  ∧ ∃ s',
      (pseudopc_start pc_9000;; Output_bytes [1; 2];; vcpu_end_statement;;
       pseudopc_end) at_1000 = Done tt s'
      ∧ val_intval (pc (CPU_state s')) = 0x1002
      ∧ pseudopc_current_context s' = pseudopc_current_context at_1000.
Proof.
  split; [evaluated |]. split; [vm_compute; reflexivity |].
  destruct (offset_block_advances_pc pc_9000 [1; 2] at_1000 16)
    as (s' & E & Hv & _ & _ & Hc & _); [evaluated.. |].
  exists s'. split; [exact E |]. split; [| exact Hc].
  rewrite Hv. vm_compute. reflexivity.
Defined.

(** X9 over the chain of [nested], by one level and by three. *)
Lemma pseudopc_unpseudo_levels_witness :
  (0 <= 16 <= 30 ∧ bufsize (out nested) = 2 ^ 16)
  ∧ length (pseudopc_current_context nested) = 2%nat
  ∧ (∃ t,
       pseudopc_unpseudo pc_0400 (pseudopc_current_context nested) 1 nested
       = Done (0, t) nested
       ∧ val_intval t = 0x9000)
  ∧ (∃ t,
       pseudopc_unpseudo pc_0400 (pseudopc_current_context nested) 3 nested
       = Done (1, t)
           (set_diagnostics (diagnostics nested ++ [no_context]) nested)).
Proof.
  assert (0 <= 16 <= 30) as H1 by lia.
  assert (bufsize (out nested) = 2 ^ 16) as H2 by (vm_compute; reflexivity).
  assert (length (pseudopc_current_context nested) = 2%nat) as Hl
    by (vm_compute; reflexivity).
  split; [exact (conj H1 H2) |]. split; [exact Hl |]. split.
  - destruct (pseudopc_unpseudo_levels pc_0400
                (pseudopc_current_context nested) 1 nested 16 H1 H2)
      as [Hok _].
    destruct Hok as (t & E & _ & _ & Hv); [rewrite Hl; lia |].
    exists t. split; [exact E |]. rewrite Hv by discriminate.
    vm_compute. reflexivity.
  - destruct (pseudopc_unpseudo_levels pc_0400
                (pseudopc_current_context nested) 3 nested 16 H1 H2)
      as [_ Herr].
    apply Herr. rewrite Hl. lia.
Defined.

(** X10 at a label at 0x0410 inside the two contexts entered at 0x1000: it
    stands at 0x1010; and at the program counter inside the two contexts,
    which stands at 0x1000. *)
Lemma pseudopc_unpseudo_undoes_starts_witness :
  (0 <= 16 <= 30 ∧ bufsize (out at_1000) = 2 ^ 16
   ∧ [pc_9000; pc_0400] ≠ []
   ∧ 0 <= val_intval (pc (CPU_state at_1000)) < bufsize (out at_1000))
  ∧ (∃ s1 context t,
       pseudopc_starts [pc_9000; pc_0400] at_1000 = Done tt s1
       ∧ pseudopc_get_context s1 = Done context s1
       ∧ pseudopc_unpseudo
           {| ntype := NUMTYPE_INT; flags := 0; val_intval := 0x0410;
              addr_refs := 1 |} context 2 s1
         = Done (0, t) s1
       ∧ val_intval t = 0x1010)
  ∧ (∃ s1 context t,
       pseudopc_starts [pc_9000; pc_0400] at_1000 = Done tt s1
       ∧ pseudopc_get_context s1 = Done context s1
       ∧ pseudopc_unpseudo (pc (CPU_state s1)) context 2 s1 = Done (0, t) s1
       ∧ val_intval t = 0x1000).
Proof.
  assert (0 <= 16 <= 30) as H1 by lia.
  assert (bufsize (out at_1000) = 2 ^ 16) as H2 by (vm_compute; reflexivity).
  assert ([pc_9000; pc_0400] ≠ []) as H3 by discriminate.
  assert (0 <= val_intval (pc (CPU_state at_1000)) < bufsize (out at_1000))
    as H4 by evaluated.
  split; [exact (conj H1 (conj H2 (conj H3 H4))) |]. split.
  - destruct (pseudopc_unpseudo_undoes_starts [pc_9000; pc_0400]
                {| ntype := NUMTYPE_INT; flags := 0; val_intval := 0x0410;
                   addr_refs := 1 |} at_1000 16 H1 H2 H3)
      as (s1 & context & t & E & Eg & _ & Eu & Hv & _).
    assert (s1 = final (pseudopc_starts [pc_9000; pc_0400] at_1000)) as Hs1
      by (by rewrite E).
    exists s1, context, t. split; [exact E |]. split; [exact Eg |].
    split; [exact Eu |]. rewrite Hv, Hs1. vm_compute. reflexivity.
  - destruct (pseudopc_unpseudo_undoes_starts [pc_9000; pc_0400]
                (pc (CPU_state
                       (final (pseudopc_starts [pc_9000; pc_0400] at_1000))))
                at_1000 16 H1 H2 H3)
      as (s1 & context & t & E & Eg & _ & Eu & _ & _ & Hv).
    assert (s1 = final (pseudopc_starts [pc_9000; pc_0400] at_1000)) as Hs1
      by (by rewrite E).
    rewrite <- Hs1 in Eu, Hv.
    exists s1, context, t. split; [exact E |]. split; [exact Eg |].
    split; [exact Eu |]. rewrite (Hv eq_refl H4). vm_compute. reflexivity.
Defined.


(** X12 at a skip of 4 bytes at the start of the pass. *)
Lemma output_skip_disabled_witness :
  (Output_byte pass_begun = fn_no_output
   ∧ 1 <= 4
   ∧ 0 <= write_idx (out pass_begun)
   ∧ write_idx (out pass_begun) + 4 - 1 <= segment_max (out pass_begun)
   ∧ write_idx (out pass_begun) + 4 <= bufsize (out pass_begun)
   ∧ bufsize (out pass_begun) <= 2 ^ 30)
  ∧ ∃ s',
      output_skip 4 pass_begun = Done tt s'
      ∧ diagnostics s'
        = diagnostics pass_begun ++ [Diag Error exception_pc_undefined]
      ∧ Output_byte s' = fn_real_output
      ∧ stores s' = stores pass_begun ++ [(0, 0)]
      ∧ write_idx (out s') = 4.
Proof.
  split; [evaluated |].
  destruct (output_skip_disabled 4 pass_begun)
    as (s' & E & Hd & Hfn & Hs & _ & Hw & _); [evaluated.. |].
  exists s'. split; [exact E |]. split; [exact Hd |]. split; [exact Hfn |].
  split; [rewrite Hs | rewrite Hw]; vm_compute; reflexivity.
Defined.

(** X13 at the write that runs from the segment begun at 0x2fff into the
    one at 0x3000. *)
Lemma segment_crossing_reports_witness :
  (segment_max (out before_crossing) < write_idx (out before_crossing)
   ∧ 0 <= write_idx (out before_crossing) < bufsize (out before_crossing)
   ∧ bufsize (out before_crossing) <= 2 ^ 30)
  ∧ write_idx (out before_crossing) = 0x3000
  ∧ ∃ s1,
      real_output 0x60 before_crossing = Done tt s1
      ∧ diagnostics s1
        = diagnostics before_crossing ++ [reached before_crossing].
Proof.
  split; [evaluated |]. split; [vm_compute; reflexivity |].
  destruct (segment_crossing_reports 0x60 before_crossing)
    as (s1 & E & _ & Hfirst & _); [evaluated.. |].
  exists s1. split; [exact E |].
  destruct Hfirst as [Hd _]; [evaluated | exact Hd].
Defined.

(** X15 at program start. *)
Lemma filename_first_wins_witness :
  output_filename (startup default_config pass_one) = None
  ∧ ∃ s1 s2,
      outputfile_set_filename "a.prg" (startup default_config pass_one)
      = Done 0 s1
      ∧ outputfile_set_filename "b.prg" s1 = Done 1 s2
      ∧ output_filename s2 = Some "a.prg"
      ∧ diagnostics s2 = [Diag Warning "Output file already chosen."].
Proof.
  split; [reflexivity |].
  destruct (filename_first_wins "a.prg" "b.prg"
              (startup default_config pass_one))
    as (s1 & s2 & E1 & _ & _ & E2 & Hn & Hd); [reflexivity |].
  exists s1, s2. repeat apply conj; [exact E1 | exact E2 | exact Hn | exact Hd].
Defined.

(** X16 in the ring of [two_segments]: at an address inside the first
    segment, and at the largest value of a long of 64 bits. *)
Lemma find_segment_max_returns_witness :
  (intval_range 0x2005 ∧ intval_range (2 ^ 63 - 1)
   ∧ Forall (λ g, intval_range (seg_start g)) (ring (out two_segments)))
  ∧ (∃ s', find_segment_max 0x2005 two_segments = Done tt s'
           ∧ segment_max (out s') = 0x2fff)
  ∧ (∃ s', find_segment_max (2 ^ 63 - 1) two_segments = Stop Hang s').
Proof.
  assert (ring (out two_segments)
          = [ {| seg_start := 0x2000; seg_length := 16 |};
              {| seg_start := 0x3000; seg_length := 5 |} ]) as Hring
    by (vm_compute; reflexivity).
  assert (intval_range 0x2005) as H1 by evaluated.
  assert (intval_range (2 ^ 63 - 1)) as H2 by evaluated.
  assert (Forall (λ g, intval_range (seg_start g)) (ring (out two_segments)))
    as H3 by (rewrite Hring; repeat constructor; evaluated).
  split; [exact (conj H1 (conj H2 H3)) |]. split.
  - destruct (find_segment_max_returns 0x2005 two_segments H1 H3)
      as [Hret _].
    destruct Hret as (s' & E & Hm & _); [evaluated |].
    exists s'. split; [exact E |]. rewrite Hm. vm_compute. reflexivity.
  - destruct (find_segment_max_returns (2 ^ 63 - 1) two_segments H2 H3)
      as [_ Hhang].
    apply Hhang. reflexivity.
Defined.

(** X17 at ranges of 256 and of 300 bytes of the fill value 0xff: no
    record, and one record of 44 bytes. *)
Lemma hex_fill_run_truncated_witness :
  (fill_value all_fill ≠ 0
   ∧ ∀ j, 0 <= j < 300 → load j (buffer all_fill) = fill_value all_fill)
  ∧ outputHex_calls 0 256 all_fill = Some []
  ∧ outputHex 0 256 all_fill = Some ":00000001ff"
  ∧ outputHex_calls 0 300 all_fill = Some [(0, 44)]
  ∧ outputHex 0 300 all_fill
    = Some (":2c000000"
            +:+ "ffffffffffffffffffffffffffffffffffffffffffff"
            +:+ "ffffffffffffffffffffffffffffffffffffffffffff"
            +:+ "00" +:+ newline
            +:+ ":00000001ff").
Proof.
  assert (fill_value all_fill ≠ 0) as H1 by evaluated.
  assert (∀ j, 0 <= j < 300 → load j (buffer all_fill) = fill_value all_fill)
    as H2.
  { intros j Hj. change (buffer all_fill) with (replicate 300 0xff).
    change (fill_value all_fill) with 0xff. apply load_replicate. lia. }
  split; [exact (conj H1 H2) |].
  destruct (hex_fill_run_truncated 0 256 all_fill H1) as (E1 & T1 & _);
    [lia | evaluated | intros j Hj; apply H2; lia |].
  destruct (hex_fill_run_truncated 0 300 all_fill H1) as (E2 & T2 & _);
    [lia | evaluated | intros j Hj; apply H2; lia |].
  split; [exact E1 |]. split; [exact T1 |]. split; [exact E2 |].
  rewrite T2. vm_compute. reflexivity.
Defined.

(** X18 at the code of [two_segments], saved in the CBM format: the load
    address 0x2000, then the 0x1005 bytes from 0x2000 to 0x3004. *)
Lemma save_file_layout_witness :
  (0 <= lowest_written (out two_segments_cbm)
        <= highest_written (out two_segments_cbm)
   ∧ highest_written (out two_segments_cbm) < 2 ^ 30)
  ∧ lowest_written (out two_segments_cbm) = 0x2000
  ∧ highest_written (out two_segments_cbm) = 0x3004
  ∧ Z.of_nat (length (chunk_data 0x2000 0x1005 (out two_segments_cbm)))
    = 0x1005
  ∧ Output_save_file two_segments_cbm
    = Some (0x00 :: 0x20 :: chunk_data 0x2000 0x1005 (out two_segments_cbm)).
Proof.
  assert (lowest_written (out two_segments_cbm) = 0x2000) as Hlo
    by (vm_compute; reflexivity).
  assert (highest_written (out two_segments_cbm) = 0x3004) as Hhi
    by (vm_compute; reflexivity).
  assert (0 <= lowest_written (out two_segments_cbm)
               <= highest_written (out two_segments_cbm)) as H1
    by (rewrite Hlo, Hhi; lia).
  assert (highest_written (out two_segments_cbm) < 2 ^ 30) as H2
    by (rewrite Hhi; lia).
  split; [exact (conj H1 H2) |]. split; [exact Hlo |]. split; [exact Hhi |].
  pose proof (save_file_layout two_segments_cbm H1 H2) as Hl.
  cbv zeta in Hl. rewrite Hlo, Hhi in Hl.
  destruct Hl as (Hlen & _ & Hcbm & _).
  split; [exact Hlen |]. apply Hcbm. reflexivity.
Defined.

(** X19 at the buffer of the program start, no format chosen. *)
Lemma save_file_nothing_written_witness :
  2 <= bufsize (out booted) <= 2 ^ 30
  ∧ ∃ s, Output_passinit booted = Done tt s ∧ Output_save_file s = Some [].
Proof.
  assert (2 <= bufsize (out booted) <= 2 ^ 30) as H1 by evaluated.
  assert (output_format booted = OUTPUT_FORMAT_UNSPECIFIED) as Hf
    by (vm_compute; reflexivity).
  split; [exact H1 |].
  destruct (save_file_nothing_written booted H1) as (s & E & Hs).
  exists s. split; [exact E |]. rewrite Hs, Hf. reflexivity.
Defined.

(** X20 at three bytes written from 0x0801 on. *)
Lemma save_file_round_trip_witness :
  (0 <= 16 <= 30
   ∧ bufsize (out booted) = 2 ^ 16
   ∧ Z.of_nat (length (buffer (out booted))) = bufsize (out booted)
   ∧ 0 <= 0x0801
   ∧ 0x0801 + 3 <= bufsize (out booted))
  ∧ ∃ s,
      (Output_passinit;; vcpu_set_pc 0x0801 0;; Output_bytes [0x101; 2; 3])
        booted = Done tt s
      ∧ lowest_written (out s) = 0x0801
      ∧ highest_written (out s) = 0x0803
      ∧ Output_save_file s = Some [1; 2; 3].
Proof.
  assert (output_format booted = OUTPUT_FORMAT_UNSPECIFIED) as Hf
    by (vm_compute; reflexivity).
  split; [evaluated |].
  destruct (save_file_round_trip 0x0801 0 [0x101; 2; 3] booted 16)
    as (s & E & Hlo & Hhi & Hplain & _); [evaluated.. |].
  exists s. split; [exact E |]. split; [exact Hlo |]. split; [exact Hhi |].
  apply Hplain. right. exact Hf.
Defined.

(** X21 at the two bytes of data of [gap], forty bytes of the fill value
    0xff between them. *)
Lemma hex_fill_keeps_data_witness :
  (fill_value (gap 0xff) ≠ 0
   ∧ 0 <= 0 < 42 ∧ 42 <= INT_MAX
   ∧ load (42 - 1) (buffer (gap 0xff)) ≠ fill_value (gap 0xff))
  ∧ (∃ calls,
       outputHex_calls 0 42 (gap 0xff) = Some calls
       ∧ 0 ∈ covered calls ∧ 41 ∈ covered calls
       ∧ Forall (λ c, 0 <= c.2 <= 64) calls)
  ∧ outputHex 0 42 (gap 0xff)
    = Some (":0100000001fe" +:+ newline
            +:+ ":0100290002d4" +:+ newline
            +:+ ":00000001ff").
Proof.
  split; [evaluated |].
  destruct (hex_fill_keeps_data 0 42 (gap 0xff))
    as (calls & E & Ht & Hcov & _ & Hall); [evaluated.. |].
  split.
  - exists calls. split; [exact E |].
    split; [apply Hcov; evaluated |].
    split; [apply Hcov; evaluated | exact Hall].
  - assert (outputHex_calls 0 42 (gap 0xff) = Some [(0, 1); (41, 1)]) as E'
      by (vm_compute; reflexivity).
    rewrite E' in E. injection E as <-. rewrite Ht.
    vm_compute. reflexivity.
Defined.

(** X22 at a statement of three bytes at 0x1000. *)
Lemma statement_size_counts_witness :
  (bounded 16 (out at_1000)
   ∧ write_idx (out at_1000) + 3 <= bufsize (out at_1000))
  ∧ ∃ s1 s2 s3,
      vcpu_end_statement at_1000 = Done tt s1
      ∧ Output_bytes [1; 2; 3] s1 = Done tt s2
      ∧ vcpu_get_statement_size s2 = Done 3 s2
      ∧ vcpu_end_statement s2 = Done tt s3
      ∧ vcpu_get_statement_size s3 = Done 0 s3
      ∧ val_intval (pc (CPU_state s3)) = 0x1003.
Proof.
  split; [evaluated |].
  destruct (statement_size_counts [1; 2; 3] at_1000 16)
    as (s1 & s2 & s3 & E1 & E2 & Hn & _ & E3 & H0 & Hv & _); [evaluated.. |].
  assert (s1 = final (vcpu_end_statement at_1000)) as Hs1 by (by rewrite E1).
  exists s1, s2, s3.
  repeat apply conj; [exact E1 | exact E2 | exact Hn | exact E3 | exact H0 |].
  rewrite Hv, Hs1. vm_compute. reflexivity.
Defined.

(** X23 at the mask 0x80 and the byte 0x41. *)
Lemma xor_mask_applies_witness :
  (0 <= 0x80 < 256 ∧ 0 <= 0x41 < 256
   ∧ 0 <= write_idx (out at_1000) <= segment_max (out at_1000)
   ∧ write_idx (out at_1000) < Z.of_nat (length (buffer (out at_1000))))
  ∧ ∃ s1 s2,
      output_set_xor 0x80 at_1000 = Done tt s1
      ∧ output_get_xor s1 = Done 0x80 s1
      ∧ real_output 0x41 s1 = Done tt s2
      ∧ load (write_idx (out at_1000)) (buffer (out s2)) = 0xc1.
Proof.
  split; [evaluated |].
  destruct (xor_mask_applies 0x80 0x41 at_1000)
    as (s1 & s2 & E1 & Eg & E2 & Hl & _); [evaluated.. |].
  exists s1, s2. repeat apply conj; [exact E1 | exact Eg | exact E2 | exact Hl].
Defined.

(** X24 at a statement of twelve bytes at 0x1000: the nine bytes of the
    line are the first nine. *)
Lemma report_keeps_first_bytes_witness :
  (0 < REPORT_BINBUFSIZE < 2 ^ 31
   ∧ report_fd (report reporting) = true
   ∧ bin_used (report reporting) = 0
   ∧ REPORT_BINBUFSIZE <= Z.of_nat (length (bin_buf (report reporting)))
   ∧ 0 <= write_idx (out reporting)
   ∧ write_idx (out reporting) + 12 <= bufsize (out reporting)
   ∧ bufsize (out reporting) <= 2 ^ 30)
  ∧ ∃ s',
      Output_bytes [1; 2; 3; 4; 5; 6; 7; 8; 9; 10; 11; 12] reporting
      = Done tt s'
      ∧ bin_used (report s') = 9
      ∧ bin_address (report s') = 0x1000
      ∧ load 8 (bin_buf (report s')) = 9.
Proof.
  split; [evaluated |].
  destruct (report_keeps_first_bytes
              [1; 2; 3; 4; 5; 6; 7; 8; 9; 10; 11; 12] reporting)
    as (s' & E & Hu & _ & Ha & Hl); [evaluated.. |].
  exists s'. split; [exact E |]. split; [exact Hu |].
  split; [rewrite Ha by discriminate; vm_compute; reflexivity |].
  rewrite (Hl 8 9); [reflexivity | evaluated | reflexivity].
Defined.

End concrete.
